(** * go-course-for-students: lesson 3 (block copier) and lesson 2 (tag cloud)

    A shallow embedding of
    - [lesson3/homework/main.go]: the [process] loop that copies a byte
      stream block by block, decoding it rune by rune, applying the
      [-conv] operations and honouring [-offset], [-limit] and
      [-block-size];
    - [lesson2/homework/tagcloud/specification.go]: [TagCloud], [AddTag]
      and [TopN].

    Bytes are [Byte.byte], runes (Go [rune] = [int32]) and the [uint]
    options are [Z]; the wrap-around of [uint] arithmetic is written out.
    The functions of Go's standard library that [process] calls
    ([utf8.DecodeRune], [utf8.AppendRune], [unicode.IsSpace],
    [bytes.TrimRightFunc]) are transcribed from the library; the case table
    behind [unicode.To] is a parameter of the development. *)

From Stdlib Require Import ZArith List Lia Bool Strings.Byte String Ascii.
From Stdlib Require Import Sorting.Permutation Sorting.Sorted.
From stdpp Require Import gmap strings.
Import ListNotations.

#[local] Open Scope Z_scope.

(** ** Machine integers *)

(** Go's [uint] on a 64-bit platform. *)
Definition uint_modulus : Z := 2 ^ 64.
Definition uint (z : Z) : Z := z mod uint_modulus.
Definition uint_add (a b : Z) : Z := uint (a + b).
Definition uint_sub (a b : Z) : Z := uint (a - b).

(** Conversion of an integer to [int32] (Go's [rune]): two's complement. *)
Definition int32 (z : Z) : Z := (z + 2 ^ 31) mod 2 ^ 32 - 2 ^ 31.
Definition uint32 (z : Z) : Z := z mod 2 ^ 32.

(** [rune(b)] for a byte [b], and [byte(z)] for an integer [z]. *)
Definition b2z (b : byte) : Z := Z.of_N (Byte.to_N b).
Definition z2b (z : Z) : byte :=
  match Byte.of_N (Z.to_N (z mod 256)) with
  | Some b => b
  | None => x00
  end.

(** [len(s)] as a Go [int]. *)
Definition len {A} (s : list A) : Z := Z.of_nat (List.length s).

(** ** Package [unicode/utf8] *)

Module utf8.

Definition RuneError : Z := 0xFFFD.
Definition RuneSelf : Z := 0x80.
Definition MaxRune : Z := 0x10FFFF.
Definition UTFMax : Z := 4.

Definition surrogateMin : Z := 0xD800.
Definition surrogateMax : Z := 0xDFFF.

Definition tx : Z := 0x80.
Definition t2 : Z := 0xC0.
Definition t3 : Z := 0xE0.
Definition t4 : Z := 0xF0.

Definition maskx : Z := 0x3F.
Definition mask2 : Z := 0x1F.
Definition mask3 : Z := 0x0F.
Definition mask4 : Z := 0x07.

Definition rune1Max : Z := 2 ^ 7 - 1.
Definition rune2Max : Z := 2 ^ 11 - 1.
Definition rune3Max : Z := 2 ^ 16 - 1.

Definition locb : Z := 0x80.
Definition hicb : Z := 0xBF.

(** Information about the first byte of an encoding: the low three bits
    are the size, the high four bits index [acceptRanges]. *)
Definition xx : Z := 0xF1.
Definition as_ : Z := 0xF0.
Definition s1 : Z := 0x02.
Definition s2 : Z := 0x13.
Definition s3 : Z := 0x03.
Definition s4 : Z := 0x23.
Definition s5 : Z := 0x34.
Definition s6 : Z := 0x04.
Definition s7 : Z := 0x44.

(** The 256-entry table [first], by ranges of equal entries. *)
Definition first (p0 : Z) : Z :=
  if p0 <? 0x80 then as_
  else if p0 <? 0xC2 then xx
  else if p0 <? 0xE0 then s1
  else if p0 =? 0xE0 then s2
  else if p0 <? 0xED then s3
  else if p0 =? 0xED then s4
  else if p0 <? 0xF0 then s3
  else if p0 =? 0xF0 then s5
  else if p0 <? 0xF4 then s6
  else if p0 =? 0xF4 then s7
  else xx.

Record acceptRange := { lo : Z; hi : Z }.

Definition acceptRanges (i : Z) : acceptRange :=
  if i =? 0 then {| lo := locb; hi := hicb |}
  else if i =? 1 then {| lo := 0xA0; hi := hicb |}
  else if i =? 2 then {| lo := locb; hi := 0x9F |}
  else if i =? 3 then {| lo := 0x90; hi := hicb |}
  else if i =? 4 then {| lo := locb; hi := 0x8F |}
  else {| lo := 0; hi := 0 |}.

(** [p[i]], read only where the source has checked [i < len(p)]. *)
Definition at_ (p : list byte) (i : nat) : Z := b2z (nth i p x00).

Definition DecodeRune (p : list byte) : Z * nat :=
  let n := len p in
  if n <? 1 then (RuneError, 0%nat)
  else
    let p0 := at_ p 0 in
    let x := first p0 in
    if as_ <=? x then
      let mask := Z.shiftr (int32 (Z.shiftl x 31)) 31 in
      (Z.lor (Z.land p0 (Z.lnot mask)) (Z.land RuneError mask), 1%nat)
    else
      let sz := Z.land x 7 in
      let accept := acceptRanges (Z.shiftr x 4) in
      if n <? sz then (RuneError, 1%nat)
      else
        let b1 := at_ p 1 in
        if (b1 <? lo accept) || (hi accept <? b1) then (RuneError, 1%nat)
        else if sz <=? 2 then
          (Z.lor (Z.shiftl (Z.land p0 mask2) 6) (Z.land b1 maskx), 2%nat)
        else
          let b2 := at_ p 2 in
          if (b2 <? locb) || (hicb <? b2) then (RuneError, 1%nat)
          else if sz <=? 3 then
            (Z.lor (Z.lor (Z.shiftl (Z.land p0 mask3) 12)
                          (Z.shiftl (Z.land b1 maskx) 6))
                   (Z.land b2 maskx), 3%nat)
          else
            let b3 := at_ p 3 in
            if (b3 <? locb) || (hicb <? b3) then (RuneError, 1%nat)
            else
              (Z.lor (Z.lor (Z.lor (Z.shiftl (Z.land p0 mask4) 18)
                                   (Z.shiftl (Z.land b1 maskx) 12))
                            (Z.shiftl (Z.land b2 maskx) 6))
                     (Z.land b3 maskx), 4%nat).

(** [RuneStart(b)]: [b] is not a continuation byte. *)
Definition RuneStart (b : byte) : bool :=
  negb (Z.land (b2z b) 0xC0 =? 0x80).

(** The backwards scan of [DecodeLastRune]:
    [for start--; start >= lim; start-- { if RuneStart(p[start]) { break } }],
    entered with [start] already decremented. *)
Fixpoint scanStart (fuel : nat) (p : list byte) (start lim : Z) : Z :=
  match fuel with
  | O => start
  | S fuel' =>
    if lim <=? start then
      if RuneStart (nth (Z.to_nat start) p x00) then start
      else scanStart fuel' p (start - 1) lim
    else start
  end.

Definition DecodeLastRune (p : list byte) : Z * nat :=
  let end_ := len p in
  if end_ =? 0 then (RuneError, 0%nat)
  else
    let start := end_ - 1 in
    let r := at_ p (Z.to_nat start) in
    if r <? RuneSelf then (r, 1%nat)
    else
      let lim := Z.max (end_ - UTFMax) 0 in
      let start := scanStart (Z.to_nat UTFMax) p (start - 1) lim in
      let start := Z.max start 0 in
      let '(r, size) := DecodeRune (skipn (Z.to_nat start) p) in
      if start + Z.of_nat size =? end_ then (r, size)
      else (RuneError, 1%nat).

(** The integer value of [byte(z)]. *)
Definition byteZ (z : Z) : Z := z mod 256.

(** [appendRuneNonASCII]; the [switch] is on [i := uint32(r)]. *)
Definition appendRuneNonASCII (p : list byte) (r : Z) : list byte :=
  let i := uint32 r in
  let three (r : Z) :=
    p ++ [z2b (Z.lor t3 (byteZ (Z.shiftr r 12)));
          z2b (Z.lor tx (Z.land (byteZ (Z.shiftr r 6)) maskx));
          z2b (Z.lor tx (Z.land (byteZ r) maskx))] in
  if i <=? rune2Max then
    p ++ [z2b (Z.lor t2 (byteZ (Z.shiftr r 6)));
          z2b (Z.lor tx (Z.land (byteZ r) maskx))]
  else if (MaxRune <? i) || ((surrogateMin <=? i) && (i <=? surrogateMax)) then
    three RuneError
  else if i <=? rune3Max then three r
  else
    p ++ [z2b (Z.lor t4 (byteZ (Z.shiftr r 18)));
          z2b (Z.lor tx (Z.land (byteZ (Z.shiftr r 12)) maskx));
          z2b (Z.lor tx (Z.land (byteZ (Z.shiftr r 6)) maskx));
          z2b (Z.lor tx (Z.land (byteZ r) maskx))].

Definition AppendRune (p : list byte) (r : Z) : list byte :=
  if uint32 r <=? rune1Max then p ++ [z2b r]
  else appendRuneNonASCII p r.

End utf8.

(** ** Package [unicode] *)

Module unicode.

Definition MaxRune : Z := 0x10FFFF.
Definition ReplacementChar : Z := 0xFFFD.
Definition MaxLatin1 : Z := 0xFF.

Definition UpperCase : Z := 0.
Definition LowerCase : Z := 1.
Definition TitleCase : Z := 2.
Definition MaxCase : Z := 3.
Definition UpperLower : Z := MaxRune + 1.

Record Range16 := { Lo16 : Z; Hi16 : Z; Stride16 : Z }.

(** [White_Space.R16]; [White_Space.R32] is empty and
    [White_Space.LatinOffset] is 2. *)
Definition White_Space_R16 : list Range16 :=
  [ {| Lo16 := 0x0009; Hi16 := 0x000d; Stride16 := 1 |};
    {| Lo16 := 0x0020; Hi16 := 0x0085; Stride16 := 101 |};
    {| Lo16 := 0x00a0; Hi16 := 0x1680; Stride16 := 5600 |};
    {| Lo16 := 0x2000; Hi16 := 0x200a; Stride16 := 1 |};
    {| Lo16 := 0x2028; Hi16 := 0x2029; Stride16 := 1 |};
    {| Lo16 := 0x202f; Hi16 := 0x205f; Stride16 := 48 |};
    {| Lo16 := 0x3000; Hi16 := 0x3000; Stride16 := 1 |} ].
Definition White_Space_LatinOffset : nat := 2.

(** [is16] on a table of at most [linearMax] ranges: the linear scan. *)
Fixpoint is16 (ranges : list Range16) (r : Z) : bool :=
  match ranges with
  | [] => false
  | range_ :: ranges' =>
    if r <? Lo16 range_ then false
    else if r <=? Hi16 range_ then
      (Stride16 range_ =? 1) || ((r - Lo16 range_) mod Stride16 range_ =? 0)
    else is16 ranges' r
  end.

(** [isExcludingLatin(White_Space, r)]. *)
Definition isExcludingLatin_White_Space (r : Z) : bool :=
  let r16 := White_Space_R16 in
  let off := White_Space_LatinOffset in
  if (Nat.ltb off (List.length r16))
     && (uint32 r <=? Hi16 (List.last r16 {| Lo16 := 0; Hi16 := 0; Stride16 := 1 |}))
  then is16 (skipn off r16) (r mod 2 ^ 16)
  else false.

Definition IsSpace (r : Z) : bool :=
  if uint32 r <=? MaxLatin1 then
    (r =? 0x09) || (r =? 0x0A) || (r =? 0x0B) || (r =? 0x0C) || (r =? 0x0D)
    || (r =? 0x20) || (r =? 0x85) || (r =? 0xA0)
  else isExcludingLatin_White_Space r.

(** A row of the case table: [Delta] holds the offsets to add to reach the
    upper, lower and title case. *)
Record CaseRange := { Lo : Z; Hi : Z; Delta : Z * Z * Z }.

Definition delta (cr : CaseRange) (_case : Z) : Z :=
  let '(u, l, t) := Delta cr in
  if _case =? UpperCase then u else if _case =? LowerCase then l else t.

(** The binary search of [to]; [hi - lo] halves at every turn. *)
Fixpoint to_loop (fuel : nat) (_case r : Z) (caseRange : list CaseRange)
    (lo hi : Z) : Z * bool :=
  match fuel with
  | O => (r, false)
  | S fuel' =>
    if lo <? hi then
      let m := Z.shiftr (uint (lo + hi)) 1 in
      let cr := nth (Z.to_nat m) caseRange {| Lo := 0; Hi := 0; Delta := (0, 0, 0) |} in
      if (Lo cr <=? r) && (r <=? Hi cr) then
        let d := delta cr _case in
        if MaxRune <? d then
          (int32 (Lo cr + Z.lor (Z.land (r - Lo cr) (Z.lnot 1)) (Z.land _case 1)), true)
        else (int32 (r + d), true)
      else if r <? Lo cr then to_loop fuel' _case r caseRange lo m
      else to_loop fuel' _case r caseRange (m + 1) hi
    else (r, false)
  end.

Definition to (_case r : Z) (caseRange : list CaseRange) : Z * bool :=
  if (_case <? 0) || (MaxCase <=? _case) then (ReplacementChar, false)
  else to_loop (S (List.length caseRange)) _case r caseRange 0 (len caseRange).

(** [To(_case, r)], over the table [CaseRanges] given as [caseRange]. *)
Definition To (caseRange : list CaseRange) (_case r : Z) : Z :=
  fst (to _case r caseRange).

(** The first rows of Go's [CaseRanges] (Latin, up to U+017F). *)
Definition CaseRanges_head : list CaseRange :=
  [ {| Lo := 0x0041; Hi := 0x005A; Delta := (0, 32, 0) |};
    {| Lo := 0x0061; Hi := 0x007A; Delta := (-32, 0, -32) |};
    {| Lo := 0x00B5; Hi := 0x00B5; Delta := (743, 0, 743) |};
    {| Lo := 0x00C0; Hi := 0x00D6; Delta := (0, 32, 0) |};
    {| Lo := 0x00D8; Hi := 0x00DE; Delta := (0, 32, 0) |};
    {| Lo := 0x00E0; Hi := 0x00F6; Delta := (-32, 0, -32) |};
    {| Lo := 0x00F8; Hi := 0x00FE; Delta := (-32, 0, -32) |};
    {| Lo := 0x00FF; Hi := 0x00FF; Delta := (121, 0, 121) |};
    {| Lo := 0x0100; Hi := 0x012F; Delta := (UpperLower, UpperLower, UpperLower) |};
    {| Lo := 0x0130; Hi := 0x0130; Delta := (0, -199, 0) |};
    {| Lo := 0x0131; Hi := 0x0131; Delta := (-232, 0, -232) |};
    {| Lo := 0x0132; Hi := 0x0137; Delta := (UpperLower, UpperLower, UpperLower) |};
    {| Lo := 0x0139; Hi := 0x0148; Delta := (UpperLower, UpperLower, UpperLower) |};
    {| Lo := 0x014A; Hi := 0x0177; Delta := (UpperLower, UpperLower, UpperLower) |};
    {| Lo := 0x0178; Hi := 0x0178; Delta := (0, -121, 0) |};
    {| Lo := 0x0179; Hi := 0x017E; Delta := (UpperLower, UpperLower, UpperLower) |};
    {| Lo := 0x017F; Hi := 0x017F; Delta := (-300, 0, -300) |} ].

End unicode.

(** ** Package [bytes] *)

Module bytes.

(** The loop of [lastIndexFunc]: [for i := len(s); i > 0; { ... }]. *)
Fixpoint lastIndexFunc_loop (fuel : nat) (s : list byte) (f : Z -> bool)
    (truth : bool) (i : Z) : Z :=
  match fuel with
  | O => -1
  | S fuel' =>
    if 0 <? i then
      let r0 := utf8.at_ s (Z.to_nat (i - 1)) in
      let '(r, size) :=
        if utf8.RuneSelf <=? r0 then utf8.DecodeLastRune (firstn (Z.to_nat i) s)
        else (r0, 1%nat) in
      let i := i - Z.of_nat size in
      if Bool.eqb (f r) truth then i
      else lastIndexFunc_loop fuel' s f truth i
    else -1
  end.

Definition lastIndexFunc (s : list byte) (f : Z -> bool) (truth : bool) : Z :=
  lastIndexFunc_loop (S (List.length s)) s f truth (len s).

Definition TrimRightFunc (s : list byte) (f : Z -> bool) : list byte :=
  let i := lastIndexFunc s f false in
  let i :=
    if (0 <=? i) && (utf8.RuneSelf <=? utf8.at_ s (Z.to_nat i)) then
      i + Z.of_nat (snd (utf8.DecodeRune (skipn (Z.to_nat i) s)))
    else i + 1 in
  firstn (Z.to_nat i) s.

End bytes.

(** ** The runtime: [make]

    [make([]byte, n)] with [n] of type [uint] is compiled to
    [makeslice(byte, int(n), int(n))], which panics with "makeslice: len
    out of range" when [int(n)] is negative or above [maxAlloc]; below
    that the memory is taken to be there. *)

Module runtime.

(** [maxAlloc] on a 64-bit platform with 48 bits of heap address. *)
Definition maxAlloc : Z := 2 ^ 48.

(** [make([]byte, n)] panics. *)
Definition makeslicePanics (n : Z) : bool :=
  (2 ^ 63 <=? n) || (maxAlloc <? n).

End runtime.

(** ** [lesson3/homework/main.go] *)

Module Main.

(** [Options], without the file names [From] and [To]: the bytes of the
    source are an argument of [process] and the bytes written to the sink
    are part of its result. *)
Record Options := {
  Offset : Z;        (* int64 *)
  Limit : Z;         (* uint *)
  BlockSize : Z;     (* uint *)
  Conv : string
}.

Inductive ConvOption := UpperCase | LowerCase | TrimSpaces.

Definition ConvOption_eqb (a b : ConvOption) : bool :=
  match a, b with
  | UpperCase, UpperCase | LowerCase, LowerCase | TrimSpaces, TrimSpaces => true
  | _, _ => false
  end.

Definition ConvMapper (s : string) : option ConvOption :=
  if String.eqb s "upper_case" then Some UpperCase
  else if String.eqb s "lower_case" then Some LowerCase
  else if String.eqb s "trim_spaces" then Some TrimSpaces
  else None.

(** [strings.Split(s, sep)] for a one-character separator. *)
Fixpoint Split (s : string) (sep : ascii) : list string :=
  match s with
  | EmptyString => [EmptyString]
  | String c s' =>
    if Ascii.eqb c sep then EmptyString :: Split s' sep
    else match Split s' sep with
         | h :: t => String c h :: t
         | [] => [String c EmptyString]
         end
  end.

(** The errors [process] and [ParseConv] return, and the panic of
    line 153. *)
Inductive Error :=
| UnknownOption (s : string)     (* "got unknow options while parse -conv" *)
| BothCases                      (* "can't use both upper_case and lower_case" *)
| ApplyOffsetFailed              (* "apply offset failed ..." *)
| ReadingFailed                  (* "error while reading" *)
| OpenFailed (path : string)     (* the error of [os.Open] or [os.OpenFile] *)
| PanicMakeslice.                (* panic: "makeslice: len out of range" *)

Fixpoint ParseConv_loop (l : list string) (result : list ConvOption)
    (gotCase : bool) : Error + list ConvOption :=
  match l with
  | [] => inr result
  | s :: l' =>
    match ConvMapper s with
    | None => inl (UnknownOption s)
    | Some parsed =>
      if ConvOption_eqb parsed LowerCase || ConvOption_eqb parsed UpperCase then
        if gotCase then inl BothCases
        else ParseConv_loop l' (result ++ [parsed]) true
      else ParseConv_loop l' (result ++ [parsed]) gotCase
    end
  end.

Definition ParseConv (o : Options) : Error + list ConvOption :=
  if String.eqb (Conv o) "" then inr []
  else ParseConv_loop (Split (Conv o) ","%char) [] false.

(** *** The reader and the writer

    The source is a file (or a [bytes.Reader]): the bytes not yet read.
    [Read] with a buffer of [n > 0] bytes fills as much of it as the source
    still has and reports [io.EOF], with no byte, only when nothing is left;
    with an empty buffer it returns [0, nil].  The sink keeps every byte
    written to it and accepts every write. *)

Inductive ReadErr := EOF | OtherReadErr.

Definition Read (reader : list byte) (n : Z)
    : list byte * option ReadErr * list byte :=
  if n <=? 0 then ([], None, reader)
  else match reader with
       | [] => ([], Some EOF, [])
       | _ => (firstn (Z.to_nat n) reader, None, skipn (Z.to_nat n) reader)
       end.

(** [io.CopyN(io.Discard, reader, n)]: the number of bytes discarded, the
    error and the reader afterwards. *)
Definition CopyN_Discard (reader : list byte) (n : Z)
    : Z * option ReadErr * list byte :=
  if n <=? 0 then (0, None, reader)
  else if n <=? len reader then (n, None, skipn (Z.to_nat n) reader)
  else (len reader, Some EOF, []).

Section Process.

(** Go's table [unicode.CaseRanges], which [unicode.To] searches. *)
Variable CaseRanges : list unicode.CaseRange.

Variable opts : Options.
Variable parsedConv : list ConvOption.

(** Lines 175-192, the loop over [parsedConv] for one rune: the rune after
    the case operations, or [None] where the source leaves by
    [continue SymbolIterate], and [isSpaceEnded] afterwards. *)
Fixpoint handleConv (convs : list ConvOption) (r : Z) (isSpaceEnded : bool)
    : option Z * bool :=
  match convs with
  | [] => (Some r, isSpaceEnded)
  | conv :: convs' =>
    let r := if ConvOption_eqb conv UpperCase
             then unicode.To CaseRanges unicode.UpperCase r else r in
    let r := if ConvOption_eqb conv LowerCase
             then unicode.To CaseRanges unicode.LowerCase r else r in
    if ConvOption_eqb conv TrimSpaces then
      if unicode.IsSpace r then
        if negb isSpaceEnded then (None, isSpaceEnded)
        else handleConv convs' r isSpaceEnded
      else handleConv convs' r true
    else handleConv convs' r isSpaceEnded
  end.

(** The exit taken by the loop [SymbolIterate]: its condition
    [len(buffer) > 0] failed, the [break] of line 171, or the [break] of
    line 201. *)
Inductive Exit := Consumed | ShortTail | BlockFull.

Record Symbols := {
  writerBuf : list byte;
  buffer : list byte;
  spaceEnded : bool;
  exit : Exit
}.

(** Lines 166-205. Every turn that does not leave drops [size >= 1] bytes
    of [buffer], so [fuel] above [len(buffer)] is never used up. *)
Fixpoint SymbolIterate_loop (fuel : nat) (buffer writerBuf : list byte)
    (isSpaceEnded : bool) : Symbols :=
  match fuel with
  | O => {| writerBuf := writerBuf; buffer := buffer;
            spaceEnded := isSpaceEnded; exit := Consumed |}
  | S fuel' =>
    if 0 <? len buffer then
      let '(r, size) := utf8.DecodeRune buffer in
      if (len buffer <? 3) && ((Z.of_nat size <=? 0) || (r =? utf8.RuneError)) then
        {| writerBuf := writerBuf; buffer := buffer;
           spaceEnded := isSpaceEnded; exit := ShortTail |}
      else
        match handleConv parsedConv r isSpaceEnded with
        | (None, isSpaceEnded) =>
          SymbolIterate_loop fuel' (skipn size buffer) writerBuf isSpaceEnded
        | (Some r, isSpaceEnded) =>
          let newWriteBuf :=
            if r =? utf8.RuneError then [] ++ firstn size buffer
            else utf8.AppendRune writerBuf r in
          if BlockSize opts <? uint (len newWriteBuf) then
            {| writerBuf := writerBuf; buffer := buffer;
               spaceEnded := isSpaceEnded; exit := BlockFull |}
          else
            SymbolIterate_loop fuel' (skipn size buffer) newWriteBuf isSpaceEnded
        end
    else
      {| writerBuf := writerBuf; buffer := buffer;
         spaceEnded := isSpaceEnded; exit := Consumed |}
  end.

Definition SymbolIterate (buffer : list byte) (isSpaceEnded : bool) : Symbols :=
  SymbolIterate_loop (S (List.length buffer)) buffer [] isSpaceEnded.

(** The variables of the main cycle. *)
Record State := {
  prevBuffer : list byte;
  isSpaceEnded : bool;
  totalReadBytes : Z
}.

(** Lines 149-152. *)
Definition maxReadLength (st : State) : Z :=
  if (0 <? Limit opts)
     && (Limit opts <? uint_add (totalReadBytes st) (BlockSize opts))
  then uint_sub (Limit opts) (totalReadBytes st)
  else BlockSize opts.

(** Lines 162-224, one turn of the main cycle after [reader.Read] has
    returned the bytes [chunk] and set [endFile]: the bytes written, the
    variables afterwards, and whether the cycle is left. *)
Definition iteration (chunk : list byte) (endFile : bool) (st : State)
    : list byte * State * bool :=
  let sy := SymbolIterate (prevBuffer st ++ chunk) (isSpaceEnded st) in
  let prevBuffer := buffer sy in
  let writerBuf :=
    if spaceEnded sy then bytes.TrimRightFunc (writerBuf sy) unicode.IsSpace
    else writerBuf sy in
  let totalReadBytes := uint_add (totalReadBytes st) (len chunk) in
  let st' := {| prevBuffer := prevBuffer; isSpaceEnded := spaceEnded sy;
                totalReadBytes := totalReadBytes |} in
  if endFile || ((0 <? Limit opts) && (Limit opts <=? totalReadBytes)) then
    (writerBuf ++ prevBuffer, st', true)
  else (writerBuf, st', false).

(** What [process] leaves behind: the error it returned or the panic
    that ended it, the bytes written to the sink and the bytes of the
    source not read. *)
Record Outcome := {
  err : option Error;
  written : list byte;
  unread : list byte
}.

(** Lines 146-225; line 153 is a panic when [make] refuses the length.
    [None] when [fuel] turns were not enough. *)
Fixpoint mainCycle (fuel : nat) (reader : list byte) (st : State)
    (sink : list byte) : option Outcome :=
  match fuel with
  | O => None
  | S fuel' =>
    if runtime.makeslicePanics (maxReadLength st) then
      Some {| err := Some PanicMakeslice; written := sink; unread := reader |}
    else
    let '(chunk, e, reader) := Read reader (maxReadLength st) in
    match e with
    | Some OtherReadErr =>
      Some {| err := Some ReadingFailed; written := sink; unread := reader |}
    | _ =>
      let endFile := match e with Some EOF => true | _ => false end in
      let '(w, st', stop) := iteration chunk endFile st in
      if stop then Some {| err := None; written := sink ++ w; unread := reader |}
      else mainCycle fuel' reader st' (sink ++ w)
    end
  end.

Definition initialState : State :=
  {| prevBuffer := []; isSpaceEnded := false; totalReadBytes := 0 |}.

(** The values saved in [prevBuffer] at line 207, turn after turn of
    [mainCycle]. *)
Fixpoint carries (fuel : nat) (reader : list byte) (st : State)
    : list (list byte) :=
  match fuel with
  | O => []
  | S fuel' =>
    if runtime.makeslicePanics (maxReadLength st) then []
    else
    let '(chunk, e, reader) := Read reader (maxReadLength st) in
    match e with
    | Some OtherReadErr => []
    | _ =>
      let endFile := match e with Some EOF => true | _ => false end in
      let '(_, st', stop) := iteration chunk endFile st in
      prevBuffer st' :: (if stop then [] else carries fuel' reader st')
    end
  end.

(** The state in which the loop [SymbolIterate] is left (line 205), turn
    after turn of [mainCycle]. *)
Fixpoint turns (fuel : nat) (reader : list byte) (st : State)
    : list Symbols :=
  match fuel with
  | O => []
  | S fuel' =>
    if runtime.makeslicePanics (maxReadLength st) then []
    else
    let '(chunk, e, reader) := Read reader (maxReadLength st) in
    match e with
    | Some OtherReadErr => []
    | _ =>
      let endFile := match e with Some EOF => true | _ => false end in
      let '(_, st', stop) := iteration chunk endFile st in
      SymbolIterate (prevBuffer st ++ chunk) (isSpaceEnded st)
      :: (if stop then [] else turns fuel' reader st')
    end
  end.

(** Lines 136-226: [process] from the offset on, with [parsedConv] given. *)
Definition processFrom (fuel : nat) (reader : list byte) : option Outcome :=
  let '(_, e, reader) := CopyN_Discard reader (Offset opts) in
  match e with
  | Some _ =>
    Some {| err := Some ApplyOffsetFailed; written := []; unread := reader |}
  | None => mainCycle fuel reader initialState []
  end.

End Process.

(** [process(opts)], on a source holding [input]. Every turn of the main
    cycle but the last reads at least one byte when [BlockSize >= 1], so
    [len(input) + 1] turns are enough (see [process_returns]); [None] is a
    run that does not return. *)
Definition process (CaseRanges : list unicode.CaseRange) (opts : Options)
    (input : list byte) : option Outcome :=
  match ParseConv opts with
  | inl e => Some {| err := Some e; written := []; unread := input |}
  | inr parsedConv =>
    processFrom CaseRanges opts parsedConv (S (List.length input)) input
  end.

(** The bytes of a string literal. *)
Definition bs (s : string) : list byte := list_byte_of_string s.

(** [opts] with another offset or block size. *)
Definition withOffset (opts : Options) (offset : Z) : Options :=
  {| Offset := offset; Limit := Limit opts; BlockSize := BlockSize opts;
     Conv := Conv opts |}.

Definition withBlockSize (opts : Options) (blockSize : Z) : Options :=
  {| Offset := Offset opts; Limit := Limit opts; BlockSize := blockSize;
     Conv := Conv opts |}.

(** *** Predicates used to state the properties of [process] *)

(** The counter [totalReadBytes] stays below a positive [Limit] for as
    long as the main cycle goes on. *)
Definition counting (opts : Options) (st : State) : Prop :=
  0 <= totalReadBytes st
  /\ (0 < Limit opts -> totalReadBytes st < Limit opts).

(** [SymbolIterate] left by the [break] of line 201: the rune at the head
    of what is left of [buffer] made [newWriteBuf] longer than
    [BlockSize]. *)
Definition refusedHead (CaseRanges : list unicode.CaseRange) (opts : Options)
    (parsedConv : list ConvOption) (sy : Symbols) : Prop :=
  exists r size isSpaceEnded r',
    utf8.DecodeRune (buffer sy) = (r, size)
    /\ handleConv CaseRanges parsedConv r isSpaceEnded = (Some r', spaceEnded sy)
    /\ BlockSize opts <
       uint (len (if r' =? utf8.RuneError then [] ++ firstn size (buffer sy)
                  else utf8.AppendRune (writerBuf sy) r')).

(** *** Inputs of one-byte runes

    Every byte of the input is below [utf8.RuneSelf], and the case table
    maps such runes to such runes without turning a space into a
    non-space or back (Go's table changes letters only). *)
Definition isASCII (input : list byte) : Prop :=
  Forall (fun b => b2z b < utf8.RuneSelf) input.

Definition caseKeepsASCII (CaseRanges : list unicode.CaseRange) : Prop :=
  forall _case r,
    _case = unicode.UpperCase \/ _case = unicode.LowerCase ->
    0 <= r < utf8.RuneSelf ->
    0 <= unicode.To CaseRanges _case r < utf8.RuneSelf
    /\ unicode.IsSpace (unicode.To CaseRanges _case r) = unicode.IsSpace r.

(** [caseKeepsASCII], checked rune by rune. *)
Definition caseKeepsASCIIb (CaseRanges : list unicode.CaseRange) : bool :=
  forallb
    (fun r =>
       forallb
         (fun _case =>
            let r' := unicode.To CaseRanges _case r in
            (0 <=? r') && (r' <? utf8.RuneSelf)
            && Bool.eqb (unicode.IsSpace r') (unicode.IsSpace r))
         [unicode.UpperCase; unicode.LowerCase])
    (map Z.of_nat (seq 0 128)).

(** What lines 166-205 make of a buffer of one-byte runes when every rune
    fits in the block: the bytes appended to [writerBuf], and
    [isSpaceEnded] afterwards. *)
Fixpoint convertASCII (CaseRanges : list unicode.CaseRange)
    (parsedConv : list ConvOption) (isSpaceEnded : bool) (buffer : list byte)
    : list byte * bool :=
  match buffer with
  | [] => ([], isSpaceEnded)
  | b :: buffer' =>
    match handleConv CaseRanges parsedConv (b2z b) isSpaceEnded with
    | (None, isSpaceEnded) =>
      convertASCII CaseRanges parsedConv isSpaceEnded buffer'
    | (Some r, isSpaceEnded) =>
      let '(out, isSpaceEnded) :=
        convertASCII CaseRanges parsedConv isSpaceEnded buffer' in
      (z2b r :: out, isSpaceEnded)
    end
  end.

(** Lines 209-211. *)
Definition trimBlock (isSpaceEnded : bool) (writerBuf : list byte) : list byte :=
  if isSpaceEnded then bytes.TrimRightFunc writerBuf unicode.IsSpace
  else writerBuf.

(** The bytes [process] is asked to copy: the input from [Offset] on, cut
    after [Limit] bytes when [Limit] is positive. *)
Definition copied (opts : Options) (input : list byte) : list byte :=
  let reader := skipn (Z.to_nat (Offset opts)) input in
  if 0 <? Limit opts then firstn (Z.to_nat (Limit opts)) reader else reader.

(** No block but the last ends in a white space byte: the last byte
    before every block boundary inside the input is not a space. *)
Definition noSpaceAtBoundary (blockSize : Z) (input : list byte) : Prop :=
  forall k, 0 < k -> k * blockSize < len input ->
    unicode.IsSpace (utf8.at_ input (Z.to_nat (k * blockSize - 1))) = false.

(** [blockwise T conv e window w]: [w] is what the main cycle writes for
    a source of one-byte runes [window] that it reads as some sequence of
    blocks, entered with [isSpaceEnded = e]: every block goes through
    lines 166-205 and is trimmed by lines 209-211. *)
Inductive blockwise (CaseRanges : list unicode.CaseRange)
    (parsedConv : list ConvOption) : bool -> list byte -> list byte -> Prop :=
| blockwise_end isSpaceEnded :
    blockwise CaseRanges parsedConv isSpaceEnded [] []
| blockwise_block isSpaceEnded chunk rest w :
    blockwise CaseRanges parsedConv
      (snd (convertASCII CaseRanges parsedConv isSpaceEnded chunk)) rest w ->
    blockwise CaseRanges parsedConv isSpaceEnded (chunk ++ rest)
      (trimBlock (snd (convertASCII CaseRanges parsedConv isSpaceEnded chunk))
                 (fst (convertASCII CaseRanges parsedConv isSpaceEnded chunk))
       ++ w).

(** A byte that is not white space, and a run of white space bytes. *)
Definition nonSpace (b : byte) : bool := negb (unicode.IsSpace (b2z b)).

Definition blank (s : list byte) : Prop :=
  Forall (fun b => unicode.IsSpace (b2z b) = true) s.

(** *** Text of runes of at most three bytes

    A rune of the Basic Multilingual Plane other than a surrogate and
    other than U+FFFD, the rune [utf8.DecodeRune] also returns for an
    invalid byte. *)
Definition plain (r : Z) : bool :=
  (0 <=? r) && (r <=? utf8.rune3Max)
  && negb ((utf8.surrogateMin <=? r) && (r <=? utf8.surrogateMax))
  && negb (r =? utf8.RuneError).

(** [[]byte(string(runes))]. *)
Definition encode (runes : list Z) : list byte :=
  concat (map (utf8.AppendRune []) runes).

(** The encoding of some such runes. *)
Definition plainText (s : list byte) : Prop :=
  exists runes, forallb plain runes = true /\ s = encode runes.

(** *** Text whose upper case has the same width

    [unicode.To(unicode.UpperCase, r)] over the table [CaseRanges], and a
    rune that it maps to a rune with an encoding of the same length, both
    of them [plain]. *)
Definition upper (CaseRanges : list unicode.CaseRange) (r : Z) : Z :=
  unicode.To CaseRanges unicode.UpperCase r.

(** The length of the encoding of a rune. *)
Definition width (r : Z) : nat := List.length (utf8.AppendRune [] r).

Definition keepsWidth (CaseRanges : list unicode.CaseRange) (r : Z) : Prop :=
  plain r = true /\ plain (upper CaseRanges r) = true
  /\ width (upper CaseRanges r) = width r.

(** How many runes lines 166-205 take from a buffer of [avail] bytes that
    starts with runes of the lengths [sizes], when each is written back
    with its own length and [writerBuf] holds [wl] bytes: they stop at a
    rune that is not whole in the buffer (line 170) or that does not fit
    in the block (line 200). *)
Fixpoint taken (blockSize : Z) (sizes : list nat) (avail : nat) (wl : Z) : nat :=
  match sizes with
  | [] => O
  | s :: sizes' =>
    if (avail <? s)%nat then O
    else if blockSize <? wl + Z.of_nat s then O
    else S (taken blockSize sizes' (avail - s) (wl + Z.of_nat s))
  end.

(** The same for the main cycle with no limit, over its turns: [carry]
    bytes are held in [prevBuffer] and [left] bytes are still to read;
    the runes counted are those taken in some turn, the others are
    flushed at the end. *)
Fixpoint cycleTaken (fuel : nat) (blockSize : Z) (sizes : list nat)
    (carry left : nat) : nat :=
  match fuel with
  | O => O
  | S fuel' =>
    let chunk := Nat.min (Z.to_nat blockSize) left in
    let j := taken blockSize sizes (carry + chunk) 0 in
    if (left =? 0)%nat then j
    else (j + cycleTaken fuel' blockSize (skipn j sizes)
                (carry + chunk - list_sum (firstn j sizes)) (left - chunk))%nat
  end.

(** *** [Validate] and the names of the conversions *)

(** The fields [From] and [To] of [Options]; the empty string stands for
    the standard input or output. *)
Record Files := { From : string; To : string }.

(** What [os.Stat] answers for a path: the size of the file, the error
    for which [os.IsNotExist] holds, or another error. *)
Inductive StatResult := StatSize (size : Z) | StatNotExist | StatOtherErr.

Inductive ValidateError :=
| StatFailed                 (* the error of [os.Stat(o.From)] *)
| OffsetBiggerThanFile       (* "provided offset is bigger then file size" *)
| OutputExists               (* "output ... file already exists" *)
| ConvError (e : Error)      (* the error of [ParseConv] *)
| NegativeOffset.            (* "offset can't be negative" *)

(** [Validate], lines 59-85, over the answers [stat] of the file system;
    [None] is [nil]. *)
Definition Validate (stat : string -> StatResult) (f : Files) (o : Options)
    : option ValidateError :=
  let fromCheck :=
    if negb (String.eqb (From f) "") then
      match stat (From f) with
      | StatSize size =>
        if size <? Offset o then Some OffsetBiggerThanFile else None
      | _ => Some StatFailed
      end
    else None in
  match fromCheck with
  | Some e => Some e
  | None =>
    let toCheck :=
      if negb (String.eqb (To f) "") then
        match stat (To f) with
        | StatNotExist => None
        | _ => Some OutputExists
        end
      else None in
    match toCheck with
    | Some e => Some e
    | None =>
      let convCheck :=
        if negb (String.eqb (Conv o) "") then
          match ParseConv o with
          | inl e => Some (ConvError e)
          | inr _ => None
          end
        else None in
      match convCheck with
      | Some e => Some e
      | None => if Offset o <? 0 then Some NegativeOffset else None
      end
    end
  end.

(** *** Opening the files (lines 109-134)

    What the file system answers: [os.Stat] for a path, [os.Open] (the
    bytes of the file when it can be opened) and [os.OpenFile] with
    [O_WRONLY|O_TRUNC|O_CREATE] (whether the file can be opened). *)
Record FileSystem := {
  Stat : string -> StatResult;
  Open : string -> option (list byte);
  OpenFile : string -> bool
}.

(** [process(opts)] from line 103 on, with the files: the source is the
    file [From], or the standard input, holding [stdin], when [From] is
    empty; the sink is the file [To], or the standard output. An error
    of [ParseConv] comes before any file is opened. *)
Definition processFiles (CaseRanges : list unicode.CaseRange)
    (fs : FileSystem) (stdin : list byte) (f : Files) (opts : Options)
    : option Outcome :=
  match ParseConv opts with
  | inl e => Some {| err := Some e; written := []; unread := [] |}
  | inr parsedConv =>
    let reader :=
      if negb (String.eqb (From f) "") then Open fs (From f) else Some stdin in
    match reader with
    | None =>
      Some {| err := Some (OpenFailed (From f)); written := []; unread := [] |}
    | Some input =>
      if negb (String.eqb (To f) "") && negb (OpenFile fs (To f)) then
        Some {| err := Some (OpenFailed (To f)); written := []; unread := input |}
      else
        processFrom CaseRanges opts parsedConv (S (List.length input)) input
    end
  end.

(** The keys of [ConvMapper]. *)
Definition convName (c : ConvOption) : string :=
  match c with
  | UpperCase => "upper_case"
  | LowerCase => "lower_case"
  | TrimSpaces => "trim_spaces"
  end.

(** The number of case conversions in a list. *)
Definition caseCount (l : list ConvOption) : nat :=
  List.length (List.filter (fun c => ConvOption_eqb c LowerCase
                                     || ConvOption_eqb c UpperCase) l).

(** A string without the separator. *)
Fixpoint noSep (sep : ascii) (s : string) : bool :=
  match s with
  | EmptyString => true
  | String c s' => negb (Ascii.eqb c sep) && noSep sep s'
  end.

End Main.
(** ** [lesson2/homework/tagcloud/specification.go] *)

Module tagcloud.

(** Go's [int] on a 64-bit platform: two's complement wrap-around. *)
Definition int (z : Z) : Z := (z + 2 ^ 63) mod 2 ^ 64 - 2 ^ 63.

Record TagStat := { Tag : string; OccurrenceCount : Z }.

Record TagCloud := { tags : gmap string Z }.

Definition New : TagCloud := {| tags := ∅ |}.

(** [cloud.tags[tag]++]: a missing key reads as zero. *)
Definition AddTag (cloud : TagCloud) (tag : string) : TagCloud :=
  {| tags := <[tag := int (default 0 (tags cloud !! tag) + 1)]> (tags cloud) |}.

(** The comparison function handed to [slices.SortFunc]. *)
Definition byCount (a b : TagStat) : Z :=
  int (OccurrenceCount b - OccurrenceCount a).

Section TopN.

(** The order in which [range] visits a map is not specified. *)
Variable rangeOrder : gmap string Z -> list (string * Z).

(** [slices.SortFunc(x, cmp)]. *)
Variable SortFunc : (TagStat -> TagStat -> Z) -> list TagStat -> list TagStat.

(** [TopN(n)]; [None] is the panic of [tags[:n]] for a negative [n]. *)
Definition TopN (cloud : TagCloud) (n : Z) : option (list TagStat) :=
  let tags :=
    map (fun '(tag, count) => {| Tag := tag; OccurrenceCount := count |})
        (rangeOrder (tags cloud)) in
  let tags := SortFunc byCount tags in
  let n := if len tags <? n then len tags else n in
  if n <? 0 then None else Some (firstn (Z.to_nat n) tags).

End TopN.

(** What the documentation of [slices.SortFunc] promises: the result is a
    rearrangement of the slice and, when [cmp] is a strict weak ordering
    on its elements, no element is less than one before it. *)
Definition less (cmp : TagStat -> TagStat -> Z) (a b : TagStat) : Prop :=
  cmp a b < 0.

Definition strictWeakOn (cmp : TagStat -> TagStat -> Z) (l : list TagStat) : Prop :=
  (forall a, In a l -> ~ less cmp a a)
  /\ (forall a b c, In a l -> In b l -> In c l ->
        less cmp a b -> less cmp b c -> less cmp a c)
  /\ (forall a b c, In a l -> In b l -> In c l ->
        ~ less cmp a b -> ~ less cmp b c -> ~ less cmp a c).

Definition sortContract
    (SortFunc : (TagStat -> TagStat -> Z) -> list TagStat -> list TagStat) : Prop :=
  forall cmp l,
    Permutation (SortFunc cmp l) l
    /\ (strictWeakOn cmp l ->
        StronglySorted (fun a b => ~ less cmp b a) (SortFunc cmp l)).

(** What the language promises of [range] over a map: every entry once. *)
Definition rangeContract (rangeOrder : gmap string Z -> list (string * Z)) : Prop :=
  forall m, Permutation (rangeOrder m) (map_to_list m).

(** An insertion sort, the procedure [slices.SortFunc] itself uses on short
    slices, as one function that meets [sortContract]. *)
Fixpoint insertCmp (cmp : TagStat -> TagStat -> Z) (x : TagStat)
    (l : list TagStat) : list TagStat :=
  match l with
  | [] => [x]
  | y :: l' => if cmp x y <? 0 then x :: y :: l' else y :: insertCmp cmp x l'
  end.

Definition insertionSort (cmp : TagStat -> TagStat -> Z) (l : list TagStat)
    : list TagStat :=
  fold_right (insertCmp cmp) [] l.

(** The cloud after the calls [AddTag(t)] for [t] in [calls], in order. *)
Definition cloudOf (calls : list string) : TagCloud :=
  fold_left AddTag calls New.

(** The number of calls [AddTag(tag)] among [calls]. *)
Definition callsOf (tag : string) (calls : list string) : Z :=
  len (List.filter (fun t => String.eqb t tag) calls).

(** The number of distinct tags among [calls]. *)
Definition distinct (calls : list string) : Z :=
  len (nodup string_dec calls).

(** An entry whose tag was added by [calls] and whose count is the number
    of calls that added it. *)
Definition counted (calls : list string) (s : TagStat) : Prop :=
  In (Tag s) calls /\ OccurrenceCount s = callsOf (Tag s) calls.

(** The slice [tags] of [TopN] before it is sorted. *)
Definition collected (rangeOrder : gmap string Z -> list (string * Z))
    (calls : list string) : list TagStat :=
  map (fun '(tag, count) => {| Tag := tag; OccurrenceCount := count |})
      (rangeOrder (tags (cloudOf calls))).

End tagcloud.

(** * Properties of [process]

    In what follows [T] is the case table, [conv] the parsed conversion
    list and [BS] a block size. *)

Import Main.

(** ** Bytes, lengths and decoding *)

Lemma b2z_range (b : byte) : 0 <= b2z b < 256.
Proof.
  unfold b2z. pose proof (Byte.to_N_bounded b) as H.
  split; [apply N2Z.is_nonneg | ].
  change 256 with (Z.of_N 256). apply N2Z.inj_lt. lia.
Qed.

Lemma z2b_b2z (b : byte) : z2b (b2z b) = b.
Proof.
  unfold z2b. rewrite Z.mod_small by apply b2z_range.
  unfold b2z. rewrite N2Z.id, Byte.of_to_N. reflexivity.
Qed.

Lemma len_nonneg {A} (s : list A) : 0 <= len s.
Proof. unfold len. lia. Qed.

Lemma len_app {A} (s t : list A) : len (s ++ t) = len s + len t.
Proof. unfold len. rewrite List.length_app. lia. Qed.

Lemma DecodeRune_size (p : list byte) :
  p <> [] -> (1 <= snd (utf8.DecodeRune p) <= 4)%nat.
Proof.
  intros Hp. unfold utf8.DecodeRune.
  destruct p as [|b p]; [congruence|].
  replace (len (b :: p) <? 1) with false
    by (symmetry; apply Z.ltb_ge; unfold len; simpl List.length; lia).
  repeat match goal with
  | |- context [if ?c then _ else _] => destruct c
  end; simpl; lia.
Qed.

Section Loop.
Variable T : list unicode.CaseRange.
Variable opts : Options.
Variable conv : list ConvOption.

Lemma SymbolIterate_loop_S fuel buf w e :
  SymbolIterate_loop T opts conv (S fuel) buf w e =
  if 0 <? len buf then
    let '(r, size) := utf8.DecodeRune buf in
    if ((len buf <? 3) && ((Z.of_nat size <=? 0) || (r =? utf8.RuneError)))%bool then
      {| writerBuf := w; buffer := buf; spaceEnded := e; exit := ShortTail |}
    else
      match handleConv T conv r e with
      | (None, e') => SymbolIterate_loop T opts conv fuel (skipn size buf) w e'
      | (Some r', e') =>
        let newWriteBuf :=
          if r' =? utf8.RuneError then [] ++ firstn size buf
          else utf8.AppendRune w r' in
        if BlockSize opts <? uint (len newWriteBuf) then
          {| writerBuf := w; buffer := buf; spaceEnded := e'; exit := BlockFull |}
        else SymbolIterate_loop T opts conv fuel (skipn size buf) newWriteBuf e'
      end
  else {| writerBuf := w; buffer := buf; spaceEnded := e; exit := Consumed |}.
Proof. reflexivity. Qed.

Lemma skipn_decoded_shorter buf r size :
  (0 <? len buf) = true -> utf8.DecodeRune buf = (r, size) ->
  (List.length (skipn size buf) < List.length buf)%nat.
Proof.
  intros Hlen Hd. assert (Hne : buf <> []).
  { intros ->. discriminate. }
  pose proof (DecodeRune_size buf Hne) as Hs. rewrite Hd in Hs. simpl in Hs.
  rewrite List.length_skipn. destruct buf; [congruence|]. simpl List.length. lia.
Qed.

Lemma SymbolIterate_loop_fuel f1 f2 buf w e :
  (List.length buf < f1)%nat -> (List.length buf < f2)%nat ->
  SymbolIterate_loop T opts conv f1 buf w e =
  SymbolIterate_loop T opts conv f2 buf w e.
Proof.
  revert f2 buf w e. induction f1 as [|f1 IH]; intros f2 buf w e H1 H2; [lia|].
  destruct f2 as [|f2]; [lia|]. rewrite !SymbolIterate_loop_S.
  destruct (0 <? len buf) eqn:Hlen; [|reflexivity].
  destruct (utf8.DecodeRune buf) as [r size] eqn:Hd.
  pose proof (skipn_decoded_shorter _ _ _ Hlen Hd) as Hsk.
  destruct ((len buf <? 3) && _); [reflexivity|].
  destruct (handleConv T conv r e) as [[r'|] e']; cbv zeta.
  - destruct (BlockSize opts <? _); [reflexivity|]. apply IH; lia.
  - apply IH; lia.
Qed.
End Loop.

Lemma SymbolIterate_loop_mono T o1 o2 conv fuel buf w e :
  BlockSize o1 <= BlockSize o2 ->
  exit (SymbolIterate_loop T o1 conv fuel buf w e) <> BlockFull ->
  SymbolIterate_loop T o2 conv fuel buf w e =
  SymbolIterate_loop T o1 conv fuel buf w e.
Proof.
  intros Hle. revert buf w e. induction fuel as [|fuel IH]; intros buf w e; [reflexivity|].
  rewrite !SymbolIterate_loop_S.
  destruct (0 <? len buf); [|reflexivity].
  destruct (utf8.DecodeRune buf) as [r size].
  destruct ((len buf <? 3) && _); [reflexivity|].
  destruct (handleConv T conv r e) as [[r'|] e']; cbv zeta; [|apply IH].
  destruct (BlockSize o1 <? _) eqn:H1.
  - simpl. congruence.
  - assert ((BlockSize o2 <? uint (len (if r' =? utf8.RuneError then [] ++ firstn size buf
                                          else utf8.AppendRune w r'))) = false) as ->.
    { apply Z.ltb_ge. apply Z.ltb_ge in H1. lia. }
    apply IH.
Qed.

Lemma iteration_mono T o1 o2 conv chunk endFile st :
  BlockSize o1 <= BlockSize o2 -> Limit o1 = Limit o2 ->
  exit (SymbolIterate T o1 conv (prevBuffer st ++ chunk) (isSpaceEnded st)) <> BlockFull ->
  iteration T o2 conv chunk endFile st = iteration T o1 conv chunk endFile st.
Proof.
  intros Hle Hlim Hex. unfold iteration, SymbolIterate in *.
  rewrite (SymbolIterate_loop_mono T o1 o2) by assumption.
  rewrite Hlim. reflexivity.
Qed.

Lemma alloc_uint n : 1 <= n <= runtime.maxAlloc -> 1 <= n < uint_modulus.
Proof. unfold runtime.maxAlloc, uint_modulus. lia. Qed.

Section Cycle.
Variable T : list unicode.CaseRange.
Variable opts : Options.
Variable conv : list ConvOption.

Lemma mainCycle_S fuel reader st sink :
  mainCycle T opts conv (S fuel) reader st sink =
  if runtime.makeslicePanics (maxReadLength opts st) then
    Some {| err := Some PanicMakeslice; written := sink; unread := reader |}
  else
  let '(chunk, e, reader) := Read reader (maxReadLength opts st) in
  match e with
  | Some OtherReadErr =>
    Some {| err := Some ReadingFailed; written := sink; unread := reader |}
  | _ =>
    let endFile := match e with Some EOF => true | _ => false end in
    let '(w, st', stop) := iteration T opts conv chunk endFile st in
    if stop then Some {| err := None; written := sink ++ w; unread := reader |}
    else mainCycle T opts conv fuel reader st' (sink ++ w)
  end.
Proof. reflexivity. Qed.

(** [make] allocates a buffer of at most [runtime.maxAlloc] bytes. *)
Lemma makeslice_fits n :
  n <= runtime.maxAlloc -> runtime.makeslicePanics n = false.
Proof.
  intros Hn. unfold runtime.makeslicePanics, runtime.maxAlloc in *.
  apply orb_false_iff. split; [apply Z.leb_gt | apply Z.ltb_ge]; lia.
Qed.

Lemma maxReadLength_pos st :
  1 <= BlockSize opts -> 0 <= Limit opts < uint_modulus -> counting opts st ->
  1 <= maxReadLength opts st.
Proof.
  intros HB HL [H0 H1]. unfold maxReadLength.
  destruct ((0 <? Limit opts) && _) eqn:Hc; [|assumption].
  apply andb_prop in Hc as [Hc _]. apply Z.ltb_lt in Hc.
  unfold uint_sub, uint. rewrite Z.mod_small; lia.
Qed.

(** While the counter has not wrapped, the buffer of line 153 is no
    longer than the block, and [make] allocates it. *)
Lemma maxReadLength_fits st :
  0 <= BlockSize opts <= runtime.maxAlloc -> counting opts st ->
  totalReadBytes st < 2 ^ 63 ->
  runtime.makeslicePanics (maxReadLength opts st) = false.
Proof.
  intros HB [H0 H1] H63. apply makeslice_fits. unfold maxReadLength.
  destruct ((0 <? Limit opts) && _)%bool eqn:Hc; [|lia].
  apply andb_prop in Hc as [Hpos Hc]. apply Z.ltb_lt in Hpos, Hc.
  specialize (H1 Hpos).
  unfold uint_add, uint_sub, uint, uint_modulus, runtime.maxAlloc in *.
  rewrite Z.mod_small in Hc by lia. rewrite Z.mod_small; lia.
Qed.

Lemma iteration_counting chunk st w st' :
  iteration T opts conv chunk false st = (w, st', false) -> counting opts st'.
Proof.
  unfold iteration. cbv zeta.
  destruct (false || _)%bool eqn:Hc; [discriminate|].
  intros [= _ <-]. unfold counting; simpl.
  simpl in Hc. split.
  - unfold uint_add, uint. apply Z.mod_pos_bound. reflexivity.
  - intros HL. apply andb_false_iff in Hc as [Hc|Hc].
    + apply Z.ltb_ge in Hc. lia.
    + apply Z.leb_gt in Hc. exact Hc.
Qed.

Lemma Read_cases reader n :
  1 <= n ->
  (reader = [] /\ Read reader n = ([], Some EOF, []))
  \/ (reader <> [] /\
      Read reader n = (firstn (Z.to_nat n) reader, None, skipn (Z.to_nat n) reader)
      /\ (List.length (skipn (Z.to_nat n) reader) < List.length reader)%nat).
Proof.
  intros Hn. unfold Read.
  replace (n <=? 0) with false by (symmetry; apply Z.leb_gt; lia).
  destruct reader as [|b reader]; [left; split; reflexivity|].
  right. split; [discriminate|]. split; [reflexivity|].
  rewrite List.length_skipn. simpl List.length. lia.
Qed.

Lemma mainCycle_returns fuel reader st sink :
  1 <= BlockSize opts -> 0 <= Limit opts < uint_modulus -> counting opts st ->
  (List.length reader < fuel)%nat ->
  exists o, mainCycle T opts conv fuel reader st sink = Some o.
Proof.
  intros HB HL. revert reader st sink.
  induction fuel as [|fuel IH]; intros reader st sink Hst Hf; [lia|].
  rewrite mainCycle_S.
  destruct (runtime.makeslicePanics (maxReadLength opts st)); [eauto|].
  destruct (Read_cases reader (maxReadLength opts st)
              (maxReadLength_pos st HB HL Hst)) as [[-> ->]|[Hne [-> Hlt]]].
  - unfold iteration. cbv zeta. simpl orb. cbv iota. eauto.
  - cbv iota zeta.
    destruct (iteration T opts conv _ false st) as [[w st'] stop] eqn:Hit.
    destruct stop; [eauto|].
    apply IH; [eapply iteration_counting; eassumption | lia].
Qed.
End Cycle.

Lemma initial_counting opts : 0 <= Limit opts -> counting opts initialState.
Proof. intros H. split; simpl; lia. Qed.

Lemma CopyN_Discard_shorter reader n :
  (List.length (snd (CopyN_Discard reader n)) <= List.length reader)%nat.
Proof.
  unfold CopyN_Discard. destruct (n <=? 0); [simpl; lia|].
  destruct (n <=? len reader); simpl; [rewrite List.length_skipn|]; lia.
Qed.

(** [process] ends, whatever the input, when the block size is
    positive: it returns, or panics at line 153. *)
Theorem process_returns T opts input :
  1 <= BlockSize opts -> 0 <= Limit opts < uint_modulus ->
  exists o, process T opts input = Some o.
Proof.
  intros HB HL. unfold process. destruct (ParseConv opts) as [e|conv]; [eauto|].
  unfold processFrom.
  pose proof (CopyN_Discard_shorter input (Offset opts)) as Hs.
  destruct (CopyN_Discard input (Offset opts)) as [[n e] reader].
  destruct e; [eauto|]. simpl in Hs.
  apply mainCycle_returns; try assumption; [apply initial_counting; lia | lia].
Qed.

Lemma SymbolIterate_loop_exit T opts conv fuel buf w e :
  (List.length buf < fuel)%nat ->
  let sy := SymbolIterate_loop T opts conv fuel buf w e in
  (exists consumed, buf = consumed ++ buffer sy)
  /\ match exit sy with
     | Consumed => buffer sy = []
     | ShortTail => 0 < len (buffer sy) < 3
     | BlockFull => buffer sy <> [] /\ refusedHead T opts conv sy
     end.
Proof.
  revert buf w e. induction fuel as [|fuel IH]; intros buf w e Hf; [lia|].
  cbv zeta. rewrite SymbolIterate_loop_S.
  destruct (0 <? len buf) eqn:Hlen.
  2:{ simpl. split; [exists []; reflexivity|].
      destruct buf; [reflexivity|]. apply Z.ltb_ge in Hlen. unfold len in Hlen. simpl List.length in Hlen. lia. }
  destruct (utf8.DecodeRune buf) as [r size] eqn:Hd.
  pose proof (skipn_decoded_shorter _ _ _ Hlen Hd) as Hsk.
  assert (Hcut : forall sy, (exists c, skipn size buf = c ++ buffer sy) ->
                            exists c, buf = c ++ buffer sy).
  { intros sy [c Hc]. exists (firstn size buf ++ c).
    rewrite <- List.app_assoc, <- Hc. symmetry. apply List.firstn_skipn. }
  destruct ((len buf <? 3) && _)%bool eqn:Hshort.
  { simpl. split; [exists []; reflexivity|].
    apply andb_prop in Hshort as [H3 _]. apply Z.ltb_lt in H3. apply Z.ltb_lt in Hlen. lia. }
  destruct (handleConv T conv r e) as [[r'|] e'] eqn:Hh; cbv zeta.
  - destruct (BlockSize opts <? _) eqn:Hfull.
    + simpl. split; [exists []; reflexivity|]. split.
      * intros ->. discriminate.
      * exists r, size, e, r'. simpl. rewrite Hd. repeat split; try assumption.
        apply Z.ltb_lt in Hfull. exact Hfull.
    + destruct (IH (skipn size buf)
                   (if r' =? utf8.RuneError then [] ++ firstn size buf
                    else utf8.AppendRune w r') e') as [Hc Hx]; [lia|].
      split; [apply Hcut, Hc | exact Hx].
  - destruct (IH (skipn size buf) w e') as [Hc Hx]; [lia|].
    split; [apply Hcut, Hc | exact Hx].
Qed.


(** ** The main cycle does not depend on spare fuel *)

Lemma mainCycle_fuel T opts conv f1 f2 reader st sink :
  1 <= BlockSize opts -> 0 <= Limit opts < uint_modulus -> counting opts st ->
  (List.length reader < f1)%nat -> (List.length reader < f2)%nat ->
  mainCycle T opts conv f1 reader st sink = mainCycle T opts conv f2 reader st sink.
Proof.
  intros HB HL. revert f2 reader st sink.
  induction f1 as [|f1 IH]; intros f2 reader st sink Hst H1 H2; [lia|].
  destruct f2 as [|f2]; [lia|]. rewrite !mainCycle_S.
  destruct (runtime.makeslicePanics (maxReadLength opts st)); [reflexivity|].
  destruct (Read_cases reader (maxReadLength opts st)
              (maxReadLength_pos opts st HB HL Hst)) as [[-> ->]|[Hne [-> Hlt]]].
  - unfold iteration. cbv zeta. simpl orb. cbv iota. reflexivity.
  - cbv iota zeta.
    destruct (iteration T opts conv _ false st) as [[w st'] stop] eqn:Hit.
    destruct stop; [reflexivity|].
    apply IH; [eapply iteration_counting; eassumption | lia | lia].
Qed.

(** ** The offset *)

(** Whatever ends the main cycle, what it leaves unread is the end of
    what it was given to read, and the error to discard the offset is
    not among its errors. *)
Lemma mainCycle_unread T opts conv fuel reader st sink o :
  mainCycle T opts conv fuel reader st sink = Some o ->
  err o <> Some ApplyOffsetFailed
  /\ exists consumed, reader = consumed ++ unread o.
Proof.
  revert reader st sink. induction fuel as [|fuel IH]; intros reader st sink Hrun;
    [discriminate|].
  rewrite mainCycle_S in Hrun.
  destruct (runtime.makeslicePanics (maxReadLength opts st)).
  { injection Hrun as <-. simpl. split; [discriminate|exists []; reflexivity]. }
  assert (Hsplit : reader = fst (fst (Read reader (maxReadLength opts st)))
                            ++ snd (Read reader (maxReadLength opts st))).
  { unfold Read. destruct (maxReadLength opts st <=? 0); [reflexivity|].
    destruct reader; [reflexivity|]. symmetry. apply List.firstn_skipn. }
  destruct (Read reader (maxReadLength opts st)) as [[chunk e] reader'].
  simpl in Hsplit.
  assert (Hturn : forall endFile,
            match iteration T opts conv chunk endFile st with
            | (w, st', true) =>
              Some {| err := None; written := sink ++ w; unread := reader' |}
            | (w, st', false) => mainCycle T opts conv fuel reader' st' (sink ++ w)
            end = Some o ->
            err o <> Some ApplyOffsetFailed
            /\ exists consumed, reader = consumed ++ unread o).
  { intros endFile Hrun'.
    destruct (iteration T opts conv chunk endFile st) as [[w st'] stop].
    destruct stop.
    - injection Hrun' as <-. simpl. split; [discriminate|exists chunk; exact Hsplit].
    - destruct (IH _ _ _ Hrun') as [Herr [consumed Hc]]. split; [exact Herr|].
      exists (chunk ++ consumed). rewrite <- List.app_assoc, <- Hc. exact Hsplit. }
  destruct e as [[|]|]; [apply (Hturn true Hrun) | | apply (Hturn false Hrun)].
  injection Hrun as <-. simpl. split; [discriminate|exists chunk; exact Hsplit].
Qed.

(** C5. [process] first discards exactly [Offset] bytes of the source.
    When the source holds fewer than [Offset] bytes, [process] fails with
    the offset error and nothing is written. Otherwise the run goes on
    as the main cycle on the source without its first [Offset] bytes,
    with nothing written yet: its outcome is that of [process] with no
    offset on these bytes, it does not end with the offset error, and
    what it leaves unread is the end of these bytes. *)
Theorem offset_discarded_or_fatal T opts conv input :
  ParseConv opts = inr conv ->
  1 <= BlockSize opts -> 0 <= Limit opts < uint_modulus ->
  (len input < Offset opts ->
   process T opts input =
   Some {| err := Some ApplyOffsetFailed; written := []; unread := [] |})
  /\ (0 <= Offset opts <= len input ->
      let rest := skipn (Z.to_nat (Offset opts)) input in
      process T opts input = process T (withOffset opts 0) rest
      /\ process T opts input
         = mainCycle T opts conv (S (List.length rest)) rest initialState []
      /\ exists o consumed,
           process T opts input = Some o
           /\ err o <> Some ApplyOffsetFailed
           /\ rest = consumed ++ unread o).
Proof.
  intros Hconv HB HL.
  assert (Hconv' : ParseConv (withOffset opts 0) = inr conv) by exact Hconv.
  split; intros Hoff.
  - unfold process. rewrite Hconv. unfold processFrom, CopyN_Discard.
    replace (Offset opts <=? 0) with false
      by (symmetry; apply Z.leb_gt; pose proof (len_nonneg input); lia).
    replace (Offset opts <=? len input) with false
      by (symmetry; apply Z.leb_gt; lia).
    reflexivity.
  - cbv zeta.
    assert (Hsame : forall f reader st sink,
              mainCycle T (withOffset opts 0) conv f reader st sink
              = mainCycle T opts conv f reader st sink).
    { induction f as [|f IH]; intros; [reflexivity|].
      rewrite !mainCycle_S.
      change (maxReadLength (withOffset opts 0) st) with (maxReadLength opts st).
      destruct (runtime.makeslicePanics (maxReadLength opts st)); [reflexivity|].
      destruct (Read reader (maxReadLength opts st)) as [[chunk e] reader'].
      change (iteration T (withOffset opts 0) conv) with (iteration T opts conv).
      destruct e as [[|]|]; try reflexivity;
        destruct (iteration T opts conv chunk _ st) as [[w st'] stop];
        destruct stop; try reflexivity; apply IH. }
    assert (Hlen : (List.length (skipn (Z.to_nat (Offset opts)) input)
                    <= List.length input)%nat)
      by (rewrite List.length_skipn; lia).
    assert (Hrun : process T opts input
                   = mainCycle T opts conv
                       (S (List.length (skipn (Z.to_nat (Offset opts)) input)))
                       (skipn (Z.to_nat (Offset opts)) input) initialState []).
    { unfold process. rewrite Hconv. unfold processFrom, CopyN_Discard.
      destruct (Offset opts <=? 0) eqn:H0.
      - apply Z.leb_le in H0. assert (Offset opts = 0) as -> by lia. reflexivity.
      - replace (Offset opts <=? len input) with true
          by (symmetry; apply Z.leb_le; lia).
        cbv iota. apply mainCycle_fuel; try assumption.
        + apply initial_counting; lia.
        + lia.
        + lia. }
    split; [|split].
    + rewrite Hrun. unfold process at 1. rewrite Hconv'.
      unfold processFrom. simpl Offset.
      change (CopyN_Discard ?r 0) with (0, @None ReadErr, r).
      cbv iota. symmetry. apply Hsame.
    + exact Hrun.
    + destruct (mainCycle_returns T opts conv
                  (S (List.length (skipn (Z.to_nat (Offset opts)) input)))
                  (skipn (Z.to_nat (Offset opts)) input) initialState []
                  HB HL (initial_counting opts ltac:(lia)) ltac:(lia)) as [o Ho].
      destruct (mainCycle_unread _ _ _ _ _ _ _ _ Ho) as [Herr [consumed Hc]].
      exists o, consumed. rewrite Hrun. auto.
Qed.

Lemma offset_discarded_or_fatal_witness :
  process unicode.CaseRanges_head
    {| Offset := 10; Limit := 0; BlockSize := 4; Conv := "" |} (bs "abcde")
  = Some {| err := Some ApplyOffsetFailed; written := []; unread := [] |}
  /\ process unicode.CaseRanges_head
       {| Offset := 2; Limit := 0; BlockSize := 4; Conv := "" |} (bs "abcde")
     = mainCycle unicode.CaseRanges_head
         {| Offset := 2; Limit := 0; BlockSize := 4; Conv := "" |} []
         4 (bs "cde") initialState [].
Proof.
  split.
  - refine (proj1 (offset_discarded_or_fatal unicode.CaseRanges_head
              {| Offset := 10; Limit := 0; BlockSize := 4; Conv := "" |}
              [] (bs "abcde") _ _ _) _).
    + reflexivity.
    + simpl; lia.
    + simpl; unfold uint_modulus; lia.
    + vm_compute; reflexivity.
  - refine (proj1 (proj2 (proj2 (offset_discarded_or_fatal unicode.CaseRanges_head
              {| Offset := 2; Limit := 0; BlockSize := 4; Conv := "" |}
              [] (bs "abcde") _ _ _) _))).
    + reflexivity.
    + simpl; lia.
    + simpl; unfold uint_modulus; lia.
    + vm_compute. split; discriminate.
Defined.

(** ** Runs on given inputs *)


(** C6. For the input "0123456789" with offset 3 and limit 4, no
    conversion and any block size from 1 up, [process] writes exactly
    "3456" and leaves "789" unread: it reads no more than 4 bytes after the
    offset. *)
Theorem offset_limit_window T BS :
  1 <= BS < uint_modulus ->
  process T {| Offset := 3; Limit := 4; BlockSize := BS; Conv := "" |}
          (bs "0123456789")
  = Some {| err := None; written := bs "3456"; unread := bs "789" |}.
Proof.
  intros HB. destruct (Z.ltb_spec BS 4) as [Hlt|Hge].
  - assert (BS = 1 \/ BS = 2 \/ BS = 3) as [->|[->| ->]] by lia;
      vm_compute; reflexivity.
  - unfold process. change (ParseConv _) with (@inr Error (list ConvOption) []).
    cbv iota. unfold processFrom.
    change (CopyN_Discard _ _) with (3, @None ReadErr, bs "3456789").
    cbv iota zeta. rewrite mainCycle_S.
    assert (maxReadLength {| Offset := 3; Limit := 4; BlockSize := BS; Conv := "" |}
              initialState = 4) as ->.
    { unfold maxReadLength, uint_add, uint_sub, uint. simpl.
      rewrite Z.mod_small by lia. rewrite Z.add_0_l.
      destruct (Z.ltb_spec 4 BS); [reflexivity | lia]. }
    change (runtime.makeslicePanics 4) with false. cbv iota.
    change (Read (bs "3456789") 4) with (bs "3456", @None ReadErr, bs "789").
    cbv iota zeta.
    rewrite (iteration_mono T {| Offset := 3; Limit := 4; BlockSize := 4; Conv := "" |});
      [ | simpl; lia | reflexivity | vm_compute; discriminate ].
    vm_compute. reflexivity.
Qed.

Lemma offset_limit_window_witness :
  process unicode.CaseRanges_head
    {| Offset := 3; Limit := 4; BlockSize := 1000; Conv := "" |}
    (bs "0123456789")
  = Some {| err := None; written := bs "3456"; unread := bs "789" |}.
Proof.
  apply (offset_limit_window unicode.CaseRanges_head 1000).
  unfold uint_modulus; lia.
Defined.



(** A block that [make] refuses: the run panics at line 153, before it
    reads, or in a later turn when [totalReadBytes + BlockSize] wraps
    around and the limit no longer shortens the buffer. *)
Example huge_block_panics T :
  process T {| Offset := 0; Limit := 0; BlockSize := 2 ^ 63;
               Conv := "trim_spaces" |} (bs "  hi  there ")
  = Some {| err := Some PanicMakeslice; written := [];
            unread := bs "  hi  there " |}
  /\ process T {| Offset := 0; Limit := 5; BlockSize := 2 ^ 64 - 1; Conv := "" |}
       (bs "abc")
     = Some {| err := Some PanicMakeslice; written := bs "abc"; unread := [] |}.
Proof. split; vm_compute; reflexivity. Qed.


(** ** The branch of line 195 *)

(** C1 (the code departs from it). With no conversion, no offset and no
    limit the output should equal the input. On the input "ab" followed by
    the four bytes of U+1F600, read in one block of 5 bytes, the cycle sees
    three of the four bytes, takes the first for an invalid byte, and the
    branch of line 195 starts [newWriteBuf] afresh: "ab" is lost and only
    the four bytes of U+1F600 are written. *)
Theorem identity_loses_accepted_bytes T :
  process T {| Offset := 0; Limit := 0; BlockSize := 5; Conv := "" |}
          (bs "ab" ++ [xf0; x9f; x98; x80])
  = Some {| err := None; written := [xf0; x9f; x98; x80]; unread := [] |}.
Proof. vm_compute. reflexivity. Qed.

(** The same loss on an input that is valid UTF-8 and read whole: the
    rune U+FFFD itself takes the branch of line 195. *)
Example identity_loses_bytes_before_UFFFD T :
  process T {| Offset := 0; Limit := 0; BlockSize := 1000; Conv := "" |}
          (bs "a" ++ [xef; xbf; xbd])
  = Some {| err := None; written := [xef; xbf; xbd]; unread := [] |}.
Proof. vm_compute. reflexivity. Qed.

(** C2 (the code departs from it). An invalid byte is written as it is,
    but the bytes accepted before it in the same turn are dropped: on
    "ab", the byte 0xFF, "cd" in one block, "ab" is not written. *)
Theorem invalid_byte_discards_writerBuf T :
  process T {| Offset := 0; Limit := 0; BlockSize := 10; Conv := "" |}
          (bs "ab" ++ [xff] ++ bs "cd")
  = Some {| err := None; written := [xff] ++ bs "cd"; unread := [] |}.
Proof. vm_compute. reflexivity. Qed.

(** One turn of [SymbolIterate] at an invalid byte: [writerBuf] becomes
    that byte alone, whatever it held. *)
Lemma SymbolIterate_invalid_byte T opts w b1 b2 rest :
  1 <= BlockSize opts ->
  let buf := xff :: b1 :: b2 :: rest in
  SymbolIterate_loop T opts [] (S (S (List.length buf))) buf w false
  = SymbolIterate_loop T opts [] (S (List.length buf)) (skipn 1 buf) [xff] false.
Proof.
  intros HB buf. rewrite SymbolIterate_loop_S.
  assert (Hd : utf8.DecodeRune buf = (utf8.RuneError, 1%nat)).
  { unfold utf8.DecodeRune, buf, len. simpl List.length.
    replace (Z.of_nat (S (S (S (List.length rest)))) <? 1) with false
      by (symmetry; apply Z.ltb_ge; lia).
    reflexivity. }
  rewrite Hd.
  replace (0 <? len buf) with true
    by (symmetry; apply Z.ltb_lt; unfold buf, len; simpl List.length; lia).
  replace (len buf <? 3) with false
    by (symmetry; apply Z.ltb_ge; unfold buf, len; simpl List.length; lia).
  cbv iota. simpl andb. cbv iota. simpl handleConv. cbv iota zeta.
  change (utf8.RuneError =? utf8.RuneError) with true. cbv iota.
  change (uint (len ([] ++ firstn 1 buf))) with 1.
  replace (BlockSize opts <? 1) with false by (symmetry; apply Z.ltb_ge; lia).
  reflexivity.
Qed.

(** ** What is carried from one turn to the next *)

(** However the loop [SymbolIterate] is left, fewer than 3 bytes stay
    in [buffer], unless it is left by the [break] of line 201. *)
Lemma SymbolIterate_left T opts conv buf e :
  let sy := SymbolIterate T opts conv buf e in
  len (buffer sy) < 3
  \/ (exit sy = BlockFull /\ buffer sy <> [] /\ refusedHead T opts conv sy).
Proof.
  cbv zeta. unfold SymbolIterate.
  destruct (SymbolIterate_loop_exit T opts conv (S (List.length buf)) buf [] e)
    as [_ Hx]; [lia|].
  destruct (exit _) eqn:He.
  - left. rewrite Hx. reflexivity.
  - left. lia.
  - right. destruct Hx as [Hne Hr]. auto.
Qed.

Lemma iteration_carry T opts conv chunk endFile st :
  prevBuffer (snd (fst (iteration T opts conv chunk endFile st)))
  = buffer (SymbolIterate T opts conv (prevBuffer st ++ chunk) (isSpaceEnded st)).
Proof.
  unfold iteration. cbv zeta. destruct (endFile || _)%bool; reflexivity.
Qed.

(** C4, as the code has it. The bytes carried to the next turn are those
    left in [buffer] by the loop [SymbolIterate] of the turn, and after
    every turn they are fewer than 3, unless this loop was left by the
    [break] of line 201: then they start with the rune that was refused
    because with it the block would have grown beyond [BlockSize]. *)
Theorem carry_short_unless_refused T opts conv fuel reader st :
  carries T opts conv fuel reader st
  = map buffer (turns T opts conv fuel reader st)
  /\ Forall (fun sy => len (buffer sy) < 3
                       \/ (exit sy = BlockFull /\ buffer sy <> []
                           /\ refusedHead T opts conv sy))
            (turns T opts conv fuel reader st).
Proof.
  revert reader st. induction fuel as [|fuel IH]; intros reader st;
    [split; [reflexivity|constructor]|].
  simpl carries. simpl turns.
  destruct (runtime.makeslicePanics (maxReadLength opts st));
    [split; [reflexivity|constructor]|].
  destruct (Read reader (maxReadLength opts st)) as [[chunk e] reader'].
  assert (Hgo : forall endFile,
    (let '(_, st', stop) := iteration T opts conv chunk endFile st in
     prevBuffer st' :: (if stop then [] else carries T opts conv fuel reader' st'))
    = map buffer
        (let '(_, st', stop) := iteration T opts conv chunk endFile st in
         SymbolIterate T opts conv (prevBuffer st ++ chunk) (isSpaceEnded st)
         :: (if stop then [] else turns T opts conv fuel reader' st'))
    /\ Forall (fun sy => len (buffer sy) < 3
                         \/ (exit sy = BlockFull /\ buffer sy <> []
                             /\ refusedHead T opts conv sy))
         (let '(_, st', stop) := iteration T opts conv chunk endFile st in
          SymbolIterate T opts conv (prevBuffer st ++ chunk) (isSpaceEnded st)
          :: (if stop then [] else turns T opts conv fuel reader' st'))).
  { intros endFile.
    pose proof (iteration_carry T opts conv chunk endFile st) as Hp.
    destruct (iteration T opts conv chunk endFile st) as [[w st'] stop].
    simpl in Hp. destruct (IH reader' st') as [IHc IHt]. split.
    - simpl. rewrite Hp. f_equal. destruct stop; [reflexivity|exact IHc].
    - constructor; [apply SymbolIterate_left|].
      destruct stop; [constructor|exact IHt]. }
  destruct e as [[|]|]; [apply Hgo | split; [reflexivity|constructor] | apply Hgo].
Qed.

(** C4 as stated fails: with blocks of 4 bytes and seven runes of 3 bytes
    (U+20AC), the carry grows to 5 bytes, a whole rune and more, longer
    than both the longest encoding and the block. *)
Lemma carry_exceeds_code_point :
  let euro := [xe2; x82; xac] in
  let input := euro ++ euro ++ euro ++ euro ++ euro ++ euro ++ euro in
  let opts := {| Offset := 0; Limit := 0; BlockSize := 4; Conv := "" |} in
  nth 4 (carries unicode.CaseRanges_head opts [] 22 input initialState) []
    = euro ++ [xe2; x82]
  /\ ~ Forall (fun carry => len carry < utf8.UTFMax)
              (carries unicode.CaseRanges_head opts [] 22 input initialState).
Proof.
  cbv zeta. split; [vm_compute; reflexivity|].
  intros H. rewrite List.Forall_forall in H.
  specialize (H [xe2; x82; xac; xe2; x82]).
  assert (Hin : In [xe2; x82; xac; xe2; x82]
                  (carries unicode.CaseRanges_head
                     {| Offset := 0; Limit := 0; BlockSize := 4; Conv := "" |} [] 22
                     ([xe2; x82; xac] ++ [xe2; x82; xac] ++ [xe2; x82; xac] ++
                      [xe2; x82; xac] ++ [xe2; x82; xac] ++ [xe2; x82; xac] ++
                      [xe2; x82; xac]) initialState)).
  { vm_compute. tauto. }
  specialize (H Hin). vm_compute in H. discriminate.
Qed.

(** ** The last turn *)

(** C9. In a turn where the reader has signalled the end of the input and
    [SymbolIterate] left because the block was full, the bytes of the
    buffer not consumed, a suffix of it that starts with the refused rune,
    are written as they are right after the block. *)
Theorem unconsumed_flushed_verbatim T opts conv chunk st :
  let sy := SymbolIterate T opts conv (prevBuffer st ++ chunk) (isSpaceEnded st) in
  let block := if spaceEnded sy
               then bytes.TrimRightFunc (writerBuf sy) unicode.IsSpace
               else writerBuf sy in
  exit sy = BlockFull ->
  (exists consumed, prevBuffer st ++ chunk = consumed ++ buffer sy)
  /\ buffer sy <> []
  /\ refusedHead T opts conv sy
  /\ fst (fst (iteration T opts conv chunk true st)) = block ++ buffer sy
  /\ snd (iteration T opts conv chunk true st) = true.
Proof.
  cbv zeta. intros Hx. unfold SymbolIterate in *.
  destruct (SymbolIterate_loop_exit T opts conv
              (S (List.length (prevBuffer st ++ chunk)))
              (prevBuffer st ++ chunk) [] (isSpaceEnded st)) as [Hc Hm]; [lia|].
  rewrite Hx in Hm. destruct Hm as [Hne Hr].
  repeat split; try assumption.
Qed.

Lemma unconsumed_flushed_verbatim_witness :
  fst (fst (iteration unicode.CaseRanges_head
              {| Offset := 0; Limit := 0; BlockSize := 3; Conv := "upper_case" |}
              [UpperCase] [] true
              {| prevBuffer := [xc3; xa9; xc3; xa9]; isSpaceEnded := false;
                 totalReadBytes := 12 |}))
  = [xc3; x89] ++ [xc3; xa9].
Proof.
  refine (proj1 (proj2 (proj2 (proj2
    (unconsumed_flushed_verbatim unicode.CaseRanges_head
       {| Offset := 0; Limit := 0; BlockSize := 3; Conv := "upper_case" |}
       [UpperCase] []
       {| prevBuffer := [xc3; xa9; xc3; xa9]; isSpaceEnded := false;
          totalReadBytes := 12 |} _))))).
  vm_compute. reflexivity.
Defined.

(** The same at the level of [process]: six runes U+00E9 in blocks of 3
    bytes with [upper_case]; the carry grows, and in the last turn the
    sixth rune does not fit after the fifth and is written in lower
    case. *)
Example last_rune_flushed_unconverted :
  let e := [xc3; xa9] in
  let E := [xc3; x89] in
  process unicode.CaseRanges_head
    {| Offset := 0; Limit := 0; BlockSize := 3; Conv := "upper_case" |}
    (e ++ e ++ e ++ e ++ e ++ e)
  = Some {| err := None; written := E ++ E ++ E ++ E ++ E ++ e; unread := [] |}.
Proof. vm_compute. reflexivity. Qed.

(** ** Inputs of one-byte runes *)

Lemma DecodeRune_ascii b rest :
  b2z b < utf8.RuneSelf -> utf8.DecodeRune (b :: rest) = (b2z b, 1%nat).
Proof.
  intros Hb. pose proof (b2z_range b) as Hr. unfold utf8.DecodeRune.
  replace (len (b :: rest) <? 1) with false
    by (symmetry; apply Z.ltb_ge; unfold len; simpl List.length; lia).
  change (utf8.at_ (b :: rest) 0) with (b2z b).
  unfold utf8.first. unfold utf8.RuneSelf in Hb.
  replace (b2z b <? 128) with true by (symmetry; apply Z.ltb_lt; lia).
  change (utf8.as_ <=? utf8.as_) with true. cbv iota zeta.
  change (Z.shiftr (int32 (Z.shiftl utf8.as_ 31)) 31) with 0.
  change (Z.lnot 0) with (-1).
  rewrite Z.land_m1_r, Z.land_0_r, Z.lor_0_r. reflexivity.
Qed.

Lemma AppendRune_ascii w r :
  0 <= r < utf8.RuneSelf -> utf8.AppendRune w r = w ++ [z2b r].
Proof.
  intros Hr. unfold utf8.AppendRune, uint32, utf8.RuneSelf in *.
  rewrite Z.mod_small by lia.
  replace (r <=? utf8.rune1Max) with true
    by (symmetry; apply Z.leb_le; unfold utf8.rune1Max; lia).
  reflexivity.
Qed.

Lemma b2z_z2b r : 0 <= r < 256 -> b2z (z2b r) = r.
Proof.
  intros Hr. unfold z2b, b2z. rewrite Z.mod_small by lia.
  destruct (Byte.of_N (Z.to_N r)) as [b|] eqn:Hb.
  - apply Byte.to_of_N in Hb. rewrite Hb. lia.
  - apply Byte.of_N_None_iff in Hb. lia.
Qed.

Section ASCII.
Variable T : list unicode.CaseRange.
Hypothesis HT : caseKeepsASCII T.
Variable conv : list ConvOption.

(** A one-byte rune comes out of the conversions as a one-byte rune, and a
    rune that is not a space as a rune that is not a space, with
    [isSpaceEnded] set when [trim_spaces] is asked for. *)
Lemma handleConv_ascii convs r e :
  0 <= r < utf8.RuneSelf ->
  match handleConv T convs r e with
  | (Some r', e') =>
    0 <= r' < utf8.RuneSelf /\ unicode.IsSpace r' = unicode.IsSpace r
    /\ (e = true -> e' = true)
  | (None, e') => unicode.IsSpace r = true /\ e' = e
  end.
Proof using HT.
  revert r e. induction convs as [|c convs IH]; intros r e Hr; simpl.
  - auto.
  - destruct c; simpl.
    + destruct (HT unicode.UpperCase r (or_introl eq_refl) Hr) as [Hu Hs].
      specialize (IH (unicode.To T unicode.UpperCase r) e Hu).
      destruct (handleConv T convs _ e) as [[r'|] e']; rewrite <- Hs; exact IH.
    + destruct (HT unicode.LowerCase r (or_intror eq_refl) Hr) as [Hu Hs].
      specialize (IH (unicode.To T unicode.LowerCase r) e Hu).
      destruct (handleConv T convs _ e) as [[r'|] e']; rewrite <- Hs; exact IH.
    + destruct (unicode.IsSpace r) eqn:Hsp.
      * destruct e; simpl; [|auto].
        specialize (IH r true Hr). rewrite Hsp in IH. exact IH.
      * specialize (IH r true Hr). rewrite Hsp in IH.
        destruct (handleConv T convs r true) as [[r'|] e'].
        -- destruct IH as (? & ? & He). repeat split; try assumption; try lia.
           intros _. apply He. reflexivity.
        -- destruct IH as [IH _]. congruence.
Qed.

Lemma convertASCII_app e a b :
  convertASCII T conv e (a ++ b) =
  let '(o1, e1) := convertASCII T conv e a in
  let '(o2, e2) := convertASCII T conv e1 b in
  (o1 ++ o2, e2).
Proof.
  revert e. induction a as [|x a IH]; intros e; simpl.
  - destruct (convertASCII T conv e b); reflexivity.
  - destruct (handleConv T conv (b2z x) e) as [[r|] e0].
    + rewrite IH. destruct (convertASCII T conv e0 a) as [o1 e1].
      destruct (convertASCII T conv e1 b) as [o2 e2]. reflexivity.
    + apply IH.
Qed.

Lemma convertASCII_isASCII e buf :
  isASCII buf -> isASCII (fst (convertASCII T conv e buf)).
Proof using HT.
  intros Hb. revert e. induction Hb as [|b buf Hb _ IH]; intros e; simpl.
  - constructor.
  - pose proof (handleConv_ascii conv (b2z b) e
                  (conj (proj1 (b2z_range b)) Hb)) as Hh.
    destruct (handleConv T conv (b2z b) e) as [[r|] e0]; [|apply IH].
    specialize (IH e0). destruct (convertASCII T conv e0 buf) as [out e1].
    simpl in *. constructor; [|exact IH].
    destruct Hh as [Hr _]. unfold utf8.RuneSelf in *.
    rewrite b2z_z2b by lia. lia.
Qed.

(** A byte that is not a space is kept, and a kept byte that is not a
    space stays one. *)
Lemma convertASCII_nonspace e b :
  b2z b < utf8.RuneSelf -> unicode.IsSpace (b2z b) = false ->
  exists b' e',
    convertASCII T conv e [b] = ([b'], e')
    /\ b2z b' < utf8.RuneSelf /\ unicode.IsSpace (b2z b') = false.
Proof using HT.
  intros Hb Hs. simpl.
  pose proof (handleConv_ascii conv (b2z b) e
                (conj (proj1 (b2z_range b)) Hb)) as Hh.
  destruct (handleConv T conv (b2z b) e) as [[r|] e0].
  - destruct Hh as (Hr & Hsp & _). exists (z2b r), e0.
    unfold utf8.RuneSelf in *. rewrite b2z_z2b by lia.
    repeat split; [lia | congruence].
  - destruct Hh as [Hh _]. congruence.
Qed.

(** On a buffer of one-byte runes that fits in the block with what
    [writerBuf] holds, [SymbolIterate] consumes everything. *)
Lemma SymbolIterate_loop_ascii opts fuel buf w e :
  isASCII buf -> (List.length buf < fuel)%nat ->
  len w + len buf <= BlockSize opts -> BlockSize opts < uint_modulus ->
  SymbolIterate_loop T opts conv fuel buf w e =
  {| writerBuf := w ++ fst (convertASCII T conv e buf); buffer := [];
     spaceEnded := snd (convertASCII T conv e buf); exit := Consumed |}.
Proof using HT.
  intros Hb. revert fuel w e.
  induction Hb as [|b buf Hb Hbuf IH]; intros fuel w e Hf Hlen HB.
  - destruct fuel; [simpl in Hf; lia|]. rewrite SymbolIterate_loop_S.
    simpl. rewrite List.app_nil_r. reflexivity.
  - destruct fuel; [lia|]. rewrite SymbolIterate_loop_S.
    replace (0 <? len (b :: buf)) with true
      by (symmetry; apply Z.ltb_lt; unfold len; simpl List.length; lia).
    rewrite (DecodeRune_ascii b buf Hb).
    pose proof (b2z_range b) as Hrange.
    replace (b2z b =? utf8.RuneError) with false
      by (symmetry; apply Z.eqb_neq; unfold utf8.RuneError; lia).
    change (Z.of_nat 1 <=? 0) with false. rewrite andb_false_r.
    pose proof (handleConv_ascii conv (b2z b) e (conj (proj1 Hrange) Hb)) as Hh.
    simpl convertASCII. simpl skipn. simpl List.length in Hf.
    assert (Hl : len (b :: buf) = 1 + len buf)
      by (unfold len; simpl List.length; lia).
    rewrite Hl in Hlen.
    destruct (handleConv T conv (b2z b) e) as [[r|] e0].
    + destruct Hh as (Hr & _ & _). cbv zeta.
      replace (r =? utf8.RuneError) with false
        by (symmetry; apply Z.eqb_neq; unfold utf8.RuneError, utf8.RuneSelf in *; lia).
      rewrite AppendRune_ascii by assumption.
      assert (Hw : len (w ++ [z2b r]) = len w + 1)
        by (rewrite len_app; reflexivity).
      pose proof (len_nonneg w). pose proof (len_nonneg buf).
      unfold uint. rewrite Z.mod_small by lia.
      replace (BlockSize opts <? len (w ++ [z2b r])) with false
        by (symmetry; apply Z.ltb_ge; lia).
      rewrite IH by lia.
      destruct (convertASCII T conv e0 buf) as [out e1]. simpl.
      rewrite <- List.app_assoc. reflexivity.
    + rewrite IH by lia. reflexivity.
Qed.
End ASCII.

(** ** [bytes.TrimRightFunc] on one-byte runes *)

Lemma at_app_l (s t : list byte) i :
  (i < List.length s)%nat -> utf8.at_ (s ++ t) i = utf8.at_ s i.
Proof. intros Hi. unfold utf8.at_. rewrite List.app_nth1 by exact Hi. reflexivity. Qed.

Lemma at_isASCII s i :
  isASCII s -> (i < List.length s)%nat -> utf8.at_ s i < utf8.RuneSelf.
Proof.
  intros Hs Hi. unfold utf8.at_, isASCII in *.
  rewrite List.Forall_forall in Hs. apply Hs. apply List.nth_In. exact Hi.
Qed.

Lemma lastIndexFunc_loop_S fuel s f truth i :
  bytes.lastIndexFunc_loop (S fuel) s f truth i =
  (if 0 <? i then
     let r0 := utf8.at_ s (Z.to_nat (i - 1)) in
     let '(r, size) :=
       if utf8.RuneSelf <=? r0 then utf8.DecodeLastRune (firstn (Z.to_nat i) s)
       else (r0, 1%nat) in
     let i := i - Z.of_nat size in
     if Bool.eqb (f r) truth then i
     else bytes.lastIndexFunc_loop fuel s f truth i
   else -1).
Proof. reflexivity. Qed.

Lemma lastIndexFunc_loop_ascii fuel s f truth i :
  isASCII s -> 0 < i <= len s ->
  bytes.lastIndexFunc_loop (S fuel) s f truth i =
  (if Bool.eqb (f (utf8.at_ s (Z.to_nat (i - 1)))) truth then i - 1
   else bytes.lastIndexFunc_loop fuel s f truth (i - 1)).
Proof.
  intros Hs Hi. rewrite lastIndexFunc_loop_S.
  replace (0 <? i) with true by (symmetry; apply Z.ltb_lt; lia).
  cbv zeta.
  assert (Ha : utf8.at_ s (Z.to_nat (i - 1)) < utf8.RuneSelf).
  { apply at_isASCII; [exact Hs|]. unfold len in Hi. lia. }
  replace (utf8.RuneSelf <=? utf8.at_ s (Z.to_nat (i - 1))) with false
    by (symmetry; apply Z.leb_gt; exact Ha).
  reflexivity.
Qed.

Lemma lastIndexFunc_loop_prefix fuel s t f truth i :
  isASCII s -> 0 <= i <= len s ->
  bytes.lastIndexFunc_loop fuel (s ++ t) f truth i =
  bytes.lastIndexFunc_loop fuel s f truth i.
Proof.
  intros Hs. revert i. induction fuel as [|fuel IH]; intros i Hi; [reflexivity|].
  destruct (Z.eq_dec i 0) as [->|Hne]; [reflexivity|].
  rewrite (lastIndexFunc_loop_ascii fuel s) by (assumption || lia).
  rewrite lastIndexFunc_loop_S.
  replace (0 <? i) with true by (symmetry; apply Z.ltb_lt; lia).
  cbv zeta.
  assert (Hidx : (Z.to_nat (i - 1) < List.length s)%nat) by (unfold len in Hi; lia).
  rewrite at_app_l by exact Hidx.
  replace (utf8.RuneSelf <=? utf8.at_ s (Z.to_nat (i - 1))) with false
    by (symmetry; apply Z.leb_gt; apply at_isASCII; assumption).
  change (Z.of_nat 1) with 1.
  destruct (Bool.eqb _ truth); [reflexivity|]. apply IH. lia.
Qed.

Lemma lastIndexFunc_loop_range fuel s f truth i :
  isASCII s -> 0 <= i <= len s ->
  -1 <= bytes.lastIndexFunc_loop fuel s f truth i < Z.max i 0.
Proof.
  intros Hs. revert i. induction fuel as [|fuel IH]; intros i Hi; [simpl; lia|].
  destruct (Z.eq_dec i 0) as [->|Hne]; [simpl; lia|].
  rewrite lastIndexFunc_loop_ascii by (assumption || lia).
  destruct (Bool.eqb _ truth); [lia|].
  specialize (IH (i - 1)). lia.
Qed.

Lemma lastIndexFunc_loop_fuel f1 f2 s f truth i :
  isASCII s -> 0 <= i <= len s ->
  (Z.to_nat i < f1)%nat -> (Z.to_nat i < f2)%nat ->
  bytes.lastIndexFunc_loop f1 s f truth i = bytes.lastIndexFunc_loop f2 s f truth i.
Proof.
  intros Hs. revert f2 i. induction f1 as [|f1 IH]; intros f2 i Hi H1 H2; [lia|].
  destruct f2 as [|f2]; [lia|].
  destruct (Z.eq_dec i 0) as [->|Hne]; [reflexivity|].
  rewrite !lastIndexFunc_loop_ascii by (assumption || lia).
  destruct (Bool.eqb _ truth); [reflexivity|]. apply IH; lia.
Qed.

Lemma isASCII_snoc s b : isASCII (s ++ [b]) -> isASCII s /\ b2z b < utf8.RuneSelf.
Proof.
  unfold isASCII. intros H. apply List.Forall_app in H as [H1 H2].
  split; [exact H1|]. inversion H2; assumption.
Qed.

Lemma at_snoc s b : utf8.at_ (s ++ [b]) (List.length s) = b2z b.
Proof.
  unfold utf8.at_. rewrite List.app_nth2 by lia.
  rewrite Nat.sub_diag. reflexivity.
Qed.

Lemma TrimRightFunc_nil : bytes.TrimRightFunc [] unicode.IsSpace = [].
Proof. reflexivity. Qed.

Lemma to_nat_len {A} (s : list A) : Z.to_nat (len s) = List.length s.
Proof. unfold len. apply Nat2Z.id. Qed.

Lemma lastIndexFunc_snoc_nonspace s b :
  isASCII (s ++ [b]) -> unicode.IsSpace (b2z b) = false ->
  bytes.lastIndexFunc (s ++ [b]) unicode.IsSpace false = len s.
Proof.
  intros Hs Hb. unfold bytes.lastIndexFunc.
  assert (Hl : len (s ++ [b]) = len s + 1) by (rewrite len_app; reflexivity).
  rewrite lastIndexFunc_loop_ascii by (try assumption; pose proof (len_nonneg s); lia).
  rewrite Hl. replace (len s + 1 - 1) with (len s) by lia.
  rewrite to_nat_len, at_snoc, Hb. reflexivity.
Qed.

Lemma lastIndexFunc_snoc_space s b :
  isASCII (s ++ [b]) -> unicode.IsSpace (b2z b) = true ->
  bytes.lastIndexFunc (s ++ [b]) unicode.IsSpace false
  = bytes.lastIndexFunc s unicode.IsSpace false.
Proof.
  intros Hs Hb. destruct (isASCII_snoc s b Hs) as [Hs' Hb'].
  unfold bytes.lastIndexFunc.
  assert (Hl : len (s ++ [b]) = len s + 1) by (rewrite len_app; reflexivity).
  pose proof (len_nonneg s) as Hnn.
  rewrite lastIndexFunc_loop_ascii by (try assumption; lia).
  rewrite Hl. replace (len s + 1 - 1) with (len s) by lia.
  rewrite to_nat_len, at_snoc, Hb. simpl Bool.eqb. cbv iota.
  rewrite lastIndexFunc_loop_prefix by (try assumption; lia).
  apply lastIndexFunc_loop_fuel; try assumption; try lia;
    rewrite ?List.length_app, to_nat_len; simpl; lia.
Qed.

Lemma TrimRightFunc_snoc_nonspace s b :
  isASCII (s ++ [b]) -> unicode.IsSpace (b2z b) = false ->
  bytes.TrimRightFunc (s ++ [b]) unicode.IsSpace = s ++ [b].
Proof.
  intros Hs Hb. destruct (isASCII_snoc s b Hs) as [Hs' Hb'].
  unfold bytes.TrimRightFunc.
  rewrite lastIndexFunc_snoc_nonspace by assumption. cbv zeta.
  rewrite to_nat_len, at_snoc.
  replace (utf8.RuneSelf <=? b2z b) with false by (symmetry; apply Z.leb_gt; exact Hb').
  rewrite andb_false_r. apply List.firstn_all2.
  rewrite List.length_app. simpl. unfold len. lia.
Qed.

Lemma TrimRightFunc_snoc_space s b :
  isASCII (s ++ [b]) -> unicode.IsSpace (b2z b) = true ->
  bytes.TrimRightFunc (s ++ [b]) unicode.IsSpace
  = bytes.TrimRightFunc s unicode.IsSpace.
Proof.
  intros Hs Hb. destruct (isASCII_snoc s b Hs) as [Hs' Hb'].
  unfold bytes.TrimRightFunc.
  rewrite lastIndexFunc_snoc_space by assumption.
  pose proof (len_nonneg s) as Hnn.
  pose proof (lastIndexFunc_loop_range (S (List.length s)) s unicode.IsSpace false
                (len s) Hs' ltac:(lia)) as Hr.
  fold (bytes.lastIndexFunc s unicode.IsSpace false) in Hr.
  set (j := bytes.lastIndexFunc s unicode.IsSpace false) in *.
  cbv zeta.
  assert (Hsame : (if (0 <=? j) && (utf8.RuneSelf <=? utf8.at_ (s ++ [b]) (Z.to_nat j))
                   then j + Z.of_nat (snd (utf8.DecodeRune (skipn (Z.to_nat j) (s ++ [b]))))
                   else j + 1) = j + 1
                  /\ (if (0 <=? j) && (utf8.RuneSelf <=? utf8.at_ s (Z.to_nat j))
                      then j + Z.of_nat (snd (utf8.DecodeRune (skipn (Z.to_nat j) s)))
                      else j + 1) = j + 1).
  { destruct (Z.leb_spec 0 j) as [Hj|Hj]; [|split; reflexivity].
    assert (Hidx : (Z.to_nat j < List.length s)%nat) by (unfold len in *; lia).
    rewrite at_app_l by exact Hidx.
    replace (utf8.RuneSelf <=? utf8.at_ s (Z.to_nat j)) with false
      by (symmetry; apply Z.leb_gt; apply at_isASCII; assumption).
    split; reflexivity. }
  destruct Hsame as [-> ->].
  rewrite List.firstn_app.
  replace (Z.to_nat (j + 1) - List.length s)%nat with 0%nat by (unfold len in *; lia).
  simpl. apply List.app_nil_r.
Qed.

Lemma TrimRightFunc_app x y :
  isASCII x -> isASCII y ->
  x = [] \/ (exists x' b, x = x' ++ [b] /\ unicode.IsSpace (b2z b) = false) ->
  bytes.TrimRightFunc (x ++ y) unicode.IsSpace
  = x ++ bytes.TrimRightFunc y unicode.IsSpace.
Proof.
  intros Hx Hy Hend. induction y as [|c y IH] using List.rev_ind.
  - rewrite TrimRightFunc_nil, !List.app_nil_r.
    destruct Hend as [->|(x' & b & -> & Hb)]; [reflexivity|].
    apply TrimRightFunc_snoc_nonspace; assumption.
  - destruct (isASCII_snoc y c Hy) as [Hy' Hc].
    assert (Hxy : isASCII ((x ++ y) ++ [c])).
    { rewrite <- List.app_assoc. apply List.Forall_app. split; assumption. }
    rewrite List.app_assoc.
    destruct (unicode.IsSpace (b2z c)) eqn:Hsp.
    + rewrite !TrimRightFunc_snoc_space by assumption. apply IH. exact Hy'.
    + rewrite !TrimRightFunc_snoc_nonspace by assumption.
      rewrite List.app_assoc. reflexivity.
Qed.

Section ASCIICycle.
Variable T : list unicode.CaseRange.
Hypothesis HT : caseKeepsASCII T.
Variable opts : Options.
Variable conv : list ConvOption.
Hypothesis HL : Limit opts = 0.
Hypothesis HB : 1 <= BlockSize opts < uint_modulus.

Lemma handleConv_noTrim convs r e :
  ~ In TrimSpaces convs -> snd (handleConv T convs r e) = e.
Proof.
  revert r e. induction convs as [|c convs IH]; intros r e Hn; [reflexivity|].
  simpl. destruct c; simpl.
  - apply IH. intros H. apply Hn. right. exact H.
  - apply IH. intros H. apply Hn. right. exact H.
  - exfalso. apply Hn. left. reflexivity.
Qed.

Lemma convertASCII_noTrim e buf :
  ~ In TrimSpaces conv -> snd (convertASCII T conv e buf) = e.
Proof.
  intros Hn. revert e. induction buf as [|b buf IH]; intros e; [reflexivity|].
  simpl. pose proof (handleConv_noTrim conv (b2z b) e Hn) as Hh.
  destruct (handleConv T conv (b2z b) e) as [[r|] e0]; simpl in Hh; subst e0.
  - specialize (IH e). destruct (convertASCII T conv e buf). exact IH.
  - apply IH.
Qed.

(** One turn on a chunk of one-byte runes, with nothing carried. *)
Lemma iteration_ascii chunk endFile st :
  isASCII chunk -> len chunk <= BlockSize opts -> prevBuffer st = [] ->
  iteration T opts conv chunk endFile st =
  (let '(out, e) := convertASCII T conv (isSpaceEnded st) chunk in
   (trimBlock e out,
    {| prevBuffer := []; isSpaceEnded := e;
       totalReadBytes := uint_add (totalReadBytes st) (len chunk) |},
    endFile)).
Proof using HT HL HB.
  intros Hc Hlen Hp. unfold iteration, SymbolIterate. rewrite Hp.
  change ([] ++ chunk) with chunk.
  rewrite (SymbolIterate_loop_ascii T HT conv) by (try assumption; try lia; simpl; lia).
  simpl. rewrite HL. simpl.
  destruct (convertASCII T conv (isSpaceEnded st) chunk) as [out e]. simpl.
  rewrite orb_false_r. unfold trimBlock.
  destruct endFile; simpl; rewrite ?List.app_nil_r; reflexivity.
Qed.

Lemma maxReadLength_unlimited st : maxReadLength opts st = BlockSize opts.
Proof using HL. unfold maxReadLength. rewrite HL. reflexivity. Qed.
End ASCIICycle.

(** ** The main cycle on one-byte runes *)

Lemma firstn_snoc_nth {A} (l : list A) m d :
  (m < List.length l)%nat -> firstn (S m) l = firstn m l ++ [nth m l d].
Proof.
  revert m. induction l as [|x l IH]; intros m Hm; [simpl in Hm; lia|].
  destruct m as [|m]; [reflexivity|].
  simpl in Hm. change (firstn (S (S m)) (x :: l)) with (x :: firstn (S m) l).
  rewrite (IH m) by lia. reflexivity.
Qed.

Lemma isASCII_split reader n :
  isASCII reader -> isASCII (firstn n reader) /\ isASCII (skipn n reader).
Proof.
  intros H. unfold isASCII in *. rewrite <- (List.firstn_skipn n reader) in H.
  apply List.Forall_app in H. exact H.
Qed.

Lemma noSpaceAtBoundary_rest BS reader :
  1 <= BS -> noSpaceAtBoundary BS reader ->
  noSpaceAtBoundary BS (skipn (Z.to_nat BS) reader).
Proof.
  intros HB H k Hk Hlt.
  assert (Hlen : len (skipn (Z.to_nat BS) reader) = len reader - BS).
  { unfold len in *. rewrite List.length_skipn in *. nia. }
  specialize (H (k + 1) ltac:(lia) ltac:(nia)).
  unfold utf8.at_ in *. rewrite List.nth_skipn.
  replace (Z.to_nat BS + Z.to_nat (k * BS - 1))%nat
    with (Z.to_nat ((k + 1) * BS - 1)) by nia.
  exact H.
Qed.

Lemma noSpaceAtBoundary_last BS reader :
  1 <= BS -> noSpaceAtBoundary BS reader -> skipn (Z.to_nat BS) reader <> [] ->
  exists c b, firstn (Z.to_nat BS) reader = c ++ [b]
              /\ unicode.IsSpace (b2z b) = false.
Proof.
  intros HB H Hrest.
  assert (Hlen : (Z.to_nat BS < List.length reader)%nat).
  { destruct (Nat.lt_ge_cases (Z.to_nat BS) (List.length reader)) as [Hlt|Hge];
      [exact Hlt|]. rewrite List.skipn_all2 in Hrest by exact Hge. congruence. }
  specialize (H 1 ltac:(lia) ltac:(unfold len; lia)).
  exists (firstn (Z.to_nat BS - 1) reader), (nth (Z.to_nat BS - 1) reader x00).
  split.
  - replace (Z.to_nat BS) with (S (Z.to_nat BS - 1)) at 1 by lia.
    apply firstn_snoc_nth. lia.
  - unfold utf8.at_ in H. replace (Z.to_nat (1 * BS - 1)) with (Z.to_nat BS - 1)%nat in H by lia.
    exact H.
Qed.

Lemma trimBlock_nil e : trimBlock e [] = [].
Proof. destruct e; reflexivity. Qed.

Section ASCIIRun.
Variable T : list unicode.CaseRange.
Hypothesis HT : caseKeepsASCII T.
Variable opts : Options.
Variable conv : list ConvOption.
Hypothesis HL : Limit opts = 0.
Hypothesis HB : 1 <= BlockSize opts < uint_modulus.
Hypothesis HA : BlockSize opts <= runtime.maxAlloc.

(** Joining the block of a turn with what the later turns write. *)
Lemma trimBlock_join e chunk rest :
  isASCII chunk -> isASCII rest ->
  rest = []
  \/ (exists c b, chunk = c ++ [b] /\ unicode.IsSpace (b2z b) = false)
  \/ (e = false /\ ~ In TrimSpaces conv) ->
  let '(out1, e1) := convertASCII T conv e chunk in
  let '(out2, e2) := convertASCII T conv e1 rest in
  trimBlock e1 out1 ++ trimBlock e2 out2 = trimBlock e2 (out1 ++ out2).
Proof using HT.
  intros Hc Hr Hcase.
  pose proof (convertASCII_isASCII T HT conv e chunk Hc) as Ha1.
  pose proof (convertASCII_noTrim T conv e chunk) as Hn1.
  destruct (convertASCII T conv e chunk) as [out1 e1] eqn:E1.
  pose proof (convertASCII_isASCII T HT conv e1 rest Hr) as Ha2.
  pose proof (convertASCII_noTrim T conv e1 rest) as Hn2.
  destruct (convertASCII T conv e1 rest) as [out2 e2] eqn:E2.
  simpl in *.
  destruct Hcase as [->|[(c & b & -> & Hb)|[-> Hno]]].
  - simpl in E2. injection E2 as <- <-.
    rewrite trimBlock_nil, !List.app_nil_r. reflexivity.
  - rewrite convertASCII_app in E1.
    destruct (isASCII_snoc c b Hc) as [Hc' Hb'].
    destruct (convertASCII T conv e c) as [o0 e0] eqn:E0.
    destruct (convertASCII_nonspace T HT conv e0 b Hb' Hb) as (b' & e' & Eb & Hb'' & Hsp).
    rewrite Eb in E1. injection E1 as <- <-.
    assert (Hend : o0 ++ [b'] = [] \/
                   (exists x' y, o0 ++ [b'] = x' ++ [y] /\ unicode.IsSpace (b2z y) = false)).
    { right. exists o0, b'. split; [reflexivity|exact Hsp]. }
    unfold trimBlock. destruct e'.
    + rewrite TrimRightFunc_snoc_nonspace by assumption.
      destruct e2; [|reflexivity].
      rewrite TrimRightFunc_app by assumption. reflexivity.
    + destruct e2; [|reflexivity].
      rewrite TrimRightFunc_app by assumption. reflexivity.
  - rewrite (Hn1 Hno) in *. rewrite (Hn2 Hno). reflexivity.
Qed.

Lemma mainCycle_ascii fuel reader st sink :
  isASCII reader -> (List.length reader < fuel)%nat -> prevBuffer st = [] ->
  noSpaceAtBoundary (BlockSize opts) reader
  \/ (isSpaceEnded st = false /\ ~ In TrimSpaces conv) ->
  mainCycle T opts conv fuel reader st sink =
  Some {| err := None;
          written := sink ++ (let '(out, e) := convertASCII T conv (isSpaceEnded st) reader in
                              trimBlock e out);
          unread := [] |}.
Proof using HT HL HB HA.
  revert reader st sink.
  induction fuel as [|fuel IH]; intros reader st sink Hr Hf Hp Hstab; [lia|].
  rewrite mainCycle_S, (maxReadLength_unlimited opts HL), (makeslice_fits _ HA).
  destruct (Read_cases reader (BlockSize opts) ltac:(lia)) as [[-> ->]|(Hne & -> & Hlt)].
  - cbv iota zeta.
    rewrite (iteration_ascii T HT opts conv HL HB) by (try assumption; unfold len; simpl; lia).
    simpl. rewrite trimBlock_nil. reflexivity.
  - cbv iota zeta.
    destruct (isASCII_split reader (Z.to_nat (BlockSize opts)) Hr) as [Hc Hrest].
    rewrite (iteration_ascii T HT opts conv HL HB);
      [ | exact Hc | unfold len; rewrite List.length_firstn; lia | exact Hp ].
    pose proof (trimBlock_join (isSpaceEnded st)
                  (firstn (Z.to_nat (BlockSize opts)) reader)
                  (skipn (Z.to_nat (BlockSize opts)) reader) Hc Hrest) as Hjoin.
    pose proof (convertASCII_app T conv (isSpaceEnded st)
                  (firstn (Z.to_nat (BlockSize opts)) reader)
                  (skipn (Z.to_nat (BlockSize opts)) reader)) as Happ.
    rewrite List.firstn_skipn in Happ. rewrite Happ.
    pose proof (convertASCII_noTrim T conv (isSpaceEnded st)
                  (firstn (Z.to_nat (BlockSize opts)) reader)) as Hn1.
    destruct (convertASCII T conv (isSpaceEnded st)
                (firstn (Z.to_nat (BlockSize opts)) reader)) as [out1 e1].
    cbv iota.
    rewrite IH; [ | exact Hrest | lia | reflexivity | ].
    + simpl isSpaceEnded.
      destruct (convertASCII T conv e1 (skipn (Z.to_nat (BlockSize opts)) reader))
        as [out2 e2].
      rewrite <- List.app_assoc, Hjoin; [reflexivity|].
      destruct Hstab as [Hns|[He Hno]].
      * destruct (skipn (Z.to_nat (BlockSize opts)) reader) eqn:Hsk; [left; reflexivity|].
        right; left. apply (noSpaceAtBoundary_last (BlockSize opts) reader);
          [lia | exact Hns | rewrite Hsk; discriminate].
      * right; right. split; assumption.
    + simpl isSpaceEnded. destruct Hstab as [Hns|[He Hno]].
      * left. apply noSpaceAtBoundary_rest; [lia | exact Hns].
      * right. split; [|exact Hno]. simpl in Hn1. rewrite Hn1 by exact Hno. exact He.
Qed.
End ASCIIRun.

(** ** The main cycle on one-byte runes, under a limit *)

Lemma firstn_app_le {A} (c r : list A) n :
  (List.length c <= n)%nat -> firstn n (c ++ r) = c ++ firstn (n - List.length c) r.
Proof. intros H. rewrite List.firstn_app, List.firstn_all2 by exact H. reflexivity. Qed.

Lemma skipn_app_le {A} (c r : list A) n :
  (List.length c <= n)%nat -> skipn n (c ++ r) = skipn (n - List.length c) r.
Proof. intros H. rewrite List.skipn_app, List.skipn_all2 by exact H. reflexivity. Qed.

Lemma noSpaceAtBoundary_nil BS : 1 <= BS -> noSpaceAtBoundary BS [].
Proof. intros HB k Hk Hlt. change (len []) with 0 in Hlt. nia. Qed.

Section ASCIILimit.
Variable T : list unicode.CaseRange.
Hypothesis HT : caseKeepsASCII T.
Variable opts : Options.
Variable conv : list ConvOption.
Hypothesis HLim : 0 < Limit opts < uint_modulus.
Hypothesis HB : 1 <= BlockSize opts < uint_modulus.
Hypothesis HA : BlockSize opts <= runtime.maxAlloc.

Lemma iteration_ascii_limit chunk endFile st :
  isASCII chunk -> len chunk <= BlockSize opts -> prevBuffer st = [] ->
  0 <= totalReadBytes st -> totalReadBytes st + len chunk < 2 ^ 63 ->
  iteration T opts conv chunk endFile st =
  (let '(out, e) := convertASCII T conv (isSpaceEnded st) chunk in
   (trimBlock e out,
    {| prevBuffer := []; isSpaceEnded := e;
       totalReadBytes := totalReadBytes st + len chunk |},
    endFile || (Limit opts <=? totalReadBytes st + len chunk))).
Proof using HT HLim HB.
  intros Hc Hlen Hp H0 Hsum. unfold iteration, SymbolIterate. rewrite Hp.
  change ([] ++ chunk) with chunk.
  rewrite (SymbolIterate_loop_ascii T HT conv) by (try assumption; try lia; simpl; lia).
  simpl.
  pose proof (len_nonneg chunk) as Hnn.
  assert (Hadd : uint_add (totalReadBytes st) (len chunk) = totalReadBytes st + len chunk).
  { unfold uint_add, uint, uint_modulus. apply Z.mod_small. lia. }
  rewrite Hadd.
  replace (0 <? Limit opts) with true by (symmetry; apply Z.ltb_lt; lia).
  simpl andb.
  destruct (convertASCII T conv (isSpaceEnded st) chunk) as [out e]. simpl.
  unfold trimBlock.
  destruct (endFile || _)%bool; rewrite ?List.app_nil_r; reflexivity.
Qed.

Lemma maxReadLength_limited st :
  0 <= totalReadBytes st < Limit opts -> totalReadBytes st < 2 ^ 63 ->
  totalReadBytes st = 0 \/ BlockSize opts <= totalReadBytes st ->
  maxReadLength opts st = Z.min (BlockSize opts) (Limit opts - totalReadBytes st).
Proof using HLim HB.
  intros Ht H63 Hfull. unfold maxReadLength, uint_add, uint_sub, uint, uint_modulus in *.
  replace (0 <? Limit opts) with true by (symmetry; apply Z.ltb_lt; lia).
  simpl andb. rewrite (Z.mod_small (totalReadBytes st + BlockSize opts)) by lia.
  destruct (Z.ltb_spec (Limit opts) (totalReadBytes st + BlockSize opts)).
  - rewrite Z.mod_small by lia. lia.
  - lia.
Qed.

Lemma mainCycle_ascii_limit fuel reader st sink :
  isASCII reader -> (List.length reader < fuel)%nat -> prevBuffer st = [] ->
  0 <= totalReadBytes st < Limit opts ->
  totalReadBytes st + len reader < 2 ^ 63 ->
  reader = [] \/ totalReadBytes st = 0 \/ BlockSize opts <= totalReadBytes st ->
  noSpaceAtBoundary (BlockSize opts)
    (firstn (Z.to_nat (Limit opts - totalReadBytes st)) reader)
  \/ (isSpaceEnded st = false /\ ~ In TrimSpaces conv) ->
  mainCycle T opts conv fuel reader st sink =
  Some {| err := None;
          written := sink ++
            (let '(out, e) :=
               convertASCII T conv (isSpaceEnded st)
                 (firstn (Z.to_nat (Limit opts - totalReadBytes st)) reader) in
             trimBlock e out);
          unread := skipn (Z.to_nat (Limit opts - totalReadBytes st)) reader |}.
Proof using HT HLim HB HA.
  revert reader st sink.
  induction fuel as [|fuel IH];
    intros reader st sink Hr Hf Hp Ht H63 Hfull Hstab; [lia|].
  rewrite mainCycle_S.
  assert (Hcount : counting opts st) by (split; lia).
  rewrite (maxReadLength_fits opts st ltac:(lia) Hcount
             ltac:(pose proof (len_nonneg reader); lia)).
  destruct (Read_cases reader (maxReadLength opts st)
              (maxReadLength_pos opts st ltac:(lia) ltac:(lia) Hcount))
    as [[-> ->]|(Hne & -> & Hlt)].
  - cbv iota zeta.
    rewrite iteration_ascii_limit
      by (try assumption; try constructor; change (len []) with 0; lia).
    simpl. rewrite List.firstn_nil, List.skipn_nil. simpl.
    rewrite trimBlock_nil. reflexivity.
  - cbv iota zeta.
    pose proof (len_nonneg reader) as Hnn.
    assert (Hfull' : totalReadBytes st = 0 \/ BlockSize opts <= totalReadBytes st)
      by (destruct Hfull as [->|H]; [congruence|exact H]).
    rewrite (maxReadLength_limited st Ht ltac:(lia) Hfull') in *.
    remember (Z.min (BlockSize opts) (Limit opts - totalReadBytes st)) as n eqn:En.
    remember (Z.to_nat (Limit opts - totalReadBytes st)) as room eqn:Eroom.
    set (c := firstn (Z.to_nat n) reader) in *.
    set (rest := skipn (Z.to_nat n) reader) in *.
    assert (Hsplit : reader = c ++ rest) by (symmetry; apply List.firstn_skipn).
    assert (Hlt' : (List.length rest < List.length reader)%nat).
    { unfold rest. rewrite List.length_skipn.
      destruct reader; [congruence | simpl List.length; lia]. }
    destruct (isASCII_split reader (Z.to_nat n) Hr) as [Hc Hrest].
    fold c in Hc. fold rest in Hrest.
    assert (Hlenc : len c <= n) by (unfold len, c; rewrite List.length_firstn; lia).
    assert (Hlens : len reader = len c + len rest) by (rewrite Hsplit at 1; apply len_app).
    pose proof (len_nonneg c) as Hnc. pose proof (len_nonneg rest) as Hnr.
    assert (Hcroom : (List.length c <= room)%nat) by (unfold len in Hlenc; lia).
    assert (HW : firstn room reader
                 = c ++ firstn (room - List.length c) rest)
      by (rewrite Hsplit at 1; apply firstn_app_le, Hcroom).
    assert (HU : skipn room reader = skipn (room - List.length c) rest)
      by (rewrite Hsplit at 1; apply skipn_app_le, Hcroom).
    rewrite iteration_ascii_limit by (try assumption; lia).
    pose proof (trimBlock_join T HT conv (isSpaceEnded st) c
                  (firstn (room - List.length c) rest) Hc
                  (proj1 (isASCII_split rest _ Hrest))) as Hjoin.
    pose proof (convertASCII_noTrim T conv (isSpaceEnded st) c) as Hn1.
    rewrite HW, HU, convertASCII_app.
    destruct (convertASCII T conv (isSpaceEnded st) c) as [out1 e1].
    simpl orb.
    destruct (Z.leb_spec (Limit opts) (totalReadBytes st + len c)) as [Hstop|Hgo].
    + assert (Hroom0 : (room - List.length c = 0)%nat) by (unfold len in *; lia).
      rewrite Hroom0. simpl. rewrite List.app_nil_r. reflexivity.
    + rewrite IH; try assumption.
      * simpl isSpaceEnded. simpl totalReadBytes.
        replace (Z.to_nat (Limit opts - (totalReadBytes st + len c)))
          with (room - List.length c)%nat by (unfold len; lia).
        destruct (convertASCII T conv e1 (firstn (room - List.length c) rest))
          as [out2 e2].
        rewrite <- List.app_assoc, Hjoin; [reflexivity|].
        destruct Hstab as [Hns|[He Hno]]; [|right; right; split; assumption].
        destruct (firstn (room - List.length c) rest) eqn:HW'; [left; reflexivity|].
        right; left.
        assert (Hrne : rest <> []) by (intros E; rewrite E, List.firstn_nil in HW'; discriminate).
        assert (Hcfull : List.length c = Z.to_nat (BlockSize opts)).
        { unfold c. rewrite List.length_firstn.
          assert (Z.to_nat n < List.length reader)%nat.
          { destruct (Nat.lt_ge_cases (Z.to_nat n) (List.length reader)) as [H|H]; [exact H|].
            exfalso. apply Hrne. apply List.skipn_all2. exact H. }
          assert (n = BlockSize opts); [|lia].
          unfold len in *. unfold c in Hgo. rewrite List.length_firstn in Hgo. lia. }
        destruct (noSpaceAtBoundary_last (BlockSize opts) (firstn room reader)
                    ltac:(lia) Hns) as (c0 & b0 & Hc0 & Hb0).
        -- rewrite HW, ?HW'. rewrite List.skipn_app, List.skipn_all2 by lia.
           rewrite Hcfull, Nat.sub_diag. simpl. discriminate.
        -- exists c0, b0. split; [|exact Hb0]. rewrite <- Hc0, HW.
           rewrite List.firstn_app, List.firstn_all2 by lia.
           rewrite Hcfull, Nat.sub_diag. simpl. rewrite List.app_nil_r. reflexivity.
      * lia.
      * reflexivity.
      * simpl. lia.
      * simpl. lia.
      * simpl totalReadBytes.
        destruct rest eqn:Hrest0; [left; reflexivity|right; right].
        assert (Z.to_nat n < List.length reader)%nat.
        { destruct (Nat.lt_ge_cases (Z.to_nat n) (List.length reader)) as [H|H]; [exact H|].
          exfalso. unfold rest in Hrest0. rewrite List.skipn_all2 in Hrest0 by exact H.
          discriminate. }
        unfold len in *. unfold c in Hgo |- *. rewrite List.length_firstn in *. lia.
      * simpl isSpaceEnded. simpl totalReadBytes.
        replace (Z.to_nat (Limit opts - (totalReadBytes st + len c)))
          with (room - List.length c)%nat by (unfold len; lia).
        destruct Hstab as [Hns|[He Hno]].
        -- left. destruct rest eqn:Hrest0.
           ++ rewrite List.firstn_nil. apply noSpaceAtBoundary_nil. lia.
           ++ assert (Hcfull : List.length c = Z.to_nat (BlockSize opts)).
              { assert (Z.to_nat n < List.length reader)%nat.
                { destruct (Nat.lt_ge_cases (Z.to_nat n) (List.length reader)) as [H|H]; [exact H|].
                  exfalso. unfold rest in Hrest0. rewrite List.skipn_all2 in Hrest0 by exact H.
                  discriminate. }
                unfold len in *. unfold c in Hgo |- *. rewrite List.length_firstn in *. lia. }
              pose proof (noSpaceAtBoundary_rest (BlockSize opts) (firstn room reader)
                            ltac:(lia) Hns) as Hr'.
              rewrite HW in Hr'. rewrite List.skipn_app, List.skipn_all2 in Hr' by lia.
              rewrite <- Hcfull, Nat.sub_diag in Hr'. simpl in Hr'. exact Hr'.
        -- right. split; [|exact Hno]. simpl in Hn1. rewrite Hn1 by exact Hno. exact He.
Qed.
End ASCIILimit.

(** ** Block sizes and repeated runs on one-byte runes *)

Lemma caseKeepsASCIIb_sound T : caseKeepsASCIIb T = true -> caseKeepsASCII T.
Proof.
  unfold caseKeepsASCIIb. intros H _case r Hc Hr.
  rewrite List.forallb_forall in H.
  assert (Hin : In r (map Z.of_nat (seq 0 128))).
  { apply List.in_map_iff. exists (Z.to_nat r). unfold utf8.RuneSelf in Hr.
    split; [lia|]. apply List.in_seq. lia. }
  specialize (H r Hin). rewrite List.forallb_forall in H.
  assert (Hc' : In _case [unicode.UpperCase; unicode.LowerCase]).
  { destruct Hc as [-> | ->]; simpl; auto. }
  specialize (H _case Hc'). cbv zeta in H.
  apply andb_prop in H as [H Hs]. apply andb_prop in H as [H0 H1].
  apply Z.leb_le in H0. apply Z.ltb_lt in H1. apply Bool.eqb_prop in Hs.
  auto.
Qed.

Lemma CaseRanges_head_keeps_ASCII : caseKeepsASCII unicode.CaseRanges_head.
Proof. apply caseKeepsASCIIb_sound. vm_compute. reflexivity. Qed.

(** What [process] does on an input of one-byte runes. *)
Lemma process_ascii T opts conv input :
  caseKeepsASCII T -> ParseConv opts = inr conv ->
  Offset opts <= len input -> 0 <= Limit opts < uint_modulus ->
  (0 < Limit opts -> len input < 2 ^ 63) ->
  1 <= BlockSize opts <= runtime.maxAlloc ->
  isASCII input ->
  noSpaceAtBoundary (BlockSize opts) (copied opts input) \/ ~ In TrimSpaces conv ->
  process T opts input =
  Some {| err := None;
          written := (let '(out, e) := convertASCII T conv false (copied opts input) in
                      trimBlock e out);
          unread := if 0 <? Limit opts
                    then skipn (Z.to_nat (Limit opts))
                           (skipn (Z.to_nat (Offset opts)) input)
                    else [] |}.
Proof.
  intros HT Hconv Hoff HL H63 [HB1 HA] Hin Hstab.
  assert (HB : 1 <= BlockSize opts < uint_modulus)
    by (unfold runtime.maxAlloc, uint_modulus in *; lia).
  unfold process. rewrite Hconv.
  unfold processFrom.
  assert (Hdiscard : exists n, CopyN_Discard input (Offset opts)
                               = (n, None, skipn (Z.to_nat (Offset opts)) input)).
  { unfold CopyN_Discard. destruct (Z.leb_spec (Offset opts) 0) as [H0|H0].
    - exists 0. replace (Z.to_nat (Offset opts)) with 0%nat by lia. reflexivity.
    - exists (Offset opts).
      replace (Offset opts <=? len input) with true by (symmetry; apply Z.leb_le; lia).
      reflexivity. }
  destruct Hdiscard as [n ->].
  set (reader := skipn (Z.to_nat (Offset opts)) input) in *.
  assert (Hreader : isASCII reader) by apply (isASCII_split input _ Hin).
  assert (Hlen : (List.length reader <= List.length input)%nat)
    by (unfold reader; rewrite List.length_skipn; lia).
  unfold copied in *. fold reader in Hstab |- *.
  destruct (Z.ltb_spec 0 (Limit opts)) as [Hpos|Hzero].
  - rewrite (mainCycle_ascii_limit T HT opts conv ltac:(lia) HB HA);
      try assumption; try reflexivity; simpl totalReadBytes.
    + rewrite Z.sub_0_r. reflexivity.
    + lia.
    + lia.
    + specialize (H63 Hpos). unfold len in *. lia.
    + right; left; reflexivity.
    + rewrite Z.sub_0_r.
      destruct Hstab as [H|H]; [left; exact H | right; split; [reflexivity|exact H]].
  - rewrite (mainCycle_ascii T HT opts conv ltac:(lia) HB HA);
      try assumption; try reflexivity; [lia|].
    destruct Hstab as [H|H]; [left; exact H | right; split; [reflexivity|exact H]].
Qed.

(** C3, as the code has it. For an input of one-byte runes and any offset,
    limit and conversion list, two block sizes that [make] allocates
    give the same outcome, provided that in neither run a block other
    than the last ends in a white space byte. *)
Theorem ascii_block_size_invariance T opts BS1 BS2 input :
  caseKeepsASCII T -> isASCII input ->
  0 <= Limit opts < uint_modulus -> (0 < Limit opts -> len input < 2 ^ 63) ->
  1 <= BS1 <= runtime.maxAlloc -> 1 <= BS2 <= runtime.maxAlloc ->
  noSpaceAtBoundary BS1 (copied opts input) ->
  noSpaceAtBoundary BS2 (copied opts input) ->
  exists o,
    process T (withBlockSize opts BS1) input = Some o
    /\ process T (withBlockSize opts BS2) input = Some o.
Proof.
  intros HT Hin HL H63 HB1 HB2 H1 H2.
  destruct (ParseConv opts) as [e|conv] eqn:Hconv.
  - exists {| err := Some e; written := []; unread := input |}.
    unfold process.
    change (ParseConv (withBlockSize opts BS1)) with (ParseConv opts).
    change (ParseConv (withBlockSize opts BS2)) with (ParseConv opts).
    rewrite Hconv. split; reflexivity.
  - destruct (Z.leb_spec (Offset opts) (len input)) as [Hoff|Hoff].
    + eexists. split.
      * apply (process_ascii T (withBlockSize opts BS1) conv); try assumption.
        left. exact H1.
      * apply (process_ascii T (withBlockSize opts BS2) conv); try assumption.
        left. exact H2.
    + exists {| err := Some ApplyOffsetFailed; written := []; unread := [] |}.
      pose proof (len_nonneg input) as Hnn.
      unfold process.
      change (ParseConv (withBlockSize opts BS1)) with (ParseConv opts).
      change (ParseConv (withBlockSize opts BS2)) with (ParseConv opts).
      rewrite Hconv. unfold processFrom, CopyN_Discard. simpl Offset.
      replace (Offset opts <=? 0) with false by (symmetry; apply Z.leb_gt; lia).
      replace (Offset opts <=? len input) with false by (symmetry; apply Z.leb_gt; lia).
      split; reflexivity.
Qed.

Lemma ascii_block_size_invariance_witness :
  exists o,
    process unicode.CaseRanges_head
      (withBlockSize {| Offset := 1; Limit := 10; BlockSize := 0;
                        Conv := "trim_spaces,upper_case" |} 3)
      (bs "  hi  there ") = Some o
    /\ process unicode.CaseRanges_head
      (withBlockSize {| Offset := 1; Limit := 10; BlockSize := 0;
                        Conv := "trim_spaces,upper_case" |} 1000)
      (bs "  hi  there ") = Some o.
Proof.
  apply (ascii_block_size_invariance unicode.CaseRanges_head
           {| Offset := 1; Limit := 10; BlockSize := 0;
              Conv := "trim_spaces,upper_case" |} 3 1000 (bs "  hi  there ")).
  - exact CaseRanges_head_keeps_ASCII.
  - unfold isASCII. repeat constructor.
  - simpl; unfold uint_modulus; lia.
  - intros _. vm_compute. reflexivity.
  - unfold runtime.maxAlloc; lia.
  - unfold runtime.maxAlloc; lia.
  - intros k Hk Hlt.
    change (len (copied _ _)) with 10 in Hlt.
    assert (k = 1 \/ k = 2 \/ k = 3) as [-> | [-> | ->]] by lia; reflexivity.
  - intros k Hk Hlt. change (len (copied _ _)) with 10 in Hlt. lia.
Defined.

(** C3 as stated fails. With [trim_spaces] on the two bytes of U+00E9
    followed by a space, no block ends in a space before the end of the
    input, yet blocks of 1 byte leave the space in the output (the rune
    never fits in a block and is flushed with what follows it) and a
    block of 3 bytes trims it. *)
Lemma block_size_changes_output :
  let input := [xc3; xa9; x20] in
  noSpaceAtBoundary 1 input /\ noSpaceAtBoundary 3 input
  /\ process unicode.CaseRanges_head
       {| Offset := 0; Limit := 0; BlockSize := 1; Conv := "trim_spaces" |} input
     = Some {| err := None; written := [xc3; xa9; x20]; unread := [] |}
  /\ process unicode.CaseRanges_head
       {| Offset := 0; Limit := 0; BlockSize := 3; Conv := "trim_spaces" |} input
     = Some {| err := None; written := [xc3; xa9]; unread := [] |}.
Proof.
  cbv zeta. split; [|split; [|split; vm_compute; reflexivity]].
  - intros k Hk Hlt. change (len [xc3; xa9; x20]) with 3 in Hlt.
    assert (k = 1 \/ k = 2) as [-> | ->] by lia; reflexivity.
  - intros k Hk Hlt. change (len [xc3; xa9; x20]) with 3 in Hlt. lia.
Qed.

(** Why the proviso is on the last byte of a block and not only on runs
    of spaces that go across a boundary: a single space right before a
    boundary is trimmed with its block. *)
Example space_before_boundary_is_trimmed T :
  process T {| Offset := 0; Limit := 0; BlockSize := 3; Conv := "trim_spaces" |}
          (bs "ab cd")
  = Some {| err := None; written := bs "abcd"; unread := [] |}
  /\ process T {| Offset := 0; Limit := 0; BlockSize := 6; Conv := "trim_spaces" |}
             (bs "ab cd")
     = Some {| err := None; written := bs "ab cd"; unread := [] |}.
Proof. split; vm_compute; reflexivity. Qed.

(** The conversion [upper_case] alone maps byte by byte. *)
Lemma convertASCII_upper T input :
  convertASCII T [UpperCase] false input
  = (map (fun b => z2b (unicode.To T unicode.UpperCase (b2z b))) input, false).
Proof.
  induction input as [|b input IH]; [reflexivity|].
  simpl. simpl in IH. rewrite IH. reflexivity.
Qed.

(** C8 as stated fails. With blocks of 3 bytes, on U+0131 followed by five
    U+00E9 the first run leaves the last rune in lower case (it is flushed
    with the bytes not consumed at the end of the input); its output
    starts with the one-byte "I", the blocks fall differently, and the
    second run converts that rune. The runes are covered by
    [unicode.CaseRanges_head], which are rows of Go's table. *)
Lemma upper_case_twice_differs :
  let opts := {| Offset := 0; Limit := 0; BlockSize := 3; Conv := "upper_case" |} in
  let e := [xc3; xa9] in
  let E := [xc3; x89] in
  process unicode.CaseRanges_head opts ([xc4; xb1] ++ e ++ e ++ e ++ e ++ e)
  = Some {| err := None; written := bs "I" ++ E ++ E ++ E ++ E ++ e; unread := [] |}
  /\ process unicode.CaseRanges_head opts (bs "I" ++ E ++ E ++ E ++ E ++ e)
     = Some {| err := None; written := bs "I" ++ E ++ E ++ E ++ E ++ E; unread := [] |}.
Proof. cbv zeta. split; vm_compute; reflexivity. Qed.

(** ** Copying one-byte runes with no conversion *)

(** With no conversion the case table is not looked at. *)
Lemma SymbolIterate_loop_no_conv T1 T2 opts fuel buf w e :
  SymbolIterate_loop T1 opts [] fuel buf w e
  = SymbolIterate_loop T2 opts [] fuel buf w e.
Proof.
  revert buf w e. induction fuel as [|fuel IH]; intros buf w e; [reflexivity|].
  rewrite !SymbolIterate_loop_S.
  destruct (0 <? len buf); [|reflexivity].
  destruct (utf8.DecodeRune buf) as [r size].
  destruct ((len buf <? 3) && _)%bool; [reflexivity|].
  simpl handleConv. cbv iota zeta.
  destruct (BlockSize opts <? _); [reflexivity|]. apply IH.
Qed.

Lemma mainCycle_no_conv T1 T2 opts fuel reader st sink :
  mainCycle T1 opts [] fuel reader st sink = mainCycle T2 opts [] fuel reader st sink.
Proof.
  revert reader st sink. induction fuel as [|fuel IH]; intros reader st sink; [reflexivity|].
  rewrite !mainCycle_S.
  destruct (runtime.makeslicePanics (maxReadLength opts st)); [reflexivity|].
  destruct (Read reader (maxReadLength opts st)) as [[chunk e] reader'].
  assert (Hit : forall endFile,
            iteration T1 opts [] chunk endFile st = iteration T2 opts [] chunk endFile st).
  { intros endFile. unfold iteration, SymbolIterate.
    rewrite (SymbolIterate_loop_no_conv T1 T2). reflexivity. }
  destruct e as [[|]|]; try reflexivity; rewrite Hit;
    destruct (iteration T2 opts [] chunk _ st) as [[w st'] stop];
    destruct stop; try reflexivity; apply IH.
Qed.

Lemma convertASCII_no_conv T e input :
  convertASCII T [] e input = (input, e).
Proof.
  induction input as [|b input IH]; [reflexivity|].
  simpl. rewrite IH, z2b_b2z. reflexivity.
Qed.

(** An input of one-byte runes is copied as it is, whatever the block
    size that [make] allocates. *)
Theorem ascii_identity T BS input :
  1 <= BS <= runtime.maxAlloc -> isASCII input ->
  process T {| Offset := 0; Limit := 0; BlockSize := BS; Conv := "" |} input
  = Some {| err := None; written := input; unread := [] |}.
Proof.
  intros HB Hin.
  transitivity (process unicode.CaseRanges_head
                  {| Offset := 0; Limit := 0; BlockSize := BS; Conv := "" |} input).
  - unfold process. change (ParseConv _) with (@inr Error (list ConvOption) []).
    cbv iota. unfold processFrom.
    destruct (CopyN_Discard input _) as [[n e] reader].
    destruct e; [reflexivity|]. apply mainCycle_no_conv.
  - rewrite (process_ascii unicode.CaseRanges_head _ [] input);
      try assumption; try reflexivity.
    + change (copied _ input) with input. rewrite convertASCII_no_conv. reflexivity.
    + exact CaseRanges_head_keeps_ASCII.
    + apply len_nonneg.
    + simpl. unfold uint_modulus. lia.
    + simpl. lia.
    + right. intros [].
Qed.
(** * [ParseConv], [Validate] and whole runs of [process] *)

(** ** [ParseConv] *)

Lemma Split_nonempty s sep : Split s sep <> [].
Proof.
  induction s as [|c s IH]; simpl; [discriminate|].
  destruct (Ascii.eqb c sep); [discriminate|].
  destruct (Split s sep); [contradiction|discriminate].
Qed.

(** Joining the fields of [strings.Split] with the separator gives the
    string back. *)
Lemma concat_Split s sep :
  String.concat (String sep EmptyString) (Split s sep) = s.
Proof.
  induction s as [|c s IH]; [reflexivity|]. simpl Split.
  destruct (Ascii.eqb_spec c sep) as [->|Hne].
  - pose proof (Split_nonempty s sep) as Hn.
    destruct (Split s sep) as [|h t] eqn:E; [contradiction|].
    change (String.concat (String sep "") ("" :: h :: t))
      with (String sep (String.concat (String sep "") (h :: t)))%string.
    rewrite IH. reflexivity.
  - pose proof (Split_nonempty s sep) as Hn.
    destruct (Split s sep) as [|h t] eqn:E; [contradiction|].
    destruct t as [|h' t].
    + simpl in *. rewrite IH. reflexivity.
    + change (String.concat (String sep "") (String c h :: h' :: t))
        with (String c (String.concat (String sep "") (h :: h' :: t))).
      rewrite IH. reflexivity.
Qed.

Lemma Split_noSep s sep : noSep sep s = true -> Split s sep = [s].
Proof.
  induction s as [|c s IH]; [reflexivity|]. simpl.
  intros H. apply andb_prop in H as [Hc Hs].
  apply negb_true_iff in Hc. rewrite Hc, (IH Hs). reflexivity.
Qed.

Lemma Split_app_sep s t sep :
  noSep sep s = true ->
  Split (s ++ String sep t) sep = s :: Split t sep.
Proof.
  induction s as [|c s IH]; intros H; simpl.
  - rewrite Ascii.eqb_refl. reflexivity.
  - simpl in H. apply andb_prop in H as [Hc Hs]. apply negb_true_iff in Hc.
    rewrite Hc, (IH Hs). reflexivity.
Qed.

(** Splitting a joined list of fields without the separator gives the
    fields back. *)
Lemma Split_concat l sep :
  l <> [] -> Forall (fun s => noSep sep s = true) l ->
  Split (String.concat (String sep EmptyString) l) sep = l.
Proof.
  intros Hne Hall. induction Hall as [|s l Hs Hall IH]; [congruence|].
  destruct l as [|s' l].
  - simpl. apply Split_noSep, Hs.
  - change (String.concat (String sep "") (s :: s' :: l))
      with (s ++ String sep (String.concat (String sep "") (s' :: l)))%string.
    rewrite Split_app_sep by exact Hs. rewrite IH by discriminate. reflexivity.
Qed.

Lemma ConvMapper_convName c : ConvMapper (convName c) = Some c.
Proof. destruct c; reflexivity. Qed.

Lemma ConvMapper_Some s c : ConvMapper s = Some c -> s = convName c.
Proof.
  unfold ConvMapper.
  destruct (String.eqb_spec s "upper_case") as [->|_]; [intros [= <-]; reflexivity|].
  destruct (String.eqb_spec s "lower_case") as [->|_]; [intros [= <-]; reflexivity|].
  destruct (String.eqb_spec s "trim_spaces") as [->|_]; [intros [= <-]; reflexivity|].
  discriminate.
Qed.

Lemma caseCount_cons c l :
  caseCount (c :: l)
  = ((if ConvOption_eqb c LowerCase || ConvOption_eqb c UpperCase then 1 else 0)
     + caseCount l)%nat.
Proof. unfold caseCount. simpl. destruct (_ || _); reflexivity. Qed.

Lemma caseCount_app a b : caseCount (a ++ b) = (caseCount a + caseCount b)%nat.
Proof. unfold caseCount. rewrite List.filter_app, List.length_app. reflexivity. Qed.

(** The loop of [ParseConv] on a list of names. *)
Lemma ParseConv_loop_names l acc (got : bool) :
  (caseCount l + (if got then 1 else 0) <= 1)%nat ->
  ParseConv_loop (map convName l) acc got = @inr Error _ (acc ++ l).
Proof.
  revert acc got. induction l as [|c l IH]; intros acc got H; simpl.
  - rewrite List.app_nil_r. reflexivity.
  - rewrite ConvMapper_convName. rewrite caseCount_cons in H.
    destruct (ConvOption_eqb c LowerCase || ConvOption_eqb c UpperCase).
    + destruct got; [lia|]. rewrite IH by lia. rewrite <- List.app_assoc. reflexivity.
    + rewrite IH by lia. rewrite <- List.app_assoc. reflexivity.
Qed.

(** What a successful run of the loop says of its fields. *)
Lemma ParseConv_loop_inr fields acc (got : bool) l :
  ParseConv_loop fields acc got = @inr Error _ l ->
  exists l', l = acc ++ l' /\ fields = map convName l'
             /\ (caseCount l' + (if got then 1 else 0) <= 1)%nat.
Proof.
  revert acc got. induction fields as [|s fields IH]; intros acc got H; simpl in H.
  - injection H as <-. exists []. rewrite List.app_nil_r. repeat split. destruct got; simpl; lia.
  - destruct (ConvMapper s) as [c|] eqn:Hc; [|discriminate].
    apply ConvMapper_Some in Hc. subst s.
    destruct (ConvOption_eqb c LowerCase || ConvOption_eqb c UpperCase) eqn:Hcase.
    + destruct got; [discriminate|].
      apply IH in H as (l' & -> & -> & Hn). exists (c :: l').
      rewrite <- List.app_assoc. repeat split.
      rewrite caseCount_cons, Hcase. simpl in *. lia.
    + apply IH in H as (l' & -> & -> & Hn). exists (c :: l').
      rewrite <- List.app_assoc. repeat split.
      rewrite caseCount_cons, Hcase. simpl in *. lia.
Qed.

Lemma convName_noSep c : noSep ","%char (convName c) = true.
Proof. destruct c; reflexivity. Qed.

Lemma concat_names_nonempty l :
  l <> [] -> String.eqb (String.concat "," (map convName l)) "" = false.
Proof.
  destruct l as [|c l]; [congruence|]. intros _.
  destruct l; destruct c; reflexivity.
Qed.

(** X1. [ParseConv] succeeds with the list [l] exactly when [Conv] is the
    names of [l] joined by commas and [l] holds at most one of
    [upper_case] and [lower_case]. *)
Theorem ParseConv_inverts_names o l :
  ParseConv o = inr l <->
  Conv o = String.concat "," (map convName l) /\ (caseCount l <= 1)%nat.
Proof.
  unfold ParseConv. split.
  - destruct (String.eqb_spec (Conv o) "") as [E|E].
    + intros [= <-]. split; [exact E | unfold caseCount; simpl; lia].
    + intros H. apply ParseConv_loop_inr in H as (l' & -> & Hf & Hn).
      simpl. split; [|lia].
      rewrite <- Hf. symmetry. apply concat_Split.
  - intros [Hc Hn]. destruct l as [|c l].
    + simpl in Hc. rewrite Hc. reflexivity.
    + rewrite Hc, concat_names_nonempty by discriminate.
      rewrite Split_concat.
      * apply (ParseConv_loop_names (c :: l) [] false). lia.
      * discriminate.
      * apply List.Forall_forall. intros s Hs.
        apply List.in_map_iff in Hs as (c' & <- & _). apply convName_noSep.
Qed.

Lemma ParseConv_inverts_names_witness :
  ParseConv {| Offset := 0; Limit := 0; BlockSize := 1;
               Conv := "lower_case,trim_spaces,trim_spaces" |}
  = inr [LowerCase; TrimSpaces; TrimSpaces].
Proof.
  apply ParseConv_inverts_names.
  split; [reflexivity | vm_compute; lia].
Defined.

Lemma ParseConv_loop_both l acc (got : bool) :
  (2 <= caseCount l + (if got then 1 else 0))%nat ->
  ParseConv_loop (map convName l) acc got = inl BothCases.
Proof.
  revert acc got. induction l as [|c l IH]; intros acc got H.
  - unfold caseCount in H. simpl in H. destruct got; lia.
  - simpl. rewrite ConvMapper_convName. rewrite caseCount_cons in H.
    destruct (ConvOption_eqb c LowerCase || ConvOption_eqb c UpperCase).
    + destruct got; [reflexivity|]. apply IH. simpl. lia.
    + apply IH. lia.
Qed.

(** X2. When every field of [Conv] is a known name and two or more of them
    are case conversions (the same one twice counts), [ParseConv] fails
    with the error on using both cases. *)
Theorem ParseConv_rejects_two_cases o l :
  Conv o = String.concat "," (map convName l) -> (2 <= caseCount l)%nat ->
  ParseConv o = inl BothCases.
Proof.
  intros Hc Hn. unfold ParseConv.
  assert (Hne : l <> []) by (intros ->; unfold caseCount in Hn; simpl in Hn; lia).
  rewrite Hc, concat_names_nonempty by exact Hne.
  rewrite Split_concat.
  - apply ParseConv_loop_both. lia.
  - destruct l; [congruence|discriminate].
  - apply List.Forall_forall. intros s Hs.
    apply List.in_map_iff in Hs as (c' & <- & _). apply convName_noSep.
Qed.

Lemma ParseConv_rejects_two_cases_witness :
  ParseConv {| Offset := 0; Limit := 0; BlockSize := 1;
               Conv := "upper_case,trim_spaces,upper_case" |}
  = inl BothCases.
Proof.
  apply (ParseConv_rejects_two_cases _ [UpperCase; TrimSpaces; UpperCase]).
  - reflexivity.
  - vm_compute. lia.
Defined.

(** ** How much of the source [process] reads *)

Lemma iteration_total T opts conv chunk endFile st :
  totalReadBytes (snd (fst (iteration T opts conv chunk endFile st)))
  = uint_add (totalReadBytes st) (len chunk)
  /\ snd (iteration T opts conv chunk endFile st)
     = (endFile || ((0 <? Limit opts)
                    && (Limit opts <=? uint_add (totalReadBytes st) (len chunk))))%bool.
Proof.
  unfold iteration. cbv zeta. destruct (endFile || _)%bool; split; reflexivity.
Qed.

Section Window.
Variable T : list unicode.CaseRange.
Variable opts : Options.
Variable conv : list ConvOption.
Hypothesis HB : 1 <= BlockSize opts < uint_modulus.
Hypothesis HA : BlockSize opts <= runtime.maxAlloc.

Lemma mainCycle_reads_all fuel reader st sink :
  Limit opts = 0 -> (List.length reader < fuel)%nat ->
  exists w, mainCycle T opts conv fuel reader st sink
            = Some {| err := None; written := w; unread := [] |}.
Proof using HB HA.
  intros HL. revert reader st sink.
  induction fuel as [|fuel IH]; intros reader st sink Hf; [lia|].
  rewrite mainCycle_S, (maxReadLength_unlimited opts HL), (makeslice_fits _ HA).
  destruct (Read_cases reader (BlockSize opts) ltac:(lia)) as [[-> ->]|(Hne & -> & Hlt)].
  - cbv iota zeta.
    destruct (iteration_total T opts conv [] true st) as [_ Hs].
    destruct (iteration T opts conv [] true st) as [[w st'] stop].
    simpl in Hs. subst stop. eauto.
  - cbv iota zeta.
    destruct (iteration_total T opts conv
                (firstn (Z.to_nat (BlockSize opts)) reader) false st) as [_ Hs].
    destruct (iteration T opts conv _ false st) as [[w st'] stop].
    simpl in Hs. rewrite HL in Hs. simpl in Hs. subst stop.
    apply IH. lia.
Qed.

Lemma mainCycle_reads_limit fuel reader st sink :
  0 < Limit opts < uint_modulus ->
  (List.length reader < fuel)%nat ->
  0 <= totalReadBytes st < Limit opts ->
  totalReadBytes st + len reader < 2 ^ 63 ->
  reader = [] \/ totalReadBytes st = 0 \/ BlockSize opts <= totalReadBytes st ->
  exists w, mainCycle T opts conv fuel reader st sink
            = Some {| err := None; written := w;
                      unread := skipn (Z.to_nat (Limit opts - totalReadBytes st)) reader |}.
Proof using HB HA.
  intros HLim. revert reader st sink.
  induction fuel as [|fuel IH]; intros reader st sink Hf Ht H63 Hfull; [lia|].
  rewrite mainCycle_S.
  assert (Hcount : counting opts st) by (split; lia).
  rewrite (maxReadLength_fits opts st ltac:(lia) Hcount
             ltac:(pose proof (len_nonneg reader); lia)).
  destruct (Read_cases reader (maxReadLength opts st)
              (maxReadLength_pos opts st ltac:(lia) ltac:(lia) Hcount))
    as [[-> ->]|(Hne & -> & _)].
  - cbv iota zeta.
    destruct (iteration_total T opts conv [] true st) as [_ Hs].
    destruct (iteration T opts conv [] true st) as [[w st'] stop].
    simpl in Hs. subst stop. rewrite List.skipn_nil. eauto.
  - cbv iota zeta.
    pose proof (len_nonneg reader) as Hnn.
    assert (Hfull' : totalReadBytes st = 0 \/ BlockSize opts <= totalReadBytes st)
      by (destruct Hfull as [->|H]; [congruence|exact H]).
    rewrite (maxReadLength_limited opts HLim HB st Ht ltac:(lia) Hfull').
    remember (Z.min (BlockSize opts) (Limit opts - totalReadBytes st)) as n eqn:En.
    set (c := firstn (Z.to_nat n) reader).
    set (rest := skipn (Z.to_nat n) reader).
    assert (Hlenc : List.length c = Nat.min (Z.to_nat n) (List.length reader))
      by apply List.length_firstn.
    assert (Hlenr : List.length rest = (List.length reader - Z.to_nat n)%nat)
      by apply List.length_skipn.
    assert (Hrne : (0 < List.length reader)%nat)
      by (destruct reader; [congruence|simpl; lia]).
    destruct (iteration_total T opts conv c false st) as [Htot Hs].
    destruct (iteration T opts conv c false st) as [[w st'] stop].
    simpl in Htot, Hs.
    assert (Hadd : uint_add (totalReadBytes st) (len c) = totalReadBytes st + len c).
    { unfold uint_add, uint, uint_modulus, len in *. apply Z.mod_small. lia. }
    rewrite Hadd in *.
    replace (0 <? Limit opts) with true in Hs by (symmetry; apply Z.ltb_lt; lia).
    simpl in Hs. subst stop.
    destruct (Z.leb_spec (Limit opts) (totalReadBytes st + len c)) as [Hstop|Hgo].
    + eexists. f_equal. f_equal. unfold rest. f_equal. unfold len in *. lia.
    + destruct (IH rest st' (sink ++ w)) as [w' Hw'].
      * lia.
      * unfold len in *. lia.
      * unfold len in *. lia.
      * destruct rest eqn:Hrest0; [left; reflexivity|right; right].
        simpl List.length in Hlenr. unfold len in *. lia.
      * exists w'. rewrite Hw'. f_equal. f_equal. unfold rest.
        destruct (Nat.le_gt_cases (List.length reader) (Z.to_nat n)) as [Hall|Hpart].
        -- rewrite (List.skipn_all2 reader Hall), List.skipn_nil.
           symmetry. apply List.skipn_all2. unfold len in *. lia.
        -- rewrite List.skipn_skipn. f_equal. unfold len in *. lia.
Qed.
End Window.

(** Lines 136-226 when the offset lies inside the source. *)
Lemma processFrom_reads_window T opts conv input :
  0 <= Offset opts <= len input ->
  1 <= BlockSize opts <= runtime.maxAlloc ->
  0 <= Limit opts < uint_modulus ->
  len input < 2 ^ 63 ->
  exists w,
    processFrom T opts conv (S (List.length input)) input
    = Some {| err := None; written := w;
              unread := if 0 <? Limit opts
                        then skipn (Z.to_nat (Limit opts))
                               (skipn (Z.to_nat (Offset opts)) input)
                        else [] |}.
Proof.
  intros HO [HB1 HA] HL H63.
  assert (HB : 1 <= BlockSize opts < uint_modulus)
    by (unfold runtime.maxAlloc, uint_modulus in *; lia).
  unfold processFrom.
  assert (Hd : CopyN_Discard input (Offset opts)
               = (Z.max 0 (Offset opts), None,
                  skipn (Z.to_nat (Offset opts)) input)).
  { unfold CopyN_Discard. destruct (Z.leb_spec (Offset opts) 0) as [H0|H0].
    - replace (Offset opts) with 0 by lia. reflexivity.
    - replace (Offset opts <=? len input) with true
        by (symmetry; apply Z.leb_le; lia).
      f_equal. f_equal. lia. }
  rewrite Hd.
  set (reader := skipn (Z.to_nat (Offset opts)) input).
  assert (Hlen : (List.length reader <= List.length input)%nat)
    by (unfold reader; rewrite List.length_skipn; lia).
  destruct (Z.ltb_spec 0 (Limit opts)) as [Hpos|Hzero].
  - destruct (mainCycle_reads_limit T opts conv HB HA (S (List.length input))
                reader initialState []) as [w Hw].
    + lia.
    + lia.
    + simpl. lia.
    + simpl. unfold len in *. lia.
    + right. left. reflexivity.
    + exists w. rewrite Hw. simpl totalReadBytes. rewrite Z.sub_0_r. reflexivity.
  - apply (mainCycle_reads_all T opts conv HB HA); lia.
Qed.

(** X3. A run whose offset lies inside the source, with a block that
    [make] allocates, ends without an error and has read exactly the
    window it was asked for: with [Limit = 0] the whole source, and with
    a positive [Limit] the [Limit] bytes after the offset and not one
    byte more, whatever the conversions. *)
Theorem process_reads_window T opts conv input :
  ParseConv opts = inr conv ->
  0 <= Offset opts <= len input ->
  1 <= BlockSize opts <= runtime.maxAlloc ->
  0 <= Limit opts < uint_modulus ->
  len input < 2 ^ 63 ->
  exists w,
    process T opts input
    = Some {| err := None; written := w;
              unread := if 0 <? Limit opts
                        then skipn (Z.to_nat (Limit opts))
                               (skipn (Z.to_nat (Offset opts)) input)
                        else [] |}.
Proof.
  intros Hc HO HB HL H63. unfold process. rewrite Hc.
  apply processFrom_reads_window; assumption.
Qed.

Lemma process_reads_window_witness :
  exists w,
    process unicode.CaseRanges_head
      {| Offset := 2; Limit := 5; BlockSize := 3; Conv := "trim_spaces" |}
      (bs "ab  cdefghij")
    = Some {| err := None; written := w; unread := bs "fghij" |}.
Proof.
  destruct (process_reads_window unicode.CaseRanges_head
              {| Offset := 2; Limit := 5; BlockSize := 3; Conv := "trim_spaces" |}
              [TrimSpaces] (bs "ab  cdefghij")) as [w Hw].
  - reflexivity.
  - vm_compute. split; discriminate.
  - vm_compute. split; discriminate.
  - vm_compute. split; [discriminate|reflexivity].
  - vm_compute. reflexivity.
  - exists w. exact Hw.
Defined.

(** ** [Validate] and [process] together *)

(** X4. Options that [Validate] accepts for a source file, with a block
    that [make] allocates, make [process] run to the end without an
    error on that file once both files are open: the offset that
    [Validate] compared with the size of the file is the one [io.CopyN]
    can discard, and the conversions it parsed are the ones [process]
    parses. Only the opening of a file can still fail. *)
Theorem validated_options_run T fs stdin f opts input :
  Validate (Stat fs) f opts = None ->
  From f <> ""%string -> Stat fs (From f) = StatSize (len input) ->
  Open fs (From f) = Some input ->
  To f = ""%string \/ OpenFile fs (To f) = true ->
  1 <= BlockSize opts <= runtime.maxAlloc ->
  0 <= Limit opts < uint_modulus ->
  len input < 2 ^ 63 ->
  exists o, processFiles T fs stdin f opts = Some o /\ err o = None.
Proof.
  intros HV Hfrom Hstat Hopen Hto HB HL H63. unfold Validate in HV. cbv zeta in HV.
  apply String.eqb_neq in Hfrom. rewrite Hfrom, Hstat in HV. simpl negb in HV.
  cbv iota in HV.
  destruct (Z.ltb_spec (len input) (Offset opts)) as [Hbig|Hin]; [discriminate|].
  destruct (if negb (String.eqb (To f) "") then _ else _); [discriminate|].
  assert (Hconv : exists conv, ParseConv opts = inr conv).
  { unfold ParseConv in *. destruct (String.eqb (Conv opts) ""); [eauto|].
    simpl negb in HV. cbv iota in HV.
    destruct (ParseConv_loop _ _ _) as [e|conv]; [discriminate|eauto]. }
  destruct Hconv as [conv Hconv].
  assert (Hoff : 0 <= Offset opts).
  { destruct (if negb (String.eqb (Conv opts) "") then _ else _); [discriminate|].
    destruct (Z.ltb_spec (Offset opts) 0); [discriminate|assumption]. }
  unfold processFiles. rewrite Hconv, Hfrom. simpl negb. cbv iota zeta.
  rewrite Hopen.
  replace (negb (String.eqb (To f) "") && negb (OpenFile fs (To f)))%bool
    with false
    by (symmetry; destruct Hto as [-> | ->]; [reflexivity|simpl; apply andb_false_r]).
  destruct (processFrom_reads_window T opts conv input) as [w Hw];
    try assumption; [lia|].
  eexists. split; [exact Hw|reflexivity].
Qed.

Lemma validated_options_run_witness :
  exists o,
    processFiles unicode.CaseRanges_head
      {| Stat := fun path => if String.eqb path "in.txt" then StatSize 5
                             else StatNotExist;
         Open := fun path => if String.eqb path "in.txt" then Some (bs "hello")
                             else None;
         OpenFile := fun path => String.eqb path "out.txt" |}
      [] {| From := "in.txt"; To := "out.txt" |}
      {| Offset := 2; Limit := 0; BlockSize := 3; Conv := "upper_case" |}
    = Some o
    /\ err o = None.
Proof.
  apply (validated_options_run unicode.CaseRanges_head
           {| Stat := fun path => if String.eqb path "in.txt" then StatSize 5
                                  else StatNotExist;
              Open := fun path => if String.eqb path "in.txt" then Some (bs "hello")
                                  else None;
              OpenFile := fun path => String.eqb path "out.txt" |}
           [] {| From := "in.txt"; To := "out.txt" |}
           {| Offset := 2; Limit := 0; BlockSize := 3; Conv := "upper_case" |}
           (bs "hello")).
  - reflexivity.
  - discriminate.
  - reflexivity.
  - reflexivity.
  - right. reflexivity.
  - vm_compute. split; discriminate.
  - vm_compute. split; [discriminate|reflexivity].
  - vm_compute. reflexivity.
Defined.

(** ** A block size of zero *)

(** With [BlockSize = 0] the buffer of line 153 is empty, [Read] returns
    [0, nil], and a turn of the main cycle changes nothing. *)
Lemma mainCycle_zero_block T opts conv fuel reader e sink :
  BlockSize opts = 0 -> 0 <= Limit opts ->
  mainCycle T opts conv fuel reader
    {| prevBuffer := []; isSpaceEnded := e; totalReadBytes := 0 |} sink = None.
Proof.
  intros HB HL. revert sink.
  induction fuel as [|fuel IH]; intros sink; [reflexivity|].
  rewrite mainCycle_S.
  assert (Hm : maxReadLength opts
                 {| prevBuffer := []; isSpaceEnded := e; totalReadBytes := 0 |} = 0).
  { unfold maxReadLength. simpl totalReadBytes. rewrite HB.
    change (uint_add 0 0) with 0.
    replace (Limit opts <? 0) with false by (symmetry; apply Z.ltb_ge; lia).
    rewrite andb_false_r. reflexivity. }
  rewrite Hm. change (runtime.makeslicePanics 0) with false. cbv iota.
  change (Read reader 0) with (@nil byte, @None ReadErr, reader).
  cbv iota zeta. unfold iteration. cbv zeta. simpl prevBuffer. simpl totalReadBytes.
  change (uint_add 0 (len [])) with 0.
  replace ((0 <? Limit opts) && (Limit opts <=? 0))%bool with false
    by (symmetry; apply andb_false_iff;
        destruct (Z.ltb_spec 0 (Limit opts));
        [right; apply Z.leb_gt; lia | left; reflexivity]).
  simpl orb. cbv iota.
  change (SymbolIterate T opts conv ([] ++ []) e)
    with {| writerBuf := []; buffer := []; spaceEnded := e; exit := Consumed |}.
  simpl prevBuffer. simpl spaceEnded. apply IH.
Qed.

(** X5. Once the conversions are parsed, a run whose offset lies inside
    the source ends, by a return or by the panic of line 153, if and
    only if the block size is not zero: with [BlockSize = 0] the main
    cycle reads nothing, turn after turn, and no number of turns is
    enough. *)
Theorem process_ends_iff_block_size T opts conv input :
  0 <= Offset opts <= len input ->
  0 <= BlockSize opts -> 0 <= Limit opts < uint_modulus ->
  (exists fuel o, processFrom T opts conv fuel input = Some o)
  <-> 1 <= BlockSize opts.
Proof.
  intros HO HB HL.
  assert (Hd : CopyN_Discard input (Offset opts)
               = (Z.max 0 (Offset opts), None,
                  skipn (Z.to_nat (Offset opts)) input)).
  { unfold CopyN_Discard. destruct (Z.leb_spec (Offset opts) 0) as [H0|H0].
    - replace (Offset opts) with 0 by lia. reflexivity.
    - replace (Offset opts <=? len input) with true
        by (symmetry; apply Z.leb_le; lia).
      f_equal. f_equal. lia. }
  unfold processFrom. rewrite Hd. split.
  - intros (fuel & o & Hrun).
    destruct (Z.eq_dec (BlockSize opts) 0) as [H0|H0]; [|lia].
    unfold initialState in Hrun.
    rewrite (mainCycle_zero_block T opts conv fuel _ false [] H0) in Hrun by lia.
    discriminate.
  - intros H1. exists (S (List.length input)).
    apply mainCycle_returns; try assumption.
    + apply initial_counting. lia.
    + rewrite List.length_skipn. lia.
Qed.

Lemma process_ends_iff_block_size_witness :
  (exists fuel o,
     processFrom unicode.CaseRanges_head
       {| Offset := 1; Limit := 2; BlockSize := 0; Conv := "" |} [] fuel
       (bs "abc") = Some o)
  <-> 1 <= 0.
Proof.
  apply (process_ends_iff_block_size unicode.CaseRanges_head
           {| Offset := 1; Limit := 2; BlockSize := 0; Conv := "" |} []
           (bs "abc")).
  - vm_compute. split; discriminate.
  - vm_compute. discriminate.
  - vm_compute. split; [discriminate|reflexivity].
Defined.

(** ** The size of the blocks written *)

Lemma AppendRune_len p r : len p < len (utf8.AppendRune p r) <= len p + 4.
Proof.
  unfold utf8.AppendRune, utf8.appendRuneNonASCII. cbv zeta.
  repeat match goal with |- context [if ?c then _ else _] => destruct c end;
    rewrite len_app; unfold len; simpl List.length; lia.
Qed.

Lemma TrimRightFunc_len s f : len (bytes.TrimRightFunc s f) <= len s.
Proof.
  unfold bytes.TrimRightFunc, len. cbv zeta. rewrite List.length_firstn. lia.
Qed.

(** The guard of line 200 keeps [writerBuf] within the block. *)
Lemma SymbolIterate_loop_block T opts conv fuel buf w e :
  BlockSize opts < 2 ^ 63 -> len w <= BlockSize opts ->
  len (writerBuf (SymbolIterate_loop T opts conv fuel buf w e)) <= BlockSize opts.
Proof.
  intros HB. revert buf w e.
  induction fuel as [|fuel IH]; intros buf w e Hw; [exact Hw|].
  rewrite SymbolIterate_loop_S.
  destruct (0 <? len buf) eqn:Hlen; [|exact Hw].
  destruct (utf8.DecodeRune buf) as [r size] eqn:Hd.
  destruct ((len buf <? 3) && _)%bool; [exact Hw|].
  destruct (handleConv T conv r e) as [[r'|] e']; cbv zeta; [|apply IH, Hw].
  destruct (BlockSize opts <? _) eqn:Hfull; [exact Hw|].
  apply IH. apply Z.ltb_ge in Hfull.
  assert (Hsmall : len (if r' =? utf8.RuneError then [] ++ firstn size buf
                        else utf8.AppendRune w r') < uint_modulus).
  { destruct (r' =? utf8.RuneError).
    - assert (Hs : (1 <= snd (utf8.DecodeRune buf) <= 4)%nat).
      { apply DecodeRune_size. intros ->. discriminate. }
      rewrite Hd in Hs. simpl in Hs.
      change ([] ++ firstn size buf) with (firstn size buf).
      unfold len, uint_modulus. rewrite List.length_firstn. lia.
    - pose proof (AppendRune_len w r'). pose proof (len_nonneg w).
      unfold uint_modulus. lia. }
  unfold uint in Hfull. rewrite Z.mod_small in Hfull; [exact Hfull|].
  split; [apply len_nonneg | exact Hsmall].
Qed.

(** X6. What a turn of the main cycle writes at line 213 is never longer
    than [BlockSize]; only the bytes flushed at line 219 in the last turn
    come on top of it. *)
Theorem written_block_within_BlockSize T opts conv chunk endFile st :
  0 <= BlockSize opts < 2 ^ 63 ->
  exists block,
    len block <= BlockSize opts
    /\ let '(w, st', stop) := iteration T opts conv chunk endFile st in
       w = block ++ (if stop then prevBuffer st' else []).
Proof.
  intros HB. unfold iteration. cbv zeta.
  set (sy := SymbolIterate T opts conv (prevBuffer st ++ chunk) (isSpaceEnded st)).
  assert (Hsy : len (writerBuf sy) <= BlockSize opts).
  { apply SymbolIterate_loop_block; [lia | change (len []) with 0; lia]. }
  exists (if spaceEnded sy then bytes.TrimRightFunc (writerBuf sy) unicode.IsSpace
          else writerBuf sy).
  split.
  - destruct (spaceEnded sy); [|exact Hsy].
    pose proof (TrimRightFunc_len (writerBuf sy) unicode.IsSpace). lia.
  - destruct (endFile || _)%bool; [reflexivity|].
    symmetry. apply List.app_nil_r.
Qed.

Lemma written_block_within_BlockSize_witness :
  exists block,
    len block <= 4
    /\ let '(w, st', stop) :=
         iteration unicode.CaseRanges_head
           {| Offset := 0; Limit := 0; BlockSize := 4; Conv := "" |} []
           (bs "abcdef") true initialState in
       w = block ++ (if stop then prevBuffer st' else []).
Proof.
  apply (written_block_within_BlockSize unicode.CaseRanges_head
           {| Offset := 0; Limit := 0; BlockSize := 4; Conv := "" |} []
           (bs "abcdef") true initialState).
  vm_compute. split; [discriminate|reflexivity].
Defined.

(** ** Windows of one-byte runes *)

Lemma convertASCII_case T c _case e input :
  (c = UpperCase /\ _case = unicode.UpperCase)
  \/ (c = LowerCase /\ _case = unicode.LowerCase) ->
  convertASCII T [c] e input
  = (map (fun b => z2b (unicode.To T _case (b2z b))) input, e).
Proof.
  intros Hc. induction input as [|b input IH]; [reflexivity|].
  destruct Hc as [[-> ->]|[-> ->]]; simpl; simpl in IH; rewrite IH; reflexivity.
Qed.

(** X7. With the conversion [upper_case], or [lower_case], alone, a
    source of one-byte runes is converted byte by byte: what is written
    is the window of the source with [unicode.To] applied to every byte,
    whatever the block size, among those that [make] allocates. *)
Theorem ascii_case_converted T opts name _case input :
  caseKeepsASCII T ->
  (name = "upper_case"%string /\ _case = unicode.UpperCase)
  \/ (name = "lower_case"%string /\ _case = unicode.LowerCase) ->
  Conv opts = name -> isASCII input ->
  Offset opts <= len input ->
  0 <= Limit opts < uint_modulus -> (0 < Limit opts -> len input < 2 ^ 63) ->
  1 <= BlockSize opts <= runtime.maxAlloc ->
  process T opts input
  = Some {| err := None;
            written := map (fun b => z2b (unicode.To T _case (b2z b)))
                           (copied opts input);
            unread := if 0 <? Limit opts
                      then skipn (Z.to_nat (Limit opts))
                             (skipn (Z.to_nat (Offset opts)) input)
                      else [] |}.
Proof.
  intros HT Hname Hconv Hin HO HL H63 HB.
  assert (Hparse : exists c, ParseConv opts = inr [c]
                    /\ ((c = UpperCase /\ _case = unicode.UpperCase)
                        \/ (c = LowerCase /\ _case = unicode.LowerCase))).
  { unfold ParseConv. rewrite Hconv.
    destruct Hname as [[-> ->]|[-> ->]];
      [exists UpperCase | exists LowerCase]; split; auto. }
  destruct Hparse as (c & Hparse & Hc).
  rewrite (process_ascii T opts [c] input); try assumption.
  - rewrite (convertASCII_case T c _case false _ Hc). reflexivity.
  - right. intros [H|[]]. destruct Hc as [[-> _]|[-> _]]; discriminate.
Qed.

Lemma ascii_case_converted_witness :
  process unicode.CaseRanges_head
    {| Offset := 1; Limit := 0; BlockSize := 2; Conv := "lower_case" |}
    (bs "A Bc,D")
  = Some {| err := None; written := bs " bc,d"; unread := [] |}.
Proof.
  apply (ascii_case_converted unicode.CaseRanges_head
           {| Offset := 1; Limit := 0; BlockSize := 2; Conv := "lower_case" |}
           "lower_case" unicode.LowerCase (bs "A Bc,D")).
  - exact CaseRanges_head_keeps_ASCII.
  - right. split; reflexivity.
  - reflexivity.
  - unfold isASCII. repeat constructor.
  - vm_compute. discriminate.
  - vm_compute. split; [discriminate|reflexivity].
  - intros H. vm_compute in H. discriminate.
  - vm_compute. split; discriminate.
Defined.

(** ** One-byte runes, block by block *)

Section Blockwise.
Variable T : list unicode.CaseRange.
Hypothesis HT : caseKeepsASCII T.
Variable opts : Options.
Variable conv : list ConvOption.
Hypothesis HB : 1 <= BlockSize opts < uint_modulus.
Hypothesis HA : BlockSize opts <= runtime.maxAlloc.

Lemma mainCycle_blockwise fuel reader st sink :
  Limit opts = 0 ->
  isASCII reader -> (List.length reader < fuel)%nat -> prevBuffer st = [] ->
  exists w,
    mainCycle T opts conv fuel reader st sink
    = Some {| err := None; written := sink ++ w; unread := [] |}
    /\ blockwise T conv (isSpaceEnded st) reader w.
Proof using HT HB HA.
  intros HL. revert reader st sink.
  induction fuel as [|fuel IH]; intros reader st sink Hr Hf Hp; [lia|].
  rewrite mainCycle_S, (maxReadLength_unlimited opts HL), (makeslice_fits _ HA).
  destruct (Read_cases reader (BlockSize opts) ltac:(lia)) as [[-> ->]|(Hne & -> & Hlt)].
  - cbv iota zeta.
    rewrite (iteration_ascii T HT opts conv HL HB) by (try assumption; unfold len; simpl; lia).
    simpl. rewrite trimBlock_nil. exists []. split; [reflexivity|constructor].
  - cbv iota zeta.
    destruct (isASCII_split reader (Z.to_nat (BlockSize opts)) Hr) as [Hc Hrest].
    rewrite (iteration_ascii T HT opts conv HL HB);
      [ | exact Hc | unfold len; rewrite List.length_firstn; lia | exact Hp ].
    set (c := firstn (Z.to_nat (BlockSize opts)) reader) in *.
    set (rest := skipn (Z.to_nat (BlockSize opts)) reader) in *.
    pose proof (blockwise_block T conv (isSpaceEnded st) c rest) as Hblock.
    destruct (convertASCII T conv (isSpaceEnded st) c) as [out1 e1].
    cbv iota.
    destruct (IH rest {| prevBuffer := []; isSpaceEnded := e1;
                         totalReadBytes := uint_add (totalReadBytes st) (len c) |}
                (sink ++ trimBlock e1 out1) Hrest ltac:(lia) eq_refl) as (w & Hw & Hbw).
    exists (trimBlock e1 out1 ++ w). split.
    + rewrite Hw, List.app_assoc. reflexivity.
    + replace reader with (c ++ rest) by apply List.firstn_skipn.
      apply Hblock. exact Hbw.
Qed.

Lemma mainCycle_blockwise_limit fuel reader st sink :
  0 < Limit opts < uint_modulus ->
  isASCII reader -> (List.length reader < fuel)%nat -> prevBuffer st = [] ->
  0 <= totalReadBytes st < Limit opts ->
  totalReadBytes st + len reader < 2 ^ 63 ->
  reader = [] \/ totalReadBytes st = 0 \/ BlockSize opts <= totalReadBytes st ->
  exists w,
    mainCycle T opts conv fuel reader st sink
    = Some {| err := None; written := sink ++ w;
              unread := skipn (Z.to_nat (Limit opts - totalReadBytes st)) reader |}
    /\ blockwise T conv (isSpaceEnded st)
         (firstn (Z.to_nat (Limit opts - totalReadBytes st)) reader) w.
Proof using HT HB HA.
  intros HLim. revert reader st sink.
  induction fuel as [|fuel IH];
    intros reader st sink Hr Hf Hp Ht H63 Hfull; [lia|].
  rewrite mainCycle_S.
  assert (Hcount : counting opts st) by (split; lia).
  rewrite (maxReadLength_fits opts st ltac:(lia) Hcount
             ltac:(pose proof (len_nonneg reader); lia)).
  destruct (Read_cases reader (maxReadLength opts st)
              (maxReadLength_pos opts st ltac:(lia) ltac:(lia) Hcount))
    as [[-> ->]|(Hne & -> & Hlt)].
  - cbv iota zeta.
    rewrite (iteration_ascii_limit T HT opts conv HLim HB)
      by (try assumption; try constructor; change (len []) with 0; lia).
    simpl. rewrite List.firstn_nil, List.skipn_nil, trimBlock_nil.
    exists []. split; [reflexivity|constructor].
  - cbv iota zeta.
    pose proof (len_nonneg reader) as Hnn.
    assert (Hfull' : totalReadBytes st = 0 \/ BlockSize opts <= totalReadBytes st)
      by (destruct Hfull as [->|H]; [congruence|exact H]).
    rewrite (maxReadLength_limited opts HLim HB st Ht ltac:(lia) Hfull') in *.
    remember (Z.min (BlockSize opts) (Limit opts - totalReadBytes st)) as n eqn:En.
    remember (Z.to_nat (Limit opts - totalReadBytes st)) as room eqn:Eroom.
    set (c := firstn (Z.to_nat n) reader) in *.
    set (rest := skipn (Z.to_nat n) reader) in *.
    assert (Hsplit : reader = c ++ rest) by (symmetry; apply List.firstn_skipn).
    assert (Hlt' : (List.length rest < List.length reader)%nat).
    { unfold rest. rewrite List.length_skipn.
      destruct reader; [congruence | simpl List.length; lia]. }
    destruct (isASCII_split reader (Z.to_nat n) Hr) as [Hc Hrest].
    fold c in Hc. fold rest in Hrest.
    assert (Hlenc : len c <= n) by (unfold len, c; rewrite List.length_firstn; lia).
    assert (Hlens : len reader = len c + len rest) by (rewrite Hsplit at 1; apply len_app).
    pose proof (len_nonneg c) as Hnc. pose proof (len_nonneg rest) as Hnr.
    assert (Hcroom : (List.length c <= room)%nat) by (unfold len in Hlenc; lia).
    assert (HW : firstn room reader = c ++ firstn (room - List.length c) rest)
      by (rewrite Hsplit at 1; apply firstn_app_le, Hcroom).
    assert (HU : skipn room reader = skipn (room - List.length c) rest)
      by (rewrite Hsplit at 1; apply skipn_app_le, Hcroom).
    rewrite (iteration_ascii_limit T HT opts conv HLim HB) by (try assumption; lia).
    pose proof (blockwise_block T conv (isSpaceEnded st) c
                  (firstn (room - List.length c) rest)) as Hblock.
    rewrite HW, HU.
    destruct (convertASCII T conv (isSpaceEnded st) c) as [out1 e1].
    simpl orb. simpl in Hblock.
    destruct (Z.leb_spec (Limit opts) (totalReadBytes st + len c)) as [Hstop|Hgo].
    + assert (Hroom0 : (room - List.length c = 0)%nat) by (unfold len in *; lia).
      rewrite Hroom0 in *. simpl firstn in *. simpl skipn.
      exists (trimBlock e1 out1 ++ []). split.
      * rewrite List.app_nil_r. reflexivity.
      * apply Hblock. constructor.
    + destruct (IH rest {| prevBuffer := []; isSpaceEnded := e1;
                           totalReadBytes := totalReadBytes st + len c |}
                  (sink ++ trimBlock e1 out1)) as (w & Hw & Hbw);
        try assumption.
      * lia.
      * reflexivity.
      * simpl. lia.
      * simpl. lia.
      * simpl totalReadBytes.
        destruct rest eqn:Hrest0; [left; reflexivity|right; right].
        assert (Z.to_nat n < List.length reader)%nat.
        { destruct (Nat.lt_ge_cases (Z.to_nat n) (List.length reader)) as [H|H]; [exact H|].
          exfalso. unfold rest in Hrest0. rewrite List.skipn_all2 in Hrest0 by exact H.
          discriminate. }
        unfold len in *. unfold c in Hgo |- *. rewrite List.length_firstn in *. lia.
      * simpl isSpaceEnded in *. simpl totalReadBytes in *.
        replace (Z.to_nat (Limit opts - (totalReadBytes st + len c)))
          with (room - List.length c)%nat in * by (unfold len; lia).
        exists (trimBlock e1 out1 ++ w). split.
        -- rewrite Hw, List.app_assoc. reflexivity.
        -- apply Hblock. exact Hbw.
Qed.

(** What [process] writes for a source of one-byte runes. *)
Lemma process_blockwise input :
  ParseConv opts = inr conv ->
  Offset opts <= len input -> 0 <= Limit opts < uint_modulus ->
  (0 < Limit opts -> len input < 2 ^ 63) ->
  isASCII input ->
  exists w,
    process T opts input
    = Some {| err := None; written := w;
              unread := if 0 <? Limit opts
                        then skipn (Z.to_nat (Limit opts))
                               (skipn (Z.to_nat (Offset opts)) input)
                        else [] |}
    /\ blockwise T conv false (copied opts input) w.
Proof using HT HB HA.
  intros Hconv Hoff HL H63 Hin. unfold process. rewrite Hconv.
  unfold processFrom.
  assert (Hdiscard : exists n, CopyN_Discard input (Offset opts)
                               = (n, None, skipn (Z.to_nat (Offset opts)) input)).
  { unfold CopyN_Discard. destruct (Z.leb_spec (Offset opts) 0) as [H0|H0].
    - exists 0. replace (Z.to_nat (Offset opts)) with 0%nat by lia. reflexivity.
    - exists (Offset opts).
      replace (Offset opts <=? len input) with true by (symmetry; apply Z.leb_le; lia).
      reflexivity. }
  destruct Hdiscard as [n ->].
  set (reader := skipn (Z.to_nat (Offset opts)) input) in *.
  assert (Hreader : isASCII reader) by apply (isASCII_split input _ Hin).
  assert (Hlen : (List.length reader <= List.length input)%nat)
    by (unfold reader; rewrite List.length_skipn; lia).
  unfold copied. fold reader.
  destruct (Z.ltb_spec 0 (Limit opts)) as [Hpos|Hzero].
  - destruct (mainCycle_blockwise_limit (S (List.length input)) reader
                initialState []) as (w & Hw & Hbw);
      try assumption; try reflexivity.
    + lia.
    + lia.
    + simpl. lia.
    + simpl. specialize (H63 Hpos). unfold len in *. lia.
    + right; left; reflexivity.
    + simpl totalReadBytes in *. rewrite Z.sub_0_r in *.
      exists w. split; assumption.
  - destruct (mainCycle_blockwise (S (List.length input)) reader
                initialState []) as (w & Hw & Hbw);
      try assumption; try reflexivity; [lia|lia|].
    exists w. split; assumption.
Qed.

End Blockwise.

(** ** [trim_spaces] on one-byte runes *)

(** What [bytes.TrimRightFunc] cuts off a slice of one-byte runes is a run
    of white space, and what it leaves does not end in white space. *)
Lemma TrimRightFunc_ascii s :
  isASCII s ->
  exists sp,
    s = bytes.TrimRightFunc s unicode.IsSpace ++ sp /\ blank sp
    /\ forall front b, bytes.TrimRightFunc s unicode.IsSpace = front ++ [b] ->
                       unicode.IsSpace (b2z b) = false.
Proof.
  induction s as [|b s IH] using List.rev_ind; intros Hs.
  - exists []. rewrite TrimRightFunc_nil. repeat split; [constructor|].
    intros [|? ?] ? H; discriminate.
  - destruct (isASCII_snoc _ _ Hs) as [Hs' Hb].
    destruct (unicode.IsSpace (b2z b)) eqn:Hsp.
    + rewrite (TrimRightFunc_snoc_space s b Hs Hsp).
      destruct (IH Hs') as (sp & Heq & Hblank & Hlast).
      exists (sp ++ [b]). split; [|split].
      * rewrite List.app_assoc, <- Heq. reflexivity.
      * apply List.Forall_app. split; [exact Hblank|]. constructor; [exact Hsp|constructor].
      * exact Hlast.
    + rewrite (TrimRightFunc_snoc_nonspace s b Hs Hsp).
      exists []. split; [|split].
      * rewrite List.app_nil_r. reflexivity.
      * constructor.
      * intros front b' H. apply List.app_inj_tail in H as [_ ->]. exact Hsp.
Qed.

Section Trim.
Variable T : list unicode.CaseRange.
Hypothesis HT : caseKeepsASCII T.
Variable conv : list ConvOption.
Hypothesis Htrim : In TrimSpaces conv.

(** Once [isSpaceEnded] is set, no rune is skipped and it stays set. *)
Lemma handleConv_ended convs r :
  exists r', handleConv T convs r true = (Some r', true).
Proof.
  revert r. induction convs as [|c convs IH]; intros r; simpl; [eauto|].
  destruct (ConvOption_eqb c TrimSpaces); [|apply IH].
  destruct (unicode.IsSpace _); apply IH.
Qed.

(** With [trim_spaces] among the conversions and [isSpaceEnded] not set, a
    white space rune is skipped, and any other rune sets it. *)
Lemma handleConv_trim convs r :
  In TrimSpaces convs -> 0 <= r < utf8.RuneSelf ->
  if unicode.IsSpace r then handleConv T convs r false = (None, false)
  else exists r', handleConv T convs r false = (Some r', true)
                  /\ 0 <= r' < utf8.RuneSelf /\ unicode.IsSpace r' = false.
Proof using HT.
  revert r. induction convs as [|c convs IH]; intros r Hin Hr; [destruct Hin|].
  destruct c; simpl.
  - destruct Hin as [Hin|Hin]; [discriminate|].
    destruct (HT unicode.UpperCase r (or_introl eq_refl) Hr) as [Hu Hs].
    rewrite <- Hs. apply IH; assumption.
  - destruct Hin as [Hin|Hin]; [discriminate|].
    destruct (HT unicode.LowerCase r (or_intror eq_refl) Hr) as [Hu Hs].
    rewrite <- Hs. apply IH; assumption.
  - destruct (unicode.IsSpace r) eqn:Hsp; [reflexivity|].
    pose proof (handleConv_ascii T HT convs r true Hr) as Hh.
    destruct (handleConv_ended convs r) as [r' Hr']. rewrite Hr' in Hh.
    destruct Hh as (H1 & H2 & _). exists r'. rewrite H2. auto.
Qed.

Lemma convertASCII_ended buf :
  snd (convertASCII T conv true buf) = true.
Proof.
  induction buf as [|b buf IH]; [reflexivity|]. simpl.
  destruct (handleConv_ended conv (b2z b)) as [r' ->].
  destruct (convertASCII T conv true buf) as [out e]. exact IH.
Qed.

Lemma convertASCII_blank buf :
  isASCII buf -> blank buf -> convertASCII T conv false buf = ([], false).
Proof using HT Htrim.
  intros Ha Hb. induction Hb as [|b buf Hsp _ IH]; [reflexivity|].
  apply List.Forall_cons_iff in Ha as [Hb Ha]. simpl.
  pose proof (handleConv_trim conv (b2z b) Htrim
                (conj (proj1 (b2z_range b)) Hb)) as Hh.
  rewrite Hsp in Hh. rewrite Hh. apply IH, Ha.
Qed.

(** Until a rune that is not white space comes, nothing is kept. *)
Lemma convertASCII_trim buf :
  isASCII buf ->
  convertASCII T conv false buf = ([], false)
  \/ exists b out, convertASCII T conv false buf = (b :: out, true)
                   /\ unicode.IsSpace (b2z b) = false.
Proof using HT Htrim.
  intros Ha. induction Ha as [|b buf Hb _ IH]; [left; reflexivity|]. simpl.
  pose proof (handleConv_trim conv (b2z b) Htrim
                (conj (proj1 (b2z_range b)) Hb)) as Hh.
  destruct (unicode.IsSpace (b2z b)) eqn:Hsp.
  - rewrite Hh. exact IH.
  - destruct Hh as (r' & -> & Hr' & Hs'). right.
    pose proof (convertASCII_ended buf) as He.
    destruct (convertASCII T conv true buf) as [out e]. simpl in He. subst e.
    exists (z2b r'), out. split; [reflexivity|].
    unfold utf8.RuneSelf in Hr'. rewrite b2z_z2b by lia. exact Hs'.
Qed.

(** What is written neither begins nor ends with white space. *)
Lemma blockwise_edges e window w :
  blockwise T conv e window w -> isASCII window ->
  (forall front b, w = front ++ [b] -> unicode.IsSpace (b2z b) = false)
  /\ (e = false -> forall b rest, w = b :: rest -> unicode.IsSpace (b2z b) = false).
Proof using HT Htrim.
  intros Hbw. induction Hbw as [e|e chunk rest w Hbw IH]; intros Ha.
  - split; [intros [|? ?] ? H; discriminate | intros _ ? ? H; discriminate].
  - apply List.Forall_app in Ha as [Hc Hrest].
    specialize (IH Hrest). destruct IH as [IHlast IHhead].
    pose proof (convertASCII_isASCII T HT conv e chunk Hc) as Hout.
    pose proof (convertASCII_ended chunk) as Hended.
    pose proof (convertASCII_trim chunk Hc) as Hfirst.
    destruct (TrimRightFunc_ascii _ Hout) as (sp & Heq & Hblank & Hlast).
    destruct (convertASCII T conv e chunk) as [out e'] eqn:Hconv.
    simpl fst in *. simpl snd in *.
    (* the block written *)
    assert (Htb : (trimBlock e' out = [] /\ (e = false -> e' = false))
                  \/ (e' = true
                      /\ trimBlock e' out = bytes.TrimRightFunc out unicode.IsSpace
                      /\ trimBlock e' out <> []
                      /\ (e = false -> exists b t, trimBlock e' out = b :: t
                                         /\ unicode.IsSpace (b2z b) = false))).
    { destruct e.
      - rewrite Hconv in Hended. simpl in Hended. subst e'. simpl trimBlock.
        destruct (bytes.TrimRightFunc out unicode.IsSpace) eqn:Ht.
        + left. split; [reflexivity|discriminate].
        + right. repeat split; try discriminate.
      - rewrite Hconv in Hfirst.
        destruct Hfirst as [Hf|(b & out' & Hf & Hb)]; inversion Hf; subst.
        + left. split; [reflexivity|reflexivity].
        + right. simpl trimBlock.
          destruct (bytes.TrimRightFunc (b :: out') unicode.IsSpace) as [|b' t] eqn:Ht.
          * exfalso. simpl in Heq. subst sp.
            apply List.Forall_cons_iff in Hblank as [Hb' _]. congruence.
          * repeat split; try discriminate. intros _. exists b', t.
            split; [reflexivity|]. simpl in Heq. inversion Heq; subst. exact Hb. }
    split.
    + intros front b Hw.
      destruct w as [|x w'] using List.rev_ind.
      * rewrite List.app_nil_r in Hw.
        destruct Htb as [[Hnil _]|(He' & Htr & _)].
        -- rewrite Hnil in Hw. destruct front; discriminate.
        -- rewrite Htr in Hw. apply (Hlast front b Hw).
      * rewrite List.app_assoc in Hw. apply List.app_inj_tail in Hw as [_ ->].
        apply (IHlast w' b eq_refl).
    + intros He b t Hw.
      destruct Htb as [[Hnil He']|(_ & _ & _ & Hhead)].
      * rewrite Hnil in Hw. simpl in Hw. apply (IHhead (He' He) b t Hw).
      * destruct (Hhead He) as (b0 & t0 & Hb0 & Hsp0). rewrite Hb0 in Hw.
        simpl in Hw. inversion Hw; subst. exact Hsp0.
Qed.

(** A source of white space only leaves nothing to write. *)
Lemma blockwise_blank window w :
  blockwise T conv false window w -> isASCII window -> blank window -> w = [].
Proof using HT Htrim.
  intros Hbw. remember false as e eqn:He.
  induction Hbw as [e|e chunk rest w Hbw IH]; intros Ha Hb; [reflexivity|].
  subst e. apply List.Forall_app in Ha as [Hc Hrest].
  apply List.Forall_app in Hb as [Hbc Hbrest].
  rewrite (convertASCII_blank chunk Hc Hbc) in *. simpl in *.
  rewrite IH by (reflexivity || assumption). reflexivity.
Qed.

End Trim.

(** ** What [trim_spaces] removes *)

(** Conversions that give the same runes under two case tables give the
    same run. *)
Section Tables.
Variables T1 T2 : list unicode.CaseRange.
Variable opts : Options.
Variable conv : list ConvOption.
Hypothesis Hsame : forall r e, handleConv T1 conv r e = handleConv T2 conv r e.

Lemma SymbolIterate_loop_tables fuel buf w e :
  SymbolIterate_loop T1 opts conv fuel buf w e
  = SymbolIterate_loop T2 opts conv fuel buf w e.
Proof using Hsame.
  revert buf w e. induction fuel as [|fuel IH]; intros buf w e; [reflexivity|].
  rewrite !SymbolIterate_loop_S.
  destruct (0 <? len buf); [|reflexivity].
  destruct (utf8.DecodeRune buf) as [r size].
  destruct ((len buf <? 3) && _)%bool; [reflexivity|].
  rewrite Hsame. destruct (handleConv T2 conv r e) as [[r'|] e']; cbv zeta.
  - destruct (BlockSize opts <? _); [reflexivity|]. apply IH.
  - apply IH.
Qed.

Lemma mainCycle_tables fuel reader st sink :
  mainCycle T1 opts conv fuel reader st sink
  = mainCycle T2 opts conv fuel reader st sink.
Proof using Hsame.
  revert reader st sink. induction fuel as [|fuel IH]; intros reader st sink; [reflexivity|].
  rewrite !mainCycle_S.
  destruct (runtime.makeslicePanics (maxReadLength opts st)); [reflexivity|].
  destruct (Read reader (maxReadLength opts st)) as [[chunk e] reader'].
  assert (Hit : forall endFile,
            iteration T1 opts conv chunk endFile st
            = iteration T2 opts conv chunk endFile st).
  { intros endFile. unfold iteration, SymbolIterate.
    rewrite SymbolIterate_loop_tables. reflexivity. }
  destruct e as [[|]|]; try reflexivity; cbv zeta; rewrite Hit;
    destruct (iteration T2 opts conv chunk _ st) as [[w st'] stop];
    destruct stop; try reflexivity; apply IH.
Qed.

Lemma processFrom_tables fuel input :
  processFrom T1 opts conv fuel input = processFrom T2 opts conv fuel input.
Proof using Hsame.
  unfold processFrom. destruct (CopyN_Discard input _) as [[n e] reader].
  destruct e; [reflexivity|]. apply mainCycle_tables.
Qed.
End Tables.

Lemma sublist_isASCII (s t : list byte) : sublist s t -> isASCII t -> isASCII s.
Proof.
  intros Hs. induction Hs as [|x s t Hs IH|x s t Hs IH]; intros Ht.
  - constructor.
  - apply List.Forall_cons_iff in Ht as [Hx Ht]. constructor; [exact Hx|apply IH, Ht].
  - apply List.Forall_cons_iff in Ht as [_ Ht]. apply IH, Ht.
Qed.

Lemma filter_nonSpace_blank sp : blank sp -> List.filter nonSpace sp = [].
Proof.
  intros Hb. induction Hb as [|b sp Hb _ IH]; [reflexivity|].
  simpl. unfold nonSpace at 1. rewrite Hb. exact IH.
Qed.

(** [trim_spaces] alone keeps a suffix of the buffer, and every byte of it
    that is not white space. *)
Lemma convertASCII_trim_only T e buf :
  sublist (fst (convertASCII T [TrimSpaces] e buf)) buf
  /\ List.filter nonSpace (fst (convertASCII T [TrimSpaces] e buf))
     = List.filter nonSpace buf.
Proof.
  revert e. induction buf as [|b buf IH]; intros e; [split; constructor|].
  simpl. unfold nonSpace at 2.
  destruct (unicode.IsSpace (b2z b)) eqn:Hsp; simpl negb; cbv iota.
  - destruct e; simpl negb; cbv iota.
    + specialize (IH true). destruct (convertASCII T [TrimSpaces] true buf) as [out e'].
      simpl in *. rewrite z2b_b2z. destruct IH as [IH1 IH2].
      split; [apply sublist_skip, IH1|].
      unfold nonSpace at 1. rewrite Hsp. exact IH2.
    + specialize (IH false). destruct IH as [IH1 IH2].
      split; [apply sublist_cons, IH1 | exact IH2].
  - specialize (IH true). destruct (convertASCII T [TrimSpaces] true buf) as [out e'].
    simpl in *. rewrite z2b_b2z. destruct IH as [IH1 IH2].
    split; [apply sublist_skip, IH1|].
    unfold nonSpace at 1. rewrite Hsp. simpl. f_equal. exact IH2.
Qed.

Lemma trimBlock_only_spaces e out :
  isASCII out ->
  sublist (trimBlock e out) out
  /\ List.filter nonSpace (trimBlock e out) = List.filter nonSpace out.
Proof.
  intros Ha. destruct e; simpl; [|split; reflexivity].
  destruct (TrimRightFunc_ascii out Ha) as (sp & Heq & Hblank & _).
  split.
  - rewrite Heq at 2. apply sublist_inserts_r. reflexivity.
  - rewrite Heq at 2. rewrite List.filter_app, (filter_nonSpace_blank sp Hblank).
    symmetry. apply List.app_nil_r.
Qed.

Lemma blockwise_only_spaces T e window w :
  blockwise T [TrimSpaces] e window w -> isASCII window ->
  sublist w window /\ List.filter nonSpace w = List.filter nonSpace window.
Proof.
  intros Hbw. induction Hbw as [e|e chunk rest w Hbw IH]; intros Ha.
  - split; constructor.
  - apply List.Forall_app in Ha as [Hc Hrest].
    destruct (IH Hrest) as [IH1 IH2].
    destruct (convertASCII_trim_only T e chunk) as [Hc1 Hc2].
    destruct (trimBlock_only_spaces
                (snd (convertASCII T [TrimSpaces] e chunk))
                (fst (convertASCII T [TrimSpaces] e chunk))
                (sublist_isASCII _ _ Hc1 Hc)) as [Ht1 Ht2].
    split.
    + apply sublist_app; [|exact IH1]. etransitivity; eassumption.
    + rewrite !List.filter_app, Ht2, Hc2, IH2. reflexivity.
Qed.

(** X8. With the conversion [trim_spaces] alone, what is written for a
    source of one-byte runes is its window with some bytes left out, in
    the same order, and every byte left out is white space: the bytes
    that are not white space are all written, whatever the block size,
    among those that [make] allocates. *)
Theorem trim_spaces_removes_only_spaces T opts input :
  Conv opts = "trim_spaces"%string -> isASCII input ->
  Offset opts <= len input ->
  0 <= Limit opts < uint_modulus -> (0 < Limit opts -> len input < 2 ^ 63) ->
  1 <= BlockSize opts <= runtime.maxAlloc ->
  exists w,
    process T opts input
    = Some {| err := None; written := w;
              unread := if 0 <? Limit opts
                        then skipn (Z.to_nat (Limit opts))
                               (skipn (Z.to_nat (Offset opts)) input)
                        else [] |}
    /\ sublist w (copied opts input)
    /\ List.filter nonSpace w = List.filter nonSpace (copied opts input).
Proof.
  intros Hconv Hin HO HL H63 HB.
  assert (Hparse : ParseConv opts = inr [TrimSpaces])
    by (unfold ParseConv; rewrite Hconv; reflexivity).
  destruct (process_blockwise unicode.CaseRanges_head CaseRanges_head_keeps_ASCII
              opts [TrimSpaces] (alloc_uint _ HB) (proj2 HB) input Hparse HO HL H63 Hin)
    as (w & Hw & Hbw).
  exists w. split.
  - rewrite <- Hw. unfold process. rewrite Hparse.
    apply processFrom_tables. reflexivity.
  - apply (blockwise_only_spaces _ _ _ _ Hbw).
    unfold copied. destruct (0 <? Limit opts).
    + apply isASCII_split, isASCII_split, Hin.
    + apply isASCII_split, Hin.
Qed.

Lemma trim_spaces_removes_only_spaces_witness :
  exists w,
    process unicode.CaseRanges_head
      {| Offset := 0; Limit := 0; BlockSize := 3; Conv := "trim_spaces" |}
      (bs " a  b c ")
    = Some {| err := None; written := w; unread := [] |}
    /\ sublist w (bs " a  b c ")
    /\ List.filter nonSpace w = bs "abc".
Proof.
  destruct (trim_spaces_removes_only_spaces unicode.CaseRanges_head
              {| Offset := 0; Limit := 0; BlockSize := 3; Conv := "trim_spaces" |}
              (bs " a  b c ")) as (w & Hw & Hs & Hf).
  - reflexivity.
  - unfold isASCII. repeat constructor.
  - vm_compute. discriminate.
  - vm_compute. split; [discriminate|reflexivity].
  - intros H. vm_compute in H. discriminate.
  - vm_compute. split; discriminate.
  - exists w. split; [exact Hw|]. split; [exact Hs|exact Hf].
Defined.

(** X9. With [trim_spaces] among the conversions, what is written for a
    source of one-byte runes neither begins nor ends with white space,
    whatever the block size, among those that [make] allocates. *)
Theorem trimmed_output_edges T opts conv input :
  caseKeepsASCII T -> ParseConv opts = inr conv -> In TrimSpaces conv ->
  isASCII input -> Offset opts <= len input ->
  0 <= Limit opts < uint_modulus -> (0 < Limit opts -> len input < 2 ^ 63) ->
  1 <= BlockSize opts <= runtime.maxAlloc ->
  exists w,
    process T opts input
    = Some {| err := None; written := w;
              unread := if 0 <? Limit opts
                        then skipn (Z.to_nat (Limit opts))
                               (skipn (Z.to_nat (Offset opts)) input)
                        else [] |}
    /\ (forall b rest, w = b :: rest -> unicode.IsSpace (b2z b) = false)
    /\ (forall front b, w = front ++ [b] -> unicode.IsSpace (b2z b) = false).
Proof.
  intros HT Hparse Htrim Hin HO HL H63 HB.
  destruct (process_blockwise T HT opts conv (alloc_uint _ HB) (proj2 HB) input
              Hparse HO HL H63 Hin)
    as (w & Hw & Hbw).
  assert (Hwin : isASCII (copied opts input)).
  { unfold copied. destruct (0 <? Limit opts).
    - apply isASCII_split, isASCII_split, Hin.
    - apply isASCII_split, Hin. }
  destruct (blockwise_edges T HT conv Htrim _ _ _ Hbw Hwin) as [Hlast Hhead].
  exists w. split; [exact Hw|]. split; [apply Hhead; reflexivity | exact Hlast].
Qed.

Lemma trimmed_output_edges_witness :
  exists w,
    process unicode.CaseRanges_head
      {| Offset := 0; Limit := 0; BlockSize := 2;
         Conv := "trim_spaces,upper_case" |} (bs "  a b   ")
    = Some {| err := None; written := w; unread := [] |}
    /\ (forall b rest, w = b :: rest -> unicode.IsSpace (b2z b) = false)
    /\ (forall front b, w = front ++ [b] -> unicode.IsSpace (b2z b) = false).
Proof.
  apply (trimmed_output_edges unicode.CaseRanges_head
           {| Offset := 0; Limit := 0; BlockSize := 2;
              Conv := "trim_spaces,upper_case" |}
           [TrimSpaces; UpperCase] (bs "  a b   ")).
  - exact CaseRanges_head_keeps_ASCII.
  - reflexivity.
  - left. reflexivity.
  - unfold isASCII. repeat constructor.
  - vm_compute. discriminate.
  - vm_compute. split; [discriminate|reflexivity].
  - intros H. vm_compute in H. discriminate.
  - vm_compute. split; discriminate.
Defined.

(** X10. With [trim_spaces] among the conversions and a block that
    [make] allocates, a window of white space only leaves nothing to
    write: the run ends without an error and without a byte written. *)
Theorem blank_input_writes_nothing T opts conv input :
  caseKeepsASCII T -> ParseConv opts = inr conv -> In TrimSpaces conv ->
  isASCII input -> blank (copied opts input) -> Offset opts <= len input ->
  0 <= Limit opts < uint_modulus -> (0 < Limit opts -> len input < 2 ^ 63) ->
  1 <= BlockSize opts <= runtime.maxAlloc ->
  process T opts input
  = Some {| err := None; written := [];
            unread := if 0 <? Limit opts
                      then skipn (Z.to_nat (Limit opts))
                             (skipn (Z.to_nat (Offset opts)) input)
                      else [] |}.
Proof.
  intros HT Hparse Htrim Hin Hblank HO HL H63 HB.
  destruct (process_blockwise T HT opts conv (alloc_uint _ HB) (proj2 HB) input
              Hparse HO HL H63 Hin)
    as (w & Hw & Hbw).
  assert (Hwin : isASCII (copied opts input)).
  { unfold copied. destruct (0 <? Limit opts).
    - apply isASCII_split, isASCII_split, Hin.
    - apply isASCII_split, Hin. }
  rewrite Hw. rewrite (blockwise_blank T HT conv Htrim _ _ Hbw Hwin Hblank).
  reflexivity.
Qed.

Lemma blank_input_writes_nothing_witness :
  process unicode.CaseRanges_head
    {| Offset := 1; Limit := 4; BlockSize := 3; Conv := "trim_spaces" |}
    (bs "a     b")
  = Some {| err := None; written := []; unread := bs " b" |}.
Proof.
  apply (blank_input_writes_nothing unicode.CaseRanges_head
           {| Offset := 1; Limit := 4; BlockSize := 3; Conv := "trim_spaces" |}
           [TrimSpaces] (bs "a     b")).
  - exact CaseRanges_head_keeps_ASCII.
  - reflexivity.
  - left. reflexivity.
  - unfold isASCII. repeat constructor.
  - unfold blank. repeat constructor.
  - vm_compute. discriminate.
  - vm_compute. split; [discriminate|reflexivity].
  - intros _. vm_compute. reflexivity.
  - vm_compute. split; discriminate.
Defined.

(** ** Text of runes of two and three bytes *)

Lemma forall_below (P : Z -> bool) (n : nat) :
  forallb P (map Z.of_nat (seq 0 n)) = true ->
  forall z, 0 <= z < Z.of_nat n -> P z = true.
Proof.
  intros H z Hz. rewrite List.forallb_forall in H. apply H.
  apply List.in_map_iff. exists (Z.to_nat z). split; [lia|].
  apply List.in_seq. lia.
Qed.

(** The marker bits of a byte and its payload do not overlap. *)
Lemma lead2_bits h :
  0 <= h < 32 -> Z.lor utf8.t2 h = 192 + h /\ Z.land (192 + h) utf8.mask2 = h.
Proof.
  intros Hh.
  pose proof (forall_below
    (fun h => (Z.lor utf8.t2 h =? 192 + h) && (Z.land (192 + h) utf8.mask2 =? h))
    32 eq_refl h Hh) as H.
  apply andb_prop in H as [H1 H2]. split; apply Z.eqb_eq; assumption.
Qed.

Lemma lead3_bits a :
  0 <= a < 16 -> Z.lor utf8.t3 a = 224 + a /\ Z.land (224 + a) utf8.mask3 = a.
Proof.
  intros Ha.
  pose proof (forall_below
    (fun a => (Z.lor utf8.t3 a =? 224 + a) && (Z.land (224 + a) utf8.mask3 =? a))
    16 eq_refl a Ha) as H.
  apply andb_prop in H as [H1 H2]. split; apply Z.eqb_eq; assumption.
Qed.

Lemma cont_bits l :
  0 <= l < 64 -> Z.lor utf8.tx l = 128 + l /\ Z.land (128 + l) utf8.maskx = l.
Proof.
  intros Hl.
  pose proof (forall_below
    (fun l => (Z.lor utf8.tx l =? 128 + l) && (Z.land (128 + l) utf8.maskx =? l))
    64 eq_refl l Hl) as H.
  apply andb_prop in H as [H1 H2]. split; apply Z.eqb_eq; assumption.
Qed.

Lemma land_maskx z : Z.land z utf8.maskx = z mod 64.
Proof. change utf8.maskx with (Z.ones 6). rewrite Z.land_ones by lia. reflexivity. Qed.

Lemma lor_shiftl_add h k l :
  0 <= k -> 0 <= l < 2 ^ k -> Z.lor (Z.shiftl h k) l = h * 2 ^ k + l.
Proof.
  intros Hk Hl.
  assert (Hdisj : Z.land (Z.shiftl h k) l = 0).
  { apply Z.bits_inj'. intros n Hn. rewrite Z.land_spec, Z.bits_0.
    destruct (Z.lt_ge_cases n k) as [Hlt|Hge].
    - rewrite Z.shiftl_spec_low by lia. reflexivity.
    - rewrite andb_false_iff. right.
      destruct (Z.eq_dec l 0) as [->|Hne]; [apply Z.bits_0|].
      apply Z.bits_above_log2; [lia|].
      apply Z.lt_le_trans with k; [|exact Hge].
      apply Z.log2_lt_pow2; lia. }
  rewrite <- Z.lxor_lor by exact Hdisj.
  rewrite <- Z.add_nocarry_lxor by exact Hdisj.
  rewrite Z.shiftl_mul_pow2 by lia. reflexivity.
Qed.

Lemma byteZ_small z : 0 <= z < 256 -> utf8.byteZ z = z.
Proof. intros H. unfold utf8.byteZ. apply Z.mod_small, H. Qed.

Lemma uint32_small z : 0 <= z < 2 ^ 32 -> uint32 z = z.
Proof. intros H. unfold uint32. apply Z.mod_small, H. Qed.

(** The bytes [utf8.AppendRune] appends for a rune of two bytes and for
    one of three. *)
Lemma AppendRune_two p r :
  utf8.RuneSelf <= r <= utf8.rune2Max ->
  utf8.AppendRune p r = p ++ [z2b (192 + r / 64); z2b (128 + r mod 64)].
Proof.
  unfold utf8.RuneSelf, utf8.rune2Max. intros Hr.
  unfold utf8.AppendRune. rewrite uint32_small by lia.
  replace (r <=? utf8.rune1Max) with false
    by (symmetry; apply Z.leb_gt; unfold utf8.rune1Max; lia).
  unfold utf8.appendRuneNonASCII. cbv zeta. rewrite uint32_small by lia.
  replace (r <=? utf8.rune2Max) with true
    by (symmetry; apply Z.leb_le; unfold utf8.rune2Max; lia).
  rewrite Z.shiftr_div_pow2 by lia. change (2 ^ 6) with 64.
  assert (H1 : 0 <= r / 64 < 32) by (split; [apply Z.div_pos|apply Z.div_lt_upper_bound]; lia).
  rewrite (byteZ_small (r / 64)) by lia.
  rewrite (proj1 (lead2_bits _ H1)).
  rewrite land_maskx. unfold utf8.byteZ.
  replace ((r mod 256) mod 64) with (r mod 64) by (Z.div_mod_to_equations; lia).
  rewrite (proj1 (cont_bits (r mod 64) ltac:(apply Z.mod_pos_bound; lia))).
  reflexivity.
Qed.

Lemma AppendRune_three p r :
  utf8.rune2Max < r <= utf8.rune3Max ->
  ~ (utf8.surrogateMin <= r <= utf8.surrogateMax) ->
  utf8.AppendRune p r
  = p ++ [z2b (224 + r / 4096); z2b (128 + (r / 64) mod 64); z2b (128 + r mod 64)].
Proof.
  unfold utf8.rune2Max, utf8.rune3Max, utf8.surrogateMin, utf8.surrogateMax.
  intros Hr Hs.
  unfold utf8.AppendRune. rewrite uint32_small by lia.
  replace (r <=? utf8.rune1Max) with false
    by (symmetry; apply Z.leb_gt; unfold utf8.rune1Max; lia).
  unfold utf8.appendRuneNonASCII. cbv zeta. rewrite uint32_small by lia.
  replace (r <=? utf8.rune2Max) with false
    by (symmetry; apply Z.leb_gt; unfold utf8.rune2Max; lia).
  replace (utf8.MaxRune <? r) with false
    by (symmetry; apply Z.ltb_ge; unfold utf8.MaxRune; lia).
  replace ((utf8.surrogateMin <=? r) && (r <=? utf8.surrogateMax))%bool with false.
  2:{ symmetry. apply andb_false_iff.
      unfold utf8.surrogateMin, utf8.surrogateMax.
      destruct (Z.leb_spec 55296 r); [right; apply Z.leb_gt; lia | left; reflexivity]. }
  simpl orb. cbv iota.
  replace (r <=? utf8.rune3Max) with true
    by (symmetry; apply Z.leb_le; unfold utf8.rune3Max; lia).
  rewrite !Z.shiftr_div_pow2 by lia. change (2 ^ 12) with 4096. change (2 ^ 6) with 64.
  assert (H1 : 0 <= r / 4096 < 16)
    by (split; [apply Z.div_pos|apply Z.div_lt_upper_bound]; lia).
  rewrite (byteZ_small (r / 4096)) by lia.
  rewrite (proj1 (lead3_bits _ H1)).
  rewrite !land_maskx. unfold utf8.byteZ.
  replace (((r / 64) mod 256) mod 64) with ((r / 64) mod 64)
    by (Z.div_mod_to_equations; lia).
  replace ((r mod 256) mod 64) with (r mod 64) by (Z.div_mod_to_equations; lia).
  rewrite (proj1 (cont_bits ((r / 64) mod 64) ltac:(apply Z.mod_pos_bound; lia))).
  rewrite (proj1 (cont_bits (r mod 64) ltac:(apply Z.mod_pos_bound; lia))).
  reflexivity.
Qed.

Lemma first_two h : 2 <= h < 32 -> utf8.first (192 + h) = utf8.s1.
Proof.
  intros Hh. unfold utf8.first.
  repeat match goal with
         | |- context [?a <? ?b] => destruct (Z.ltb_spec a b); try lia
         end; reflexivity.
Qed.

Lemma first_three a :
  0 <= a < 16 ->
  utf8.first (224 + a)
  = if a =? 0 then utf8.s2 else if a =? 13 then utf8.s4 else utf8.s3.
Proof.
  intros Ha. unfold utf8.first.
  destruct (Z.eqb_spec a 0) as [->|H0]; [reflexivity|].
  destruct (Z.eqb_spec a 13) as [->|H13]; [reflexivity|].
  repeat match goal with
         | |- context [?a <? ?b] => destruct (Z.ltb_spec a b); try lia
         | |- context [?a =? ?b] => destruct (Z.eqb_spec a b); try lia
         end; reflexivity.
Qed.

Lemma DecodeRune_two h l rest :
  2 <= h < 32 -> 0 <= l < 64 ->
  utf8.DecodeRune (z2b (192 + h) :: z2b (128 + l) :: rest) = (64 * h + l, 2%nat).
Proof.
  intros Hh Hl. unfold utf8.DecodeRune. cbv zeta.
  set (p := z2b (192 + h) :: z2b (128 + l) :: rest).
  assert (Hlen : 2 <= len p) by (unfold p, len; simpl List.length; lia).
  replace (len p <? 1) with false by (symmetry; apply Z.ltb_ge; lia).
  change (utf8.at_ p 0) with (b2z (z2b (192 + h))).
  change (utf8.at_ p 1) with (b2z (z2b (128 + l))).
  rewrite !b2z_z2b by lia. rewrite first_two by exact Hh.
  change (utf8.as_ <=? utf8.s1) with false. cbv iota.
  change (Z.land utf8.s1 7) with 2.
  change (utf8.acceptRanges (Z.shiftr utf8.s1 4))
    with {| utf8.lo := utf8.locb; utf8.hi := utf8.hicb |}.
  simpl utf8.lo. simpl utf8.hi.
  replace (len p <? 2) with false by (symmetry; apply Z.ltb_ge; lia).
  replace (128 + l <? utf8.locb) with false
    by (symmetry; apply Z.ltb_ge; unfold utf8.locb; lia).
  replace (utf8.hicb <? 128 + l) with false
    by (symmetry; apply Z.ltb_ge; unfold utf8.hicb; lia).
  simpl orb. cbv iota. change (2 <=? 2) with true. cbv iota.
  rewrite (proj2 (lead2_bits h ltac:(lia))), (proj2 (cont_bits l Hl)).
  rewrite lor_shiftl_add by lia. f_equal. lia.
Qed.

Lemma DecodeRune_three a b c rest :
  0 <= a < 16 -> 0 <= b < 64 -> 0 <= c < 64 ->
  (a = 0 -> 32 <= b) -> (a = 13 -> b < 32) ->
  utf8.DecodeRune (z2b (224 + a) :: z2b (128 + b) :: z2b (128 + c) :: rest)
  = (4096 * a + 64 * b + c, 3%nat).
Proof.
  intros Ha Hb Hc Hlow Hsur. unfold utf8.DecodeRune. cbv zeta.
  set (p := z2b (224 + a) :: z2b (128 + b) :: z2b (128 + c) :: rest).
  assert (Hlen : 3 <= len p) by (unfold p, len; simpl List.length; lia).
  replace (len p <? 1) with false by (symmetry; apply Z.ltb_ge; lia).
  change (utf8.at_ p 0) with (b2z (z2b (224 + a))).
  change (utf8.at_ p 1) with (b2z (z2b (128 + b))).
  change (utf8.at_ p 2) with (b2z (z2b (128 + c))).
  rewrite !b2z_z2b by lia. rewrite first_three by exact Ha.
  assert (Hx : exists x,
            (if a =? 0 then utf8.s2 else if a =? 13 then utf8.s4 else utf8.s3) = x
            /\ (utf8.as_ <=? x) = false /\ Z.land x 7 = 3
            /\ utf8.lo (utf8.acceptRanges (Z.shiftr x 4)) <= 128 + b
            /\ 128 + b <= utf8.hi (utf8.acceptRanges (Z.shiftr x 4))).
  { eexists. split; [reflexivity|].
    destruct (Z.eqb_spec a 0) as [H0|H0]; [|destruct (Z.eqb_spec a 13) as [H13|H13]].
    - specialize (Hlow H0). repeat split; try reflexivity;
        [change (160 <= 128 + b) | change (128 + b <= 191)]; lia.
    - specialize (Hsur H13). repeat split; try reflexivity;
        [change (128 <= 128 + b) | change (128 + b <= 159)]; lia.
    - repeat split; try reflexivity;
        [change (128 <= 128 + b) | change (128 + b <= 191)]; lia. }
  destruct Hx as (x & -> & Has & Hsz & Hlo & Hhi).
  rewrite Has, Hsz. cbv iota.
  replace (len p <? 3) with false by (symmetry; apply Z.ltb_ge; lia).
  replace (128 + b <? _) with false by (symmetry; apply Z.ltb_ge; lia).
  replace (_ <? 128 + b) with false by (symmetry; apply Z.ltb_ge; lia).
  simpl orb. cbv iota. change (3 <=? 2) with false. cbv iota.
  replace (128 + c <? utf8.locb) with false
    by (symmetry; apply Z.ltb_ge; unfold utf8.locb; lia).
  replace (utf8.hicb <? 128 + c) with false
    by (symmetry; apply Z.ltb_ge; unfold utf8.hicb; lia).
  simpl orb. cbv iota. change (3 <=? 3) with true. cbv iota.
  rewrite (proj2 (lead3_bits a Ha)), (proj2 (cont_bits b Hb)), (proj2 (cont_bits c Hc)).
  rewrite (Z.shiftl_mul_pow2 b 6) by lia.
  rewrite (lor_shiftl_add a 12 (b * 2 ^ 6)) by lia.
  replace (a * 2 ^ 12 + b * 2 ^ 6) with (Z.shiftl (64 * a + b) 6)
    by (rewrite Z.shiftl_mul_pow2; lia).
  rewrite lor_shiftl_add by lia. f_equal. lia.
Qed.

(** A buffer that ends inside an encoding. *)
Lemma DecodeRune_short b0 p :
  (utf8.as_ <=? utf8.first (b2z b0)) = false ->
  len (b0 :: p) < Z.land (utf8.first (b2z b0)) 7 ->
  utf8.DecodeRune (b0 :: p) = (utf8.RuneError, 1%nat).
Proof.
  intros Has Hshort. unfold utf8.DecodeRune. cbv zeta.
  replace (len (b0 :: p) <? 1) with false
    by (symmetry; apply Z.ltb_ge; unfold len; simpl List.length; lia).
  change (utf8.at_ (b0 :: p) 0) with (b2z b0). rewrite Has.
  replace (len (b0 :: p) <? Z.land (utf8.first (b2z b0)) 7) with true
    by (symmetry; apply Z.ltb_lt; exact Hshort).
  reflexivity.
Qed.

Lemma plain_cases r :
  plain r = true ->
  r <> utf8.RuneError
  /\ (0 <= r < utf8.RuneSelf
      \/ utf8.RuneSelf <= r <= utf8.rune2Max
      \/ (utf8.rune2Max < r <= utf8.rune3Max
          /\ ~ (utf8.surrogateMin <= r <= utf8.surrogateMax))).
Proof.
  unfold plain. intros H.
  apply andb_prop in H as [H Herr]. apply andb_prop in H as [H Hsur].
  apply andb_prop in H as [H0 H3].
  apply Z.leb_le in H0, H3. apply negb_true_iff in Herr, Hsur.
  apply Z.eqb_neq in Herr. split; [exact Herr|].
  apply andb_false_iff in Hsur.
  unfold utf8.RuneSelf, utf8.rune2Max, utf8.rune3Max in *.
  destruct (Z.lt_ge_cases r 128); [left; lia|right].
  destruct (Z.le_gt_cases r 2047); [left; lia|right].
  split; [lia|]. intros [Hs1 Hs2].
  destruct Hsur as [Hs|Hs]; apply Z.leb_gt in Hs; lia.
Qed.

(** [utf8.DecodeRune] undoes [utf8.AppendRune] on such a rune. *)
Lemma DecodeRune_AppendRune r rest :
  plain r = true ->
  utf8.DecodeRune (utf8.AppendRune [] r ++ rest)
  = (r, List.length (utf8.AppendRune [] r))
  /\ (1 <= List.length (utf8.AppendRune [] r) <= 3)%nat.
Proof.
  intros Hp. destruct (plain_cases r Hp) as [_ [H1|[H2|[H3 Hs]]]].
  - rewrite AppendRune_ascii by exact H1. simpl.
    unfold utf8.RuneSelf in H1.
    rewrite DecodeRune_ascii by (rewrite b2z_z2b; unfold utf8.RuneSelf; lia).
    rewrite b2z_z2b by lia. split; [reflexivity|lia].
  - rewrite AppendRune_two by exact H2. simpl.
    unfold utf8.RuneSelf, utf8.rune2Max in H2.
    rewrite DecodeRune_two by (Z.div_mod_to_equations; lia).
    split; [|lia]. f_equal. Z.div_mod_to_equations; lia.
  - rewrite AppendRune_three by assumption. simpl.
    unfold utf8.rune2Max, utf8.rune3Max, utf8.surrogateMin, utf8.surrogateMax in *.
    rewrite DecodeRune_three by (Z.div_mod_to_equations; lia).
    split; [|lia]. f_equal. Z.div_mod_to_equations; lia.
Qed.

(** A proper part of the encoding of such a rune, at the end of the
    buffer, is what line 170 waits for: fewer than three bytes that do
    not decode. *)
Lemma DecodeRune_part r p q :
  plain r = true -> utf8.AppendRune [] r = p ++ q -> p <> [] -> q <> [] ->
  utf8.DecodeRune p = (utf8.RuneError, 1%nat) /\ len p < 3.
Proof.
  intros Hp Henc Hpne Hqne.
  assert (Hlen : (List.length (utf8.AppendRune [] r)
                  = List.length p + List.length q)%nat)
    by (rewrite Henc; apply List.length_app).
  assert (Hq : (1 <= List.length q)%nat) by (destruct q; [congruence|simpl; lia]).
  destruct p as [|b0 p]; [congruence|].
  destruct (plain_cases r Hp) as [_ [H1|[H2|[H3 Hs]]]].
  - rewrite AppendRune_ascii in Hlen by exact H1. simpl in Hlen. lia.
  - rewrite AppendRune_two in Henc, Hlen by exact H2. simpl in Henc, Hlen.
    injection Henc as Hb0 _. subst b0.
    unfold utf8.RuneSelf, utf8.rune2Max in H2.
    assert (Hh : 2 <= r / 64 < 32) by (Z.div_mod_to_equations; lia).
    split; [|unfold len; simpl List.length; lia].
    apply DecodeRune_short; rewrite b2z_z2b by lia; rewrite first_two by exact Hh.
    + reflexivity.
    + change (Z.land utf8.s1 7) with 2. unfold len. simpl List.length. lia.
  - rewrite AppendRune_three in Henc, Hlen by assumption. simpl in Henc, Hlen.
    injection Henc as Hb0 _. subst b0.
    unfold utf8.rune2Max, utf8.rune3Max in H3.
    assert (Ha : 0 <= r / 4096 < 16) by (Z.div_mod_to_equations; lia).
    split; [|unfold len; simpl List.length; lia].
    apply DecodeRune_short; rewrite b2z_z2b by lia; rewrite first_three by exact Ha.
    + destruct (r / 4096 =? 0); [reflexivity|]. destruct (r / 4096 =? 13); reflexivity.
    + replace (Z.land _ 7) with 3
        by (destruct (r / 4096 =? 0); [reflexivity|];
            destruct (r / 4096 =? 13); reflexivity).
      unfold len. simpl List.length. lia.
Qed.

Lemma AppendRune_app w r : utf8.AppendRune w r = w ++ utf8.AppendRune [] r.
Proof.
  unfold utf8.AppendRune, utf8.appendRuneNonASCII. cbv zeta.
  repeat match goal with |- context [if ?c then _ else _] => destruct c end;
    reflexivity.
Qed.

Section PlainText.
Variable T : list unicode.CaseRange.
Variable opts : Options.

(** Lines 166-205 with no conversion, on a buffer of such text that may
    end inside an encoding: the runes taken went into [writerBuf] byte for
    byte, and what is left starts at a rune again. *)
Lemma SymbolIterate_loop_plain fuel buf w e runes tail :
  forallb plain runes = true -> buf ++ tail = encode runes ->
  (List.length buf < fuel)%nat ->
  let sy := SymbolIterate_loop T opts [] fuel buf w e in
  writerBuf sy ++ buffer sy = w ++ buf /\ spaceEnded sy = e
  /\ exists runes', forallb plain runes' = true
                    /\ buffer sy ++ tail = encode runes'.
Proof.
  revert buf w runes.
  induction fuel as [|fuel IH]; intros buf w runes Hp Henc Hf; [lia|].
  cbv zeta. rewrite SymbolIterate_loop_S.
  destruct (0 <? len buf) eqn:Hlen; [|simpl; eauto].
  apply Z.ltb_lt in Hlen.
  destruct runes as [|r runes].
  { exfalso. destruct buf; [unfold len in Hlen; simpl in Hlen; lia|discriminate]. }
  simpl in Hp. apply andb_prop in Hp as [Hr Hp].
  unfold encode in Henc. simpl in Henc. fold (encode runes) in Henc.
  destruct (plain_cases r Hr) as [Herr _].
  assert (Hcase : (exists l, buf = utf8.AppendRune [] r ++ l
                             /\ encode runes = l ++ tail)
                  \/ (exists x l, utf8.AppendRune [] r = buf ++ x :: l
                                  /\ tail = (x :: l) ++ encode runes)).
  { apply List.app_eq_app in Henc as [l [[Hbuf Hrest]|[Hrune Htail]]].
    - left. eauto.
    - destruct l as [|x l]; [left; exists []|right; eauto].
      rewrite List.app_nil_r in *. simpl in Htail. subst tail. auto. }
  assert (Hkept : exists runes', forallb plain runes' = true
                                 /\ buf ++ tail = encode runes').
  { exists (r :: runes). split; [simpl; rewrite Hr, Hp; reflexivity|].
    unfold encode. simpl. exact Henc. }
  destruct Hcase as [(l & Hbuf & Hrest)|(x & l & Hrune & Htail)].
  - (* the rune at the head of the buffer is complete *)
    destruct (DecodeRune_AppendRune r l Hr) as [Hdec Hsize].
    rewrite Hbuf in *. rewrite Hdec. cbv iota zeta.
    replace (Z.of_nat (List.length (utf8.AppendRune [] r)) <=? 0) with false
      by (symmetry; apply Z.leb_gt; lia).
    replace (r =? utf8.RuneError) with false by (symmetry; apply Z.eqb_neq, Herr).
    rewrite andb_false_r. simpl handleConv. cbv iota zeta.
    replace (r =? utf8.RuneError) with false by (symmetry; apply Z.eqb_neq, Herr).
    destruct (BlockSize opts <? _); [simpl; auto|].
    rewrite List.skipn_app, List.skipn_all, Nat.sub_diag.
    change ([] ++ skipn 0 l) with l.
    destruct (IH l (utf8.AppendRune w r) runes Hp (eq_sym Hrest)) as (Hcons & He & Hleft).
    { rewrite List.length_app in Hf. lia. }
    split; [|split; assumption].
    rewrite Hcons, AppendRune_app, <- List.app_assoc. reflexivity.
  - (* the buffer ends inside the rune *)
    assert (Hne : buf <> [])
      by (intros ->; unfold len in Hlen; simpl in Hlen; lia).
    destruct (DecodeRune_part r buf (x :: l) Hr Hrune Hne ltac:(discriminate))
      as [Hdec H3].
    rewrite Hdec. cbv iota zeta.
    replace (len buf <? 3) with true by (symmetry; apply Z.ltb_lt, H3).
    change (utf8.RuneError =? utf8.RuneError) with true.
    rewrite orb_true_r. simpl. auto.
Qed.

Lemma iteration_plain chunk endFile st runes tail :
  isSpaceEnded st = false -> forallb plain runes = true ->
  (prevBuffer st ++ chunk) ++ tail = encode runes ->
  let '(w, st', stop) := iteration T opts [] chunk endFile st in
  isSpaceEnded st' = false
  /\ (if stop then w = prevBuffer st ++ chunk
      else w ++ prevBuffer st' = prevBuffer st ++ chunk
           /\ exists runes', forallb plain runes' = true
                             /\ prevBuffer st' ++ tail = encode runes').
Proof.
  intros He Hp Henc. unfold iteration, SymbolIterate. cbv zeta. rewrite He.
  destruct (SymbolIterate_loop_plain (S (List.length (prevBuffer st ++ chunk)))
              (prevBuffer st ++ chunk) [] false runes tail Hp Henc ltac:(lia))
    as (Hcons & Hsp & Hleft).
  rewrite Hsp. destruct (endFile || _)%bool; simpl; auto.
Qed.

Lemma Read_split reader n :
  let '(chunk, e, reader') := Read reader n in
  reader = chunk ++ reader' /\ e <> Some OtherReadErr.
Proof.
  unfold Read. destruct (n <=? 0); [split; [reflexivity|discriminate]|].
  destruct reader as [|b reader]; [split; [reflexivity|discriminate]|].
  split; [symmetry; apply List.firstn_skipn|discriminate].
Qed.

(** A run of the main cycle that returns without an error has written,
    byte for byte, what it held and what it read. *)
Lemma mainCycle_plain fuel reader st sink o runes :
  isSpaceEnded st = false -> forallb plain runes = true ->
  prevBuffer st ++ reader = encode runes ->
  mainCycle T opts [] fuel reader st sink = Some o -> err o = None ->
  exists consumed,
    reader = consumed ++ unread o
    /\ written o = sink ++ prevBuffer st ++ consumed.
Proof.
  revert reader st sink runes.
  induction fuel as [|fuel IH]; intros reader st sink runes He Hp Henc Hrun Herr;
    [discriminate|].
  rewrite mainCycle_S in Hrun.
  destruct (runtime.makeslicePanics (maxReadLength opts st));
    [injection Hrun as <-; discriminate|].
  pose proof (Read_split reader (maxReadLength opts st)) as Hread.
  destruct (Read reader (maxReadLength opts st)) as [[chunk e] reader'].
  destruct Hread as [Hsplit Hnoerr].
  assert (Henc' : (prevBuffer st ++ chunk) ++ reader' = encode runes)
    by (rewrite <- List.app_assoc, <- Hsplit; exact Henc).
  assert (Hturn : forall endFile,
            match iteration T opts [] chunk endFile st with
            | (w, st', true) =>
              Some {| err := None; written := sink ++ w; unread := reader' |}
            | (w, st', false) => mainCycle T opts [] fuel reader' st' (sink ++ w)
            end = Some o ->
            exists consumed, reader = consumed ++ unread o
                             /\ written o = sink ++ prevBuffer st ++ consumed).
  { intros endFile Hrun'.
    pose proof (iteration_plain chunk endFile st runes reader' He Hp Henc') as Hit.
    destruct (iteration T opts [] chunk endFile st) as [[w st'] stop].
    destruct Hit as [He' Hit]. destruct stop.
    - injection Hrun' as <-. simpl. exists chunk. subst w. auto.
    - destruct Hit as [Hcons (runes' & Hp' & Henc'')].
      destruct (IH reader' st' (sink ++ w) runes' He' Hp' Henc'' Hrun' Herr)
        as (consumed & Hsplit' & Hw).
      exists (chunk ++ consumed). split.
      + rewrite <- List.app_assoc, <- Hsplit'. exact Hsplit.
      + rewrite Hw, <- !List.app_assoc. f_equal.
        rewrite !List.app_assoc, Hcons. reflexivity. }
  destruct e as [[|]|]; [apply (Hturn true Hrun) | congruence | apply (Hturn false Hrun)].
Qed.

End PlainText.

(** X11. With no conversion, text made of runes of at most three bytes,
    U+FFFD apart, is copied byte for byte from an offset at which a rune
    starts: what is written is the window of the source, whatever the
    block size, among those that [make] allocates, and wherever the
    blocks and the limit cut the encodings. *)
Theorem plain_text_copied T opts input :
  Conv opts = ""%string ->
  0 <= Offset opts <= len input ->
  plainText (skipn (Z.to_nat (Offset opts)) input) ->
  1 <= BlockSize opts <= runtime.maxAlloc ->
  0 <= Limit opts < uint_modulus ->
  len input < 2 ^ 63 ->
  process T opts input
  = Some {| err := None; written := copied opts input;
            unread := if 0 <? Limit opts
                      then skipn (Z.to_nat (Limit opts))
                             (skipn (Z.to_nat (Offset opts)) input)
                      else [] |}.
Proof.
  intros Hconv HO (runes & Hp & Henc) HB HL H63.
  assert (Hparse : ParseConv opts = inr [])
    by (unfold ParseConv; rewrite Hconv; reflexivity).
  destruct (processFrom_reads_window T opts [] input HO HB HL H63) as [w Hw].
  unfold process. rewrite Hparse, Hw. f_equal. f_equal.
  unfold processFrom in Hw.
  assert (Hd : CopyN_Discard input (Offset opts)
               = (Z.max 0 (Offset opts), None,
                  skipn (Z.to_nat (Offset opts)) input)).
  { unfold CopyN_Discard. destruct (Z.leb_spec (Offset opts) 0) as [H0|H0].
    - replace (Offset opts) with 0 by lia. reflexivity.
    - replace (Offset opts <=? len input) with true
        by (symmetry; apply Z.leb_le; lia).
      f_equal. f_equal. lia. }
  rewrite Hd in Hw.
  destruct (mainCycle_plain T opts _ _ initialState [] _ runes eq_refl Hp Henc Hw
              eq_refl)
    as (consumed & Hsplit & Hwritten).
  simpl in Hsplit, Hwritten. subst w. unfold copied.
  destruct (0 <? Limit opts).
  - rewrite <- (List.firstn_skipn (Z.to_nat (Limit opts))
                  (skipn (Z.to_nat (Offset opts)) input)) in Hsplit at 1.
    apply List.app_inv_tail in Hsplit. symmetry. exact Hsplit.
  - rewrite List.app_nil_r in Hsplit. symmetry. exact Hsplit.
Qed.

Lemma plain_text_copied_witness :
  process unicode.CaseRanges_head
    {| Offset := 1; Limit := 0; BlockSize := 2; Conv := "" |}
    [x68; xc3; xa9; x20; xe2; x82; xac; x21]
  = Some {| err := None; written := [xc3; xa9; x20; xe2; x82; xac; x21];
            unread := [] |}.
Proof.
  apply (plain_text_copied unicode.CaseRanges_head
           {| Offset := 1; Limit := 0; BlockSize := 2; Conv := "" |}
           [x68; xc3; xa9; x20; xe2; x82; xac; x21]).
  - reflexivity.
  - vm_compute. split; discriminate.
  - exists [0xE9; 0x20; 0x20AC; 0x21]. split; vm_compute; reflexivity.
  - vm_compute. split; discriminate.
  - vm_compute. split; [discriminate|reflexivity].
  - vm_compute. reflexivity.
Defined.

(** ** [upper_case] on text whose upper case has the same width *)

Lemma encode_cons r runes :
  encode (r :: runes) = utf8.AppendRune [] r ++ encode runes.
Proof. reflexivity. Qed.

Lemma encode_app a b : encode (a ++ b) = encode a ++ encode b.
Proof. unfold encode. rewrite List.map_app, List.concat_app. reflexivity. Qed.

Lemma length_encode runes :
  List.length (encode runes) = list_sum (map width runes).
Proof.
  induction runes as [|r runes IH]; [reflexivity|].
  rewrite encode_cons, List.length_app, IH. reflexivity.
Qed.

Lemma taken_le BS sizes avail wl : (taken BS sizes avail wl <= List.length sizes)%nat.
Proof.
  revert avail wl. induction sizes as [|s sizes IH]; intros avail wl; simpl; [lia|].
  destruct (avail <? s)%nat; [lia|]. destruct (BS <? _); [lia|].
  specialize (IH (avail - s)%nat (wl + Z.of_nat s)). lia.
Qed.

Lemma cycleTaken_le fuel BS sizes carry left :
  (cycleTaken fuel BS sizes carry left <= List.length sizes)%nat.
Proof.
  revert sizes carry left. induction fuel as [|fuel IH]; intros sizes carry left;
    simpl; [lia|].
  pose proof (taken_le BS sizes (carry + Nat.min (Z.to_nat BS) left) 0) as Hj.
  destruct (left =? 0)%nat; [exact Hj|].
  set (j := taken BS sizes (carry + Nat.min (Z.to_nat BS) left) 0) in *.
  specialize (IH (skipn j sizes)
                (carry + Nat.min (Z.to_nat BS) left - list_sum (firstn j sizes))%nat
                (left - Nat.min (Z.to_nat BS) left)%nat).
  rewrite List.length_skipn in IH. lia.
Qed.

Section FixedWidth.
Variable T : list unicode.CaseRange.
Variable opts : Options.
Hypothesis HB : 0 <= BlockSize opts < 2 ^ 63.

(** Lines 166-205 with [upper_case] on a buffer of such text that may end
    inside an encoding. *)
Lemma SymbolIterate_loop_upper fuel buf w e runes tail :
  Forall (keepsWidth T) runes -> buf ++ tail = encode runes ->
  (List.length buf < fuel)%nat -> len w <= BlockSize opts ->
  let j := taken (BlockSize opts) (map width runes) (List.length buf) (len w) in
  let sy := SymbolIterate_loop T opts [UpperCase] fuel buf w e in
  writerBuf sy = w ++ encode (map (upper T) (firstn j runes))
  /\ buf = encode (firstn j runes) ++ buffer sy
  /\ buffer sy ++ tail = encode (skipn j runes)
  /\ spaceEnded sy = e.
Proof using HB.
  revert buf w runes.
  induction fuel as [|fuel IH]; intros buf w runes Hk Henc Hf Hw; [lia|].
  intros j. cbv zeta. rewrite SymbolIterate_loop_S.
  destruct runes as [|r runes].
  { destruct buf; [|discriminate]. simpl. rewrite List.app_nil_r.
    repeat split; auto. }
  apply List.Forall_cons_iff in Hk as [(Hr & Hur & Hsize) Hk].
  rewrite encode_cons in Henc.
  destruct (plain_cases _ Hur) as [Herr _].
  destruct (DecodeRune_AppendRune r [] Hr) as [_ Hsz].
  change (List.length (utf8.AppendRune [] r)) with (width r) in Hsz.
  simpl in j.
  destruct (0 <? len buf) eqn:Hlen.
  2:{ apply Z.ltb_ge in Hlen. destruct buf; [|unfold len in Hlen; simpl in Hlen; lia].
      assert (Hj : j = 0%nat).
      { unfold j. simpl List.length.
        replace (0 <? width r)%nat with true by (symmetry; apply Nat.ltb_lt; lia).
        reflexivity. }
      rewrite Hj. simpl. rewrite List.app_nil_r. simpl in Henc. repeat split; auto. }
  apply Z.ltb_lt in Hlen.
  assert (Hcase : (exists l, buf = utf8.AppendRune [] r ++ l
                             /\ encode runes = l ++ tail)
                  \/ (exists x l, utf8.AppendRune [] r = buf ++ x :: l
                                  /\ tail = (x :: l) ++ encode runes)).
  { apply List.app_eq_app in Henc as [l [[Hbuf Hrest]|[Hrune Htail]]].
    - left. eauto.
    - destruct l as [|x l]; [left; exists []|right; eauto].
      rewrite List.app_nil_r in *. simpl in Htail. subst tail. auto. }
  destruct Hcase as [(l & Hbuf & Hrest)|(x & l & Hrune & Htail)].
  - (* the rune at the head of the buffer is whole *)
    destruct (DecodeRune_AppendRune r l Hr) as [Hdec _].
    assert (Hlb : List.length buf = (width r + List.length l)%nat)
      by (rewrite Hbuf, List.length_app; reflexivity).
    assert (Hj : j = if BlockSize opts <? len w + Z.of_nat (width r) then 0%nat
                     else S (taken (BlockSize opts) (map width runes)
                               (List.length l) (len w + Z.of_nat (width r)))).
    { unfold j. rewrite Hlb.
      replace (width r + List.length l <? width r)%nat with false
        by (symmetry; apply Nat.ltb_ge; lia).
      replace (width r + List.length l - width r)%nat with (List.length l) by lia.
      reflexivity. }
    rewrite Hj. clear Hj j. subst buf.
    rewrite Hdec. cbv iota zeta.
    change (List.length (utf8.AppendRune [] r)) with (width r).
    replace (Z.of_nat (width r) <=? 0) with false
      by (symmetry; apply Z.leb_gt; lia).
    assert (Hrr : r <> utf8.RuneError) by (apply (plain_cases _ Hr)).
    replace (r =? utf8.RuneError) with false by (symmetry; apply Z.eqb_neq, Hrr).
    rewrite andb_false_r. simpl handleConv. cbv iota zeta.
    fold (upper T r).
    replace (upper T r =? utf8.RuneError) with false
      by (symmetry; apply Z.eqb_neq, Herr).
    assert (Hnew : len (utf8.AppendRune w (upper T r))
                   = len w + Z.of_nat (width r)).
    { rewrite AppendRune_app, len_app. unfold len at 2.
      change (List.length (utf8.AppendRune [] (upper T r))) with (width (upper T r)).
      rewrite Hsize. reflexivity. }
    assert (Huint : uint (len (utf8.AppendRune w (upper T r)))
                    = len w + Z.of_nat (width r)).
    { rewrite Hnew. unfold uint, uint_modulus. apply Z.mod_small.
      pose proof (len_nonneg w). lia. }
    rewrite Huint.
    destruct (BlockSize opts <? _) eqn:Hfull.
    + simpl. rewrite List.app_nil_r. repeat split; auto.
    + apply Z.ltb_ge in Hfull.
      replace (skipn (width r) (utf8.AppendRune [] r ++ l)) with l
        by (unfold width; rewrite List.skipn_app, List.skipn_all, Nat.sub_diag;
            reflexivity).
      destruct (IH l (utf8.AppendRune w (upper T r)) runes Hk (eq_sym Hrest))
        as (Hwb & Hb & Ht & He); [lia | lia |].
      rewrite Hnew in Hwb, Hb, Ht.
      set (j := taken (BlockSize opts) (map width runes) (List.length l)
                  (len w + Z.of_nat (width r))) in *.
      simpl firstn. simpl skipn. simpl map.
      rewrite !encode_cons. repeat split.
      * rewrite Hwb, AppendRune_app, <- List.app_assoc. reflexivity.
      * rewrite <- List.app_assoc. f_equal. exact Hb.
      * exact Ht.
      * exact He.
  - (* the buffer ends inside the rune *)
    assert (Hne : buf <> [])
      by (intros ->; unfold len in Hlen; simpl in Hlen; lia).
    destruct (DecodeRune_part r buf (x :: l) Hr Hrune Hne ltac:(discriminate))
      as [Hdec H3].
    rewrite Hdec. cbv iota zeta.
    replace (len buf <? 3) with true by (symmetry; apply Z.ltb_lt, H3).
    change (utf8.RuneError =? utf8.RuneError) with true.
    rewrite orb_true_r. simpl andb. cbv iota.
    assert (Hj : j = 0%nat).
    { unfold j. replace (List.length buf <? width r)%nat with true; [reflexivity|].
      symmetry. apply Nat.ltb_lt. unfold width. rewrite Hrune, List.length_app.
      simpl. lia. }
    rewrite Hj. simpl. rewrite List.app_nil_r. repeat split; auto.
Qed.

End FixedWidth.

Lemma firstn_plus {A} (j k : nat) (l : list A) :
  firstn (j + k) l = firstn j l ++ firstn k (skipn j l).
Proof.
  revert l. induction j as [|j IH]; intros l; [reflexivity|].
  destruct l as [|x l]; simpl; [rewrite List.firstn_nil; reflexivity|].
  rewrite IH. reflexivity.
Qed.

Section FixedWidthRun.
Variable T : list unicode.CaseRange.
Variable opts : Options.
Hypothesis HL : Limit opts = 0.
Hypothesis HB : 1 <= BlockSize opts <= runtime.maxAlloc.

(** One turn of the main cycle on such text. *)
Lemma iteration_upper chunk endFile st runes tail :
  Forall (keepsWidth T) runes ->
  (prevBuffer st ++ chunk) ++ tail = encode runes ->
  isSpaceEnded st = false ->
  let j := taken (BlockSize opts) (map width runes)
             (List.length (prevBuffer st ++ chunk)) 0 in
  exists rest,
    prevBuffer st ++ chunk = encode (firstn j runes) ++ rest
    /\ rest ++ tail = encode (skipn j runes)
    /\ iteration T opts [UpperCase] chunk endFile st
       = (encode (map (upper T) (firstn j runes)) ++ (if endFile then rest else []),
          {| prevBuffer := rest; isSpaceEnded := false;
             totalReadBytes := uint_add (totalReadBytes st) (len chunk) |},
          endFile).
Proof using HL HB.
  intros Hk Henc He j.
  assert (HB' : 0 <= BlockSize opts < 2 ^ 63)
    by (unfold runtime.maxAlloc in HB; lia).
  destruct (SymbolIterate_loop_upper T opts HB'
              (S (List.length (prevBuffer st ++ chunk)))
              (prevBuffer st ++ chunk) [] false runes tail Hk Henc ltac:(lia)
              ltac:(change (len []) with 0; lia))
    as (Hwb & Hb & Ht & Hsp).
  change (len []) with 0 in Hwb, Hb, Ht. fold j in Hwb, Hb, Ht.
  exists (buffer (SymbolIterate_loop T opts [UpperCase]
                    (S (List.length (prevBuffer st ++ chunk)))
                    (prevBuffer st ++ chunk) [] false)).
  split; [exact Hb|]. split; [exact Ht|].
  unfold iteration, SymbolIterate. cbv zeta. rewrite He, Hsp, Hwb, HL.
  simpl andb. rewrite orb_false_r.
  destruct endFile; [reflexivity|]. rewrite List.app_nil_r. reflexivity.
Qed.

(** The whole run: the runes that some turn takes are written in upper
    case, the others are flushed as they are at the end, and how many are
    taken depends on the lengths of the encodings alone. *)
Lemma mainCycle_upper fuel reader st sink runes :
  Forall (keepsWidth T) runes -> prevBuffer st ++ reader = encode runes ->
  isSpaceEnded st = false -> (List.length reader < fuel)%nat ->
  let K := cycleTaken fuel (BlockSize opts) (map width runes)
             (List.length (prevBuffer st)) (List.length reader) in
  mainCycle T opts [UpperCase] fuel reader st sink
  = Some {| err := None;
            written := sink ++ encode (map (upper T) (firstn K runes))
                            ++ encode (skipn K runes);
            unread := [] |}.
Proof using HL HB.
  revert reader st sink runes.
  induction fuel as [|fuel IH]; intros reader st sink runes Hk Henc He Hf; [lia|].
  intros K. rewrite mainCycle_S, (maxReadLength_unlimited opts HL),
    (makeslice_fits _ (proj2 HB)).
  destruct (Read_cases reader (BlockSize opts) ltac:(lia))
    as [[-> ->]|(Hne & -> & Hlt)].
  - cbv iota zeta.
    destruct (iteration_upper [] true st runes [] Hk
                ltac:(rewrite !List.app_nil_r in *; exact Henc) He)
      as (rest & Hb & Ht & ->).
    rewrite List.app_nil_r in Ht. subst rest.
    assert (HK : K = taken (BlockSize opts) (map width runes)
                       (List.length (prevBuffer st ++ [])) 0).
    { unfold K. simpl. rewrite Nat.min_0_r, List.app_nil_r, Nat.add_0_r.
      reflexivity. }
    rewrite HK. reflexivity.
  - cbv iota zeta.
    set (chunk := firstn (Z.to_nat (BlockSize opts)) reader) in *.
    set (reader' := skipn (Z.to_nat (BlockSize opts)) reader) in *.
    assert (Hsplit : reader = chunk ++ reader')
      by (symmetry; apply List.firstn_skipn).
    destruct (iteration_upper chunk false st runes reader' Hk
                ltac:(rewrite <- List.app_assoc, <- Hsplit; exact Henc) He)
      as (rest & Hb & Ht & ->).
    set (j := taken (BlockSize opts) (map width runes)
                (List.length (prevBuffer st ++ chunk)) 0) in *.
    rewrite List.app_nil_r.
    assert (Hkj : Forall (keepsWidth T) (skipn j runes)).
    { rewrite <- (List.firstn_skipn j runes) in Hk.
      apply List.Forall_app in Hk as [_ Hk]. exact Hk. }
    rewrite (IH reader'
               {| prevBuffer := rest; isSpaceEnded := false;
                  totalReadBytes := uint_add (totalReadBytes st) (len chunk) |}
               (sink ++ encode (map (upper T) (firstn j runes)))
               (skipn j runes) Hkj Ht eq_refl ltac:(lia)).
    simpl prevBuffer.
    assert (Hchunk : List.length chunk
                     = Nat.min (Z.to_nat (BlockSize opts)) (List.length reader))
      by apply List.length_firstn.
    assert (Hrest : List.length rest
                    = (List.length (prevBuffer st) + List.length chunk
                       - list_sum (firstn j (map width runes)))%nat).
    { apply (f_equal (@List.length byte)) in Hb.
      rewrite !List.length_app, length_encode in Hb.
      rewrite List.firstn_map. lia. }
    assert (Hleft : List.length reader'
                    = (List.length reader - List.length chunk)%nat)
      by (unfold reader'; rewrite List.length_skipn; lia).
    assert (HK : K = (j + cycleTaken fuel (BlockSize opts)
                         (map width (skipn j runes)) (List.length rest)
                         (List.length reader'))%nat).
    { unfold K. simpl cycleTaken.
      replace (List.length reader =? 0)%nat with false
        by (symmetry; apply Nat.eqb_neq; destruct reader; [congruence|simpl; lia]).
      rewrite <- Hchunk.
      replace (List.length (prevBuffer st) + List.length chunk)%nat
        with (List.length (prevBuffer st ++ chunk)) by apply List.length_app.
      fold j. rewrite Hrest, Hleft, List.skipn_map, List.length_app. reflexivity. }
    rewrite HK. clear HK K.
    set (K' := cycleTaken fuel (BlockSize opts) (map width (skipn j runes))
                 (List.length rest) (List.length reader')).
    rewrite firstn_plus, List.map_app, encode_app.
    rewrite List.skipn_skipn.
    replace (K' + j)%nat with (j + K')%nat by lia.
    rewrite <- !List.app_assoc. reflexivity.
Qed.

End FixedWidthRun.

(** What [process] with [upper_case] writes for such text, read whole. *)
Lemma process_upper T BS runes :
  Forall (keepsWidth T) runes -> 1 <= BS <= runtime.maxAlloc ->
  let opts := {| Offset := 0; Limit := 0; BlockSize := BS; Conv := "upper_case" |} in
  let K := cycleTaken (S (List.length (encode runes))) BS (map width runes) 0
             (List.length (encode runes)) in
  process T opts (encode runes)
  = Some {| err := None;
            written := encode (map (upper T) (firstn K runes) ++ skipn K runes);
            unread := [] |}.
Proof.
  intros Hk HB opts K. unfold process.
  change (ParseConv opts) with (@inr Error _ [UpperCase]). cbv iota.
  unfold processFrom.
  change (CopyN_Discard (encode runes) (Offset opts))
    with (0, @None ReadErr, encode runes).
  cbv iota.
  rewrite (mainCycle_upper T opts eq_refl HB (S (List.length (encode runes)))
             (encode runes) initialState [] runes Hk eq_refl eq_refl ltac:(lia)).
  simpl prevBuffer. simpl List.length at 2. fold K.
  rewrite encode_app. reflexivity.
Qed.

(** C8, as the code has it. For text of runes of at most three bytes,
    U+FFFD apart, whose upper case is such a rune again, with an encoding
    of the same length, and is its own upper case: running [upper_case]
    on the output of a run with [upper_case] (offset 0, no limit, the
    same block size, one that [make] allocates) writes the same bytes as
    the first run. Text of one-byte runes is such text. *)
Theorem upper_case_idempotent T BS runes :
  Forall (keepsWidth T) runes ->
  Forall (fun r => upper T (upper T r) = upper T r) runes ->
  1 <= BS <= runtime.maxAlloc ->
  let opts := {| Offset := 0; Limit := 0; BlockSize := BS; Conv := "upper_case" |} in
  exists once,
    process T opts (encode runes)
    = Some {| err := None; written := once; unread := [] |}
    /\ process T opts once
       = Some {| err := None; written := once; unread := [] |}.
Proof.
  intros Hk Hidem HB opts.
  pose proof (process_upper T BS runes Hk HB) as Hrun1. cbv zeta in Hrun1.
  set (K := cycleTaken (S (List.length (encode runes))) BS (map width runes) 0
              (List.length (encode runes))) in *.
  set (runes2 := map (upper T) (firstn K runes) ++ skipn K runes).
  assert (HK : (K <= List.length runes)%nat).
  { unfold K. etransitivity; [apply cycleTaken_le|]. rewrite List.length_map. lia. }
  assert (Hk1 : Forall (keepsWidth T) (firstn K runes)
                /\ Forall (keepsWidth T) (skipn K runes)).
  { rewrite <- (List.firstn_skipn K runes) in Hk.
    apply List.Forall_app in Hk. exact Hk. }
  assert (Hi1 : Forall (fun r => upper T (upper T r) = upper T r) (firstn K runes)).
  { rewrite <- (List.firstn_skipn K runes) in Hidem.
    apply List.Forall_app in Hidem as [H _]. exact H. }
  destruct Hk1 as [Hkf Hks].
  assert (Hk2 : Forall (keepsWidth T) runes2).
  { apply List.Forall_app. split; [|exact Hks].
    rewrite List.Forall_forall in *. intros r' Hr'.
    apply List.in_map_iff in Hr' as (r & <- & Hr).
    destruct (Hkf r Hr) as (Hp & Hup & Hw). specialize (Hi1 r Hr).
    unfold keepsWidth. rewrite Hi1. auto. }
  assert (Hw2 : map width runes2 = map width runes).
  { unfold runes2. rewrite List.map_app, List.map_map.
    rewrite <- (List.firstn_skipn K runes) at 3. rewrite List.map_app. f_equal.
    apply List.map_ext_in. intros r Hr.
    rewrite List.Forall_forall in Hkf. apply (Hkf r Hr). }
  assert (Hl2 : List.length (encode runes2) = List.length (encode runes))
    by (rewrite !length_encode, Hw2; reflexivity).
  exists (encode runes2). split; [exact Hrun1|].
  pose proof (process_upper T BS runes2 Hk2 HB) as Hrun2. cbv zeta in Hrun2.
  rewrite Hw2, Hl2 in Hrun2. fold K in Hrun2. fold opts in Hrun2.
  rewrite Hrun2. f_equal. f_equal. f_equal. unfold runes2.
  assert (Hlen : List.length (map (upper T) (firstn K runes)) = K)
    by (rewrite List.length_map, List.length_firstn; lia).
  rewrite List.firstn_app, List.skipn_app, Hlen, Nat.sub_diag.
  assert (Hf1 : firstn K (map (upper T) (firstn K runes))
                = map (upper T) (firstn K runes))
    by (apply List.firstn_all2; lia).
  assert (Hs1 : skipn K (map (upper T) (firstn K runes)) = [])
    by (apply List.skipn_all2; lia).
  rewrite Hf1, Hs1.
  simpl. rewrite List.app_nil_r, List.map_map. f_equal.
  apply List.map_ext_in. intros r Hr.
  rewrite List.Forall_forall in Hi1. apply (Hi1 r Hr).
Qed.

Lemma upper_case_idempotent_witness :
  exists once,
    process unicode.CaseRanges_head
      {| Offset := 0; Limit := 0; BlockSize := 3; Conv := "upper_case" |}
      (encode [0x68; 0xE9; 0x20; 0xE9; 0xE9; 0xE9])
    = Some {| err := None; written := once; unread := [] |}
    /\ process unicode.CaseRanges_head
         {| Offset := 0; Limit := 0; BlockSize := 3; Conv := "upper_case" |} once
       = Some {| err := None; written := once; unread := [] |}.
Proof.
  apply (upper_case_idempotent unicode.CaseRanges_head 3
           [0x68; 0xE9; 0x20; 0xE9; 0xE9; 0xE9]).
  - repeat constructor; vm_compute; reflexivity.
  - repeat constructor; vm_compute; reflexivity.
  - vm_compute. split; discriminate.
Defined.

(** A one-byte rune is such a rune, and text of one-byte runes is the
    encoding of its bytes. *)
Lemma keepsWidth_ascii T r :
  caseKeepsASCII T -> 0 <= r < utf8.RuneSelf -> keepsWidth T r.
Proof.
  intros HT Hr.
  destruct (HT unicode.UpperCase r (or_introl eq_refl) Hr) as [Hu _].
  fold (upper T r) in Hu.
  assert (Hplain : forall z, 0 <= z < utf8.RuneSelf -> plain z = true).
  { intros z Hz. unfold plain, utf8.RuneSelf, utf8.rune3Max, utf8.surrogateMin,
      utf8.surrogateMax, utf8.RuneError in *.
    replace (0 <=? z) with true by (symmetry; apply Z.leb_le; lia).
    replace (z <=? 2 ^ 16 - 1) with true by (symmetry; apply Z.leb_le; lia).
    replace (55296 <=? z) with false by (symmetry; apply Z.leb_gt; lia).
    replace (z =? 65533) with false by (symmetry; apply Z.eqb_neq; lia).
    reflexivity. }
  unfold keepsWidth, width. rewrite !AppendRune_ascii by assumption.
  repeat split; auto.
Qed.

Lemma encode_ascii input :
  isASCII input -> encode (map b2z input) = input.
Proof.
  intros Hin. induction Hin as [|b input Hb _ IH]; [reflexivity|].
  simpl map. rewrite encode_cons, IH.
  rewrite AppendRune_ascii by (pose proof (b2z_range b); lia).
  rewrite z2b_b2z. reflexivity.
Qed.


(** * Properties of [TopN] *)

Import tagcloud.

Lemma int_small z : - 2 ^ 63 <= z < 2 ^ 63 -> int z = z.
Proof. intros H. unfold int. rewrite Z.mod_small by lia. lia. Qed.

Lemma callsOf_app tag a b : callsOf tag (a ++ b) = callsOf tag a + callsOf tag b.
Proof. unfold callsOf. rewrite List.filter_app, len_app. reflexivity. Qed.

Lemma callsOf_bounds tag calls : 0 <= callsOf tag calls <= len calls.
Proof.
  unfold callsOf, len. pose proof (List.filter_length_le (fun t => String.eqb t tag) calls).
  lia.
Qed.

Lemma callsOf_absent tag calls : ~ In tag calls -> callsOf tag calls = 0.
Proof.
  intros Hn. unfold callsOf.
  destruct (List.filter (fun t => String.eqb t tag) calls) as [|x l] eqn:E; [reflexivity|].
  exfalso. assert (H : In x (List.filter (fun t => String.eqb t tag) calls))
    by (rewrite E; left; reflexivity).
  apply List.filter_In in H as [H1 H2]. apply String.eqb_eq in H2. subst. contradiction.
Qed.

(** The map of the cloud holds, for every tag added, the number of calls
    that added it. *)
Lemma cloudOf_lookup calls tag :
  len calls < 2 ^ 63 ->
  (In tag calls -> tags (cloudOf calls) !! tag = Some (callsOf tag calls))
  /\ (~ In tag calls -> tags (cloudOf calls) !! tag = None).
Proof.
  induction calls as [|x calls IH] using List.rev_ind; intros Hlen.
  - split; [intros []|]. intros _. apply lookup_empty.
  - rewrite len_app in Hlen. change (len [x]) with 1 in Hlen.
    destruct (IH ltac:(lia)) as [IHin IHout].
    unfold cloudOf in *. rewrite List.fold_left_app. simpl.
    destruct (string_dec tag x) as [->|Hne].
    + split; [|intros Hn; exfalso; apply Hn, List.in_or_app; right; left; reflexivity].
      intros _. rewrite lookup_insert_eq. f_equal.
      rewrite callsOf_app.
      assert (Hx : callsOf x [x] = 1).
      { unfold callsOf. simpl. rewrite String.eqb_refl. reflexivity. }
      rewrite Hx. pose proof (callsOf_bounds x calls).
      destruct (List.in_dec string_dec x calls) as [Hi|Hi].
      * rewrite (IHin Hi). simpl. apply int_small. lia.
      * rewrite (IHout Hi). simpl. rewrite (callsOf_absent x calls Hi). reflexivity.
    + assert (Hx : callsOf tag [x] = 0).
      { unfold callsOf. simpl. destruct (String.eqb_spec x tag); [congruence|reflexivity]. }
      rewrite lookup_insert_ne by congruence. split.
      * intros Hin. apply List.in_app_or in Hin as [Hin|[Hin|[]]]; [|congruence].
        rewrite callsOf_app, Hx, Z.add_0_r. apply IHin, Hin.
      * intros Hn. apply IHout. intros Hin. apply Hn, List.in_or_app. left. exact Hin.
Qed.

(** ** The insertion sort meets the contract of [slices.SortFunc] *)

Lemma insertCmp_perm cmp x l : Permutation (insertCmp cmp x l) (x :: l).
Proof.
  induction l as [|y l IH]; simpl; [reflexivity|].
  destruct (cmp x y <? 0); [reflexivity|].
  rewrite IH. apply perm_swap.
Qed.

Lemma insertionSort_perm cmp l : Permutation (insertionSort cmp l) l.
Proof.
  induction l as [|x l IH]; simpl; [reflexivity|].
  rewrite insertCmp_perm. constructor. exact IH.
Qed.

Lemma insertCmp_sorted cmp x l :
  strictWeakOn cmp (x :: l) ->
  StronglySorted (fun a b => ~ less cmp b a) l ->
  StronglySorted (fun a b => ~ less cmp b a) (insertCmp cmp x l).
Proof.
  intros (Hirr & Htr & Hneg) Hs. induction Hs as [|y l Hs IH Hy]; simpl.
  - repeat constructor.
  - destruct (Z.ltb_spec (cmp x y) 0) as [Hlt|Hge].
    + constructor; [constructor; assumption|].
      constructor.
      * intros Hyx. apply (Hirr x); [left; reflexivity|].
        apply (Htr x y x); simpl; auto.
      * rewrite List.Forall_forall in *. intros z Hz Hzx.
        apply (Hy z Hz). apply (Htr z x y); simpl; auto.
    + constructor.
      * apply IH.
        -- intros a Ha. apply Hirr. destruct Ha; simpl; auto.
        -- intros a b c Ha Hb Hc. apply Htr; destruct Ha, Hb, Hc; simpl; auto.
        -- intros a b c Ha Hb Hc. apply Hneg; destruct Ha, Hb, Hc; simpl; auto.
      * rewrite List.Forall_forall in *. intros z Hz.
        apply (Permutation_in _ (insertCmp_perm cmp x l)) in Hz.
        destruct Hz as [<-|Hz]; [unfold less; lia | apply Hy, Hz].
Qed.

Lemma insertionSort_contract : sortContract insertionSort.
Proof.
  intros cmp l. split; [apply insertionSort_perm|].
  induction l as [|x l IH]; intros Hswo; simpl; [constructor|].
  assert (Hswo' : strictWeakOn cmp l).
  { destruct Hswo as (Hirr & Htr & Hneg). repeat split.
    - intros a Ha. apply Hirr. right. exact Ha.
    - intros a b c Ha Hb Hc. apply Htr; right; assumption.
    - intros a b c Ha Hb Hc. apply Hneg; right; assumption. }
  apply insertCmp_sorted; [|apply IH, Hswo'].
  destruct Hswo as (Hirr & Htr & Hneg).
  assert (Hin : forall a, In a (x :: insertionSort cmp l) -> In a (x :: l)).
  { intros a [<-|Ha]; [left; reflexivity|right].
    apply (Permutation_in _ (insertionSort_perm cmp l)), Ha. }
  repeat split.
  - intros a Ha. apply Hirr, Hin, Ha.
  - intros a b c Ha Hb Hc. apply Htr; apply Hin; assumption.
  - intros a b c Ha Hb Hc. apply Hneg; apply Hin; assumption.
Qed.

Lemma map_to_list_contract : rangeContract map_to_list.
Proof. intros m. reflexivity. Qed.

(** ** [TopN] *)

Lemma StronglySorted_weaken {A} (R R' : A -> A -> Prop) (P : A -> Prop) l :
  (forall a b, P a -> P b -> R a b -> R' a b) ->
  Forall P l -> StronglySorted R l -> StronglySorted R' l.
Proof.
  intros HR HP Hs. induction Hs as [|a l Hs IH Ha]; [constructor|].
  inversion HP as [|? ? Pa Pl]; subst. constructor; [apply IH, Pl|].
  rewrite List.Forall_forall in *. intros b Hb. apply HR; auto.
Qed.

Lemma StronglySorted_firstn {A} (R : A -> A -> Prop) n l :
  StronglySorted R l -> StronglySorted R (firstn n l).
Proof.
  intros Hs. revert n. induction Hs as [|a l Hs IH Ha]; intros n.
  - rewrite List.firstn_nil. constructor.
  - destruct n; simpl; [constructor|]. constructor; [apply IH|].
    rewrite List.Forall_forall in *. intros b Hb. apply Ha.
    rewrite <- (List.firstn_skipn n l). apply List.in_or_app. left. exact Hb.
Qed.

Lemma NoDup_firstn {A} n (l : list A) : List.NoDup l -> List.NoDup (firstn n l).
Proof.
  intros H. apply NoDup_ListNoDup. apply NoDup_ListNoDup in H.
  rewrite <- (List.firstn_skipn n l) in H.
  apply NoDup_app in H as [H _]. exact H.
Qed.

Section TopNSpec.
Variable rangeOrder : gmap string Z -> list (string * Z).
Variable SortFunc : (TagStat -> TagStat -> Z) -> list TagStat -> list TagStat.
Hypothesis Hrange : rangeContract rangeOrder.
Hypothesis Hsort : sortContract SortFunc.
Variable calls : list string.
Hypothesis Hcalls : len calls < 2 ^ 63.

Lemma lookup_counted tag count :
  tags (cloudOf calls) !! tag = Some count ->
  In tag calls /\ count = callsOf tag calls.
Proof using Hcalls.
  intros Hl. destruct (cloudOf_lookup calls tag Hcalls) as [Hin Hout].
  destruct (List.in_dec string_dec tag calls) as [Hi|Hi].
  - rewrite (Hin Hi) in Hl. injection Hl as <-. auto.
  - rewrite (Hout Hi) in Hl. discriminate.
Qed.

Lemma collected_counted : Forall (counted calls) (collected rangeOrder calls).
Proof using Hrange Hcalls.
  apply List.Forall_forall. intros s Hs. unfold collected in Hs.
  apply List.in_map_iff in Hs as ([tag count] & <- & Hin).
  apply (Permutation_in _ (Hrange _)) in Hin.
  apply list_elem_of_In, elem_of_map_to_list in Hin.
  exact (lookup_counted tag count Hin).
Qed.

Lemma collected_tags :
  Permutation (map Tag (collected rangeOrder calls)) (nodup string_dec calls).
Proof using Hrange Hcalls.
  assert (Hk : map Tag (collected rangeOrder calls)
               = map fst (rangeOrder (tags (cloudOf calls)))).
  { unfold collected. rewrite List.map_map. apply List.map_ext.
    intros [t c]. reflexivity. }
  rewrite Hk. rewrite (Permutation_map fst (Hrange _)).
  apply Permutation.NoDup_Permutation.
  - apply NoDup_ListNoDup, NoDup_fst_map_to_list.
  - apply List.NoDup_nodup.
  - intros tag. rewrite List.nodup_In. split.
    + intros Hin. apply List.in_map_iff in Hin as ([t c] & <- & Hin).
      apply list_elem_of_In, elem_of_map_to_list in Hin.
      exact (proj1 (lookup_counted t c Hin)).
    + intros Hin. apply List.in_map_iff. exists (tag, callsOf tag calls). split; [reflexivity|].
      apply list_elem_of_In, elem_of_map_to_list.
      exact (proj1 (cloudOf_lookup calls tag Hcalls) Hin).
Qed.

Lemma byCount_counted a b :
  counted calls a -> counted calls b ->
  byCount a b = OccurrenceCount b - OccurrenceCount a.
Proof using Hcalls.
  intros [_ Ha] [_ Hb]. unfold byCount. apply int_small.
  pose proof (callsOf_bounds (Tag a) calls). pose proof (callsOf_bounds (Tag b) calls).
  lia.
Qed.

Lemma collected_strictWeak : strictWeakOn byCount (collected rangeOrder calls).
Proof using Hrange Hcalls.
  pose proof collected_counted as Hc. rewrite List.Forall_forall in Hc.
  unfold strictWeakOn, less. repeat split.
  - intros a Ha. rewrite byCount_counted by auto. lia.
  - intros a b c Ha Hb Hc'. rewrite !byCount_counted by auto. lia.
  - intros a b c Ha Hb Hc'. rewrite !byCount_counted by auto. lia.
Qed.

(** C10. After any calls of [AddTag], fewer than 2^63 of them, and for
    every n >= 0, [TopN(n)] returns min(n, number of distinct tags added)
    entries, in order of non-increasing [OccurrenceCount], each for a tag
    that was added and with the number of calls [AddTag] made for that tag
    as its count, and no tag twice. *)
Theorem TopN_spec n :
  0 <= n ->
  exists top,
    TopN rangeOrder SortFunc (cloudOf calls) n = Some top
    /\ len top = Z.min n (distinct calls)
    /\ StronglySorted (fun a b => OccurrenceCount a >= OccurrenceCount b) top
    /\ Forall (fun s => In (Tag s) calls
                        /\ OccurrenceCount s = callsOf (Tag s) calls) top
    /\ List.NoDup (map Tag top).
Proof using Hrange Hsort Hcalls.
  intros Hn. unfold TopN. fold (collected rangeOrder calls).
  destruct (Hsort byCount (collected rangeOrder calls)) as [Hperm Hsorted].
  specialize (Hsorted collected_strictWeak).
  set (sorted := SortFunc byCount (collected rangeOrder calls)) in *.
  assert (Hcounted : Forall (counted calls) sorted).
  { apply List.Forall_forall. intros s Hs.
    pose proof collected_counted as Hc. rewrite List.Forall_forall in Hc.
    apply Hc. apply (Permutation_in _ Hperm), Hs. }
  assert (Hlen : len sorted = distinct calls).
  { unfold distinct, len. f_equal.
    rewrite (Permutation_length Hperm),
      <- (List.length_map Tag (collected rangeOrder calls)).
    apply Permutation_length, collected_tags. }
  set (n' := if len sorted <? n then len sorted else n).
  assert (Hn' : n' = Z.min n (distinct calls)).
  { unfold n'. rewrite Hlen. destruct (Z.ltb_spec (distinct calls) n); lia. }
  assert (Hpos : 0 <= n') by (pose proof (len_nonneg sorted); lia).
  replace (n' <? 0) with false by (symmetry; apply Z.ltb_ge; exact Hpos).
  eexists. split; [reflexivity|]. repeat split.
  - unfold len at 1. rewrite List.length_firstn. fold (len sorted). unfold len in *. lia.
  - apply StronglySorted_firstn.
    apply (StronglySorted_weaken (fun a b => ~ less byCount b a) _ (counted calls) sorted);
      [|exact Hcounted|exact Hsorted].
    intros a b Ha Hb Hab. unfold less in Hab. rewrite byCount_counted in Hab by auto. lia.
  - apply List.Forall_forall. intros s Hs. rewrite List.Forall_forall in Hcounted.
    apply Hcounted. rewrite <- (List.firstn_skipn (Z.to_nat n') sorted).
    apply List.in_or_app. left. exact Hs.
  - rewrite <- List.firstn_map. apply NoDup_firstn.
    apply (Permutation_NoDup (l := map Tag (collected rangeOrder calls))).
    + symmetry. apply Permutation_map, Hperm.
    + apply (Permutation_NoDup (l := nodup string_dec calls)).
      * symmetry. apply collected_tags.
      * apply List.NoDup_nodup.
Qed.
End TopNSpec.

Lemma TopN_spec_witness :
  exists top,
    TopN map_to_list insertionSort (cloudOf ["go"; "rocq"; "go"]%string) 1 = Some top
    /\ len top = Z.min 1 (distinct ["go"; "rocq"; "go"]%string)
    /\ StronglySorted (fun a b => OccurrenceCount a >= OccurrenceCount b) top
    /\ Forall (fun s => In (Tag s) ["go"; "rocq"; "go"]%string
                        /\ OccurrenceCount s = callsOf (Tag s) ["go"; "rocq"; "go"]%string) top
    /\ List.NoDup (map Tag top).
Proof.
  apply (TopN_spec map_to_list insertionSort map_to_list_contract
           insertionSort_contract ["go"; "rocq"; "go"]%string).
  - vm_compute. reflexivity.
  - lia.
Defined.

Example TopN_example :
  TopN map_to_list insertionSort (cloudOf ["go"; "rocq"; "go"]%string) 5
  = Some [ {| Tag := "go"; OccurrenceCount := 2 |};
           {| Tag := "rocq"; OccurrenceCount := 1 |} ].
Proof. vm_compute. reflexivity. Qed.
(** ** More on [AddTag] and [TopN] *)

Lemma AddTag_comm cloud a b :
  AddTag (AddTag cloud a) b = AddTag (AddTag cloud b) a.
Proof.
  destruct (string_dec a b) as [->|Hne]; [reflexivity|].
  unfold AddTag. simpl. f_equal.
  rewrite !lookup_insert_ne by congruence.
  apply insert_insert_ne. congruence.
Qed.

Lemma fold_AddTag_permutation calls1 calls2 :
  Permutation calls1 calls2 ->
  forall cloud, fold_left AddTag calls1 cloud = fold_left AddTag calls2 cloud.
Proof.
  intros Hp. induction Hp as [|x l1 l2 Hp IH|x y l|l1 l2 l3 H1 IH1 H2 IH2];
    intros cloud; simpl.
  - reflexivity.
  - apply IH.
  - rewrite AddTag_comm. reflexivity.
  - rewrite IH1. apply IH2.
Qed.

(** X12. The cloud does not depend on the order of the calls of
    [AddTag]: the same tags added in another order give the same map. *)
Theorem cloudOf_order_irrelevant calls1 calls2 :
  Permutation calls1 calls2 -> cloudOf calls1 = cloudOf calls2.
Proof.
  intros Hp. unfold cloudOf. apply fold_AddTag_permutation, Hp.
Qed.

Lemma cloudOf_order_irrelevant_witness :
  cloudOf ["go"; "rocq"; "go"]%string = cloudOf ["rocq"; "go"; "go"]%string.
Proof.
  apply (cloudOf_order_irrelevant ["go"; "rocq"; "go"]%string
           ["rocq"; "go"; "go"]%string).
  apply perm_trans with (["rocq"; "go"; "go"]%string);
    [apply perm_swap | apply Permutation_refl].
Defined.

Lemma StronglySorted_app_inv {A} (R : A -> A -> Prop) l1 l2 :
  StronglySorted R (l1 ++ l2) ->
  forall a b, In a l1 -> In b l2 -> R a b.
Proof.
  induction l1 as [|x l1 IH]; intros Hs a b Ha Hb; [destruct Ha|].
  simpl in Hs. inversion Hs as [|? ? Hs' Hx]; subst.
  destruct Ha as [->|Ha]; [|apply IH; assumption].
  rewrite List.Forall_forall in Hx. apply Hx, List.in_or_app. right. exact Hb.
Qed.

Section TopNMore.
Variable rangeOrder : gmap string Z -> list (string * Z).
Variable SortFunc : (TagStat -> TagStat -> Z) -> list TagStat -> list TagStat.
Hypothesis Hrange : rangeContract rangeOrder.
Hypothesis Hsort : sortContract SortFunc.
Variable calls : list string.
Hypothesis Hcalls : len calls < 2 ^ 63.

(** The sorted slice of [TopN]: every tag added, once, with its count, in
    order of non-increasing count. *)
Lemma sorted_collected :
  let sorted := SortFunc byCount (collected rangeOrder calls) in
  Permutation sorted (collected rangeOrder calls)
  /\ Forall (counted calls) sorted
  /\ StronglySorted (fun a b => OccurrenceCount a >= OccurrenceCount b) sorted
  /\ (forall tag, In tag calls ->
        In {| Tag := tag; OccurrenceCount := callsOf tag calls |} sorted).
Proof using Hrange Hsort Hcalls.
  cbv zeta.
  destruct (Hsort byCount (collected rangeOrder calls)) as [Hperm Hsorted].
  specialize (Hsorted (collected_strictWeak rangeOrder Hrange calls Hcalls)).
  assert (Hcounted : Forall (counted calls)
                       (SortFunc byCount (collected rangeOrder calls))).
  { apply List.Forall_forall. intros s Hs.
    pose proof (collected_counted rangeOrder Hrange calls Hcalls) as Hc.
    rewrite List.Forall_forall in Hc.
    apply Hc. apply (Permutation_in _ Hperm), Hs. }
  repeat split; try assumption.
  - apply (StronglySorted_weaken (fun a b => ~ less byCount b a) _ (counted calls));
      [|exact Hcounted|exact Hsorted].
    intros a b Ha Hb Hab. unfold less in Hab.
    rewrite (byCount_counted calls Hcalls) in Hab by auto. lia.
  - intros tag Hin. apply (Permutation_in _ (Permutation_sym Hperm)).
    unfold collected. apply List.in_map_iff.
    exists (tag, callsOf tag calls). split; [reflexivity|].
    apply (Permutation_in _ (Permutation_sym (Hrange _))).
    apply list_elem_of_In, elem_of_map_to_list.
    exact (proj1 (cloudOf_lookup calls tag Hcalls) Hin).
Qed.

(** X13. The entries [TopN(n)] returns are the most frequent ones: a tag
    that was added and is not among them was added at most as often as
    each of them. *)
Theorem TopN_most_frequent n :
  0 <= n ->
  exists top,
    TopN rangeOrder SortFunc (cloudOf calls) n = Some top
    /\ forall s tag, In s top -> In tag calls -> ~ In tag (map Tag top) ->
         callsOf tag calls <= OccurrenceCount s.
Proof using Hrange Hsort Hcalls.
  intros Hn. unfold TopN. fold (collected rangeOrder calls).
  destruct sorted_collected as (Hperm & Hcounted & Hsorted & Hall).
  set (sorted := SortFunc byCount (collected rangeOrder calls)) in *.
  set (n' := if len sorted <? n then len sorted else n).
  assert (Hpos : 0 <= n')
    by (unfold n'; pose proof (len_nonneg sorted); destruct (len sorted <? n); lia).
  replace (n' <? 0) with false by (symmetry; apply Z.ltb_ge; exact Hpos).
  eexists. split; [reflexivity|].
  intros s tag Hs Htag Hout.
  specialize (Hall tag Htag).
  rewrite <- (List.firstn_skipn (Z.to_nat n') sorted) in Hall, Hsorted.
  apply List.in_app_or in Hall as [Htop|Hrest].
  - exfalso. apply Hout. apply List.in_map_iff. eexists. split; [|exact Htop].
    reflexivity.
  - pose proof (StronglySorted_app_inv _ _ _ Hsorted s _ Hs Hrest) as Hge.
    simpl in Hge. lia.
Qed.

(** X14. When [n] is at least the number of distinct tags, [TopN(n)]
    returns them all: every tag added is there with the number of calls
    that added it. *)
Theorem TopN_returns_all n :
  distinct calls <= n ->
  exists top,
    TopN rangeOrder SortFunc (cloudOf calls) n = Some top
    /\ len top = distinct calls
    /\ forall tag, In tag calls ->
         In {| Tag := tag; OccurrenceCount := callsOf tag calls |} top.
Proof using Hrange Hsort Hcalls.
  intros Hn. unfold TopN. fold (collected rangeOrder calls).
  destruct sorted_collected as (Hperm & Hcounted & Hsorted & Hall).
  set (sorted := SortFunc byCount (collected rangeOrder calls)) in *.
  assert (Hlen : len sorted = distinct calls).
  { unfold distinct, len. f_equal.
    rewrite (Permutation_length Hperm),
      <- (List.length_map Tag (collected rangeOrder calls)).
    apply Permutation_length, (collected_tags rangeOrder Hrange calls Hcalls). }
  set (n' := if len sorted <? n then len sorted else n).
  assert (Hn' : len sorted <= n')
    by (unfold n'; destruct (Z.ltb_spec (len sorted) n); lia).
  pose proof (len_nonneg sorted) as Hnn.
  replace (n' <? 0) with false by (symmetry; apply Z.ltb_ge; lia).
  exists sorted. split; [|split; assumption].
  f_equal. apply List.firstn_all2. unfold len in *. lia.
Qed.

End TopNMore.

Lemma TopN_most_frequent_witness :
  exists top,
    TopN map_to_list insertionSort (cloudOf ["go"; "rocq"; "go"]%string) 1 = Some top
    /\ forall s tag, In s top -> In tag ["go"; "rocq"; "go"]%string ->
         ~ In tag (map Tag top) ->
         callsOf tag ["go"; "rocq"; "go"]%string <= OccurrenceCount s.
Proof.
  apply (TopN_most_frequent map_to_list insertionSort map_to_list_contract
           insertionSort_contract ["go"; "rocq"; "go"]%string).
  - vm_compute. reflexivity.
  - lia.
Defined.

Lemma TopN_returns_all_witness :
  exists top,
    TopN map_to_list insertionSort (cloudOf ["go"; "rocq"; "go"]%string) 7 = Some top
    /\ len top = distinct ["go"; "rocq"; "go"]%string
    /\ forall tag, In tag ["go"; "rocq"; "go"]%string ->
         In {| Tag := tag;
               OccurrenceCount := callsOf tag ["go"; "rocq"; "go"]%string |} top.
Proof.
  apply (TopN_returns_all map_to_list insertionSort map_to_list_contract
           insertionSort_contract ["go"; "rocq"; "go"]%string).
  - vm_compute. reflexivity.
  - vm_compute. discriminate.
Defined.

(** ** [TopN] when no two tags have the same count *)

(** Two rearrangements of the same elements, both in strictly decreasing
    order, are the same list. *)
Lemma strictly_sorted_unique {A} (R : A -> A -> Prop) l1 l2 :
  (forall a b, R a b -> R b a -> False) ->
  StronglySorted R l1 -> StronglySorted R l2 -> Permutation l1 l2 -> l1 = l2.
Proof.
  intros Hasym Hs1. revert l2.
  induction Hs1 as [|a l1 Hs1 IH Ha]; intros l2 Hs2 Hp.
  - apply Permutation_nil in Hp. auto.
  - destruct l2 as [|b l2]; [apply Permutation_sym, Permutation_nil in Hp; discriminate|].
    inversion Hs2 as [|? ? Hs2' Hb]; subst.
    rewrite List.Forall_forall in Ha, Hb.
    assert (Hab : a = b).
    { assert (Hin1 : In a (b :: l2)) by (apply (Permutation_in _ Hp); left; reflexivity).
      assert (Hin2 : In b (a :: l1))
        by (apply (Permutation_in _ (Permutation_sym Hp)); left; reflexivity).
      destruct Hin1 as [->|Hin1]; [reflexivity|].
      destruct Hin2 as [->|Hin2]; [reflexivity|].
      exfalso. apply (Hasym a b); [apply Ha, Hin2 | apply Hb, Hin1]. }
    subst b. f_equal. apply IH; [exact Hs2'|].
    apply (Permutation_cons_inv Hp).
Qed.

(** Without ties, non-increasing counts of entries with distinct tags are
    decreasing counts. *)
Lemma StronglySorted_strict calls l :
  (forall t1 t2, In t1 calls -> In t2 calls ->
     callsOf t1 calls = callsOf t2 calls -> t1 = t2) ->
  Forall (counted calls) l -> List.NoDup (map Tag l) ->
  StronglySorted (fun a b => OccurrenceCount a >= OccurrenceCount b) l ->
  StronglySorted (fun a b => OccurrenceCount a > OccurrenceCount b) l.
Proof.
  intros Hties Hc Hnd Hs.
  induction Hs as [|a l Hs IH Ha]; [constructor|].
  apply List.Forall_cons_iff in Hc as [[Hain Hacount] Hc].
  simpl in Hnd. apply List.NoDup_cons_iff in Hnd as [Hnotin Hnd].
  constructor; [apply IH; assumption|].
  rewrite List.Forall_forall in *. intros b Hb.
  specialize (Ha b Hb). destruct (Hc b Hb) as [Hbin Hbcount].
  destruct (Z.eq_dec (OccurrenceCount a) (OccurrenceCount b)) as [Heq|Hne]; [|lia].
  exfalso. apply Hnotin. rewrite (Hties (Tag a) (Tag b)) by congruence.
  apply List.in_map, Hb.
Qed.

Section NoTies.
Variables rangeOrder1 rangeOrder2 : gmap string Z -> list (string * Z).
Variables SortFunc1 SortFunc2
  : (TagStat -> TagStat -> Z) -> list TagStat -> list TagStat.
Hypothesis Hrange1 : rangeContract rangeOrder1.
Hypothesis Hrange2 : rangeContract rangeOrder2.
Hypothesis Hsort1 : sortContract SortFunc1.
Hypothesis Hsort2 : sortContract SortFunc2.
Variable calls : list string.
Hypothesis Hcalls : len calls < 2 ^ 63.
Hypothesis Hties :
  forall t1 t2, In t1 calls -> In t2 calls ->
    callsOf t1 calls = callsOf t2 calls -> t1 = t2.

(** X15. When no two tags were added the same number of times, the
    result of [TopN] is the same whatever the order in which [range]
    visits the map and whatever sorting procedure [slices.SortFunc]
    is. *)
Theorem TopN_unique_without_ties n :
  TopN rangeOrder1 SortFunc1 (cloudOf calls) n
  = TopN rangeOrder2 SortFunc2 (cloudOf calls) n.
Proof using Hrange1 Hrange2 Hsort1 Hsort2 Hcalls Hties.
  unfold TopN.
  fold (collected rangeOrder1 calls). fold (collected rangeOrder2 calls).
  destruct (sorted_collected rangeOrder1 SortFunc1 Hrange1 Hsort1 calls Hcalls)
    as (Hp1 & Hc1 & Hs1 & _).
  destruct (sorted_collected rangeOrder2 SortFunc2 Hrange2 Hsort2 calls Hcalls)
    as (Hp2 & Hc2 & Hs2 & _).
  assert (Hcoll : Permutation (collected rangeOrder1 calls)
                              (collected rangeOrder2 calls)).
  { unfold collected. apply Permutation_map.
    rewrite (Hrange1 _), (Hrange2 _). reflexivity. }
  assert (Hnd : forall rangeOrder sorted,
            rangeContract rangeOrder ->
            Permutation sorted (collected rangeOrder calls) ->
            List.NoDup (map Tag sorted)).
  { intros rangeOrder sorted Hr Hp.
    apply (Permutation_NoDup (l := nodup string_dec calls));
      [|apply List.NoDup_nodup].
    symmetry. rewrite (Permutation_map Tag Hp).
    apply (collected_tags rangeOrder Hr calls Hcalls). }
  assert (Heq : SortFunc1 byCount (collected rangeOrder1 calls)
                = SortFunc2 byCount (collected rangeOrder2 calls)).
  { apply (strictly_sorted_unique
             (fun a b => OccurrenceCount a > OccurrenceCount b)).
    - intros a b H1 H2. lia.
    - apply (StronglySorted_strict calls); try assumption.
      apply (Hnd rangeOrder1 _ Hrange1 Hp1).
    - apply (StronglySorted_strict calls); try assumption.
      apply (Hnd rangeOrder2 _ Hrange2 Hp2).
    - rewrite Hp1, Hp2. exact Hcoll. }
  rewrite Heq. reflexivity.
Qed.

End NoTies.

Lemma rev_map_to_list_contract :
  rangeContract (fun m => rev (map_to_list m)).
Proof. intros m. symmetry. apply Permutation_rev. Qed.

Lemma TopN_unique_without_ties_witness :
  TopN map_to_list insertionSort (cloudOf ["go"; "rocq"; "go"]%string) 1
  = TopN (fun m => rev (map_to_list m)) insertionSort
      (cloudOf ["go"; "rocq"; "go"]%string) 1.
Proof.
  apply (TopN_unique_without_ties map_to_list (fun m => rev (map_to_list m))
           insertionSort insertionSort
           map_to_list_contract rev_map_to_list_contract
           insertionSort_contract insertionSort_contract
           ["go"; "rocq"; "go"]%string).
  - vm_compute. reflexivity.
  - intros t1 t2 H1 H2 Heq. simpl in H1, H2.
    destruct H1 as [<-|[<-|[<-|[]]]]; destruct H2 as [<-|[<-|[<-|[]]]];
      try reflexivity; vm_compute in Heq; discriminate.
Defined.

